(** * seoUtils: a shallow embedding of the SEO analysis pipeline

    The development follows [src/seoUtils.ts].  The platform facilities the
    module calls (the DOM, [JSON.parse], [new URL], [Math.random], [fetch])
    are modelled explicitly:

    - a string is a sequence of code units; the model keeps the code units
      below 256, so [ascii] stands for one code unit and [String.length] is
      the JavaScript [length].  The literals of the source that hold other
      characters (the messages of the recommendations, the texts of the
      sample report) are kept as their UTF-8 bytes, and nothing is stated of
      their length;
    - an integer-valued number is a [Z], a fractional one a [Q].  The
      quotients the module forms (a count over a count, a sum of five scores
      over 5) are compared and rounded far away from the precision of a
      double, so the exact rational gives the same comparisons and roundings.
      A fractional number that the module stores as computed (a density, a
      load time, a page size) is the exact rational here and the double
      nearest to it in the source; a bound or a sum of such numbers is
      stated of the rounded values;
    - [Math.random] is a source of draws threaded through the computation, in
      the order the calls are evaluated; a draw is a rational in [0, 1), and
      the decimal constants it is compared with stand for their decimal
      value;
    - an exception is an outcome of the computation;
    - [analyzePage] is asynchronous: a call is an event that looks the cache
      up, and the arrival of its reply a later event that writes the cache,
      with the events of other calls in between. *)

From stdpp Require Import gmap strings.
From Stdlib Require Import ZArith QArith Qround String Ascii List Lia Bool.
From Stdlib Require Import Permutation Sorted DecimalString Lqa.
Import ListNotations.

Open Scope string_scope.
Open Scope Z_scope.

(** ** Strings *)

Definition code (c : ascii) : N := N_of_ascii c.

Definition between (lo hi : N) (c : ascii) : bool :=
  (lo <=? code c)%N && (code c <=? hi)%N.

Definition is_digit (c : ascii) : bool := between 48 57 c.

(** [\w] of a regular expression without the unicode flag. *)
Definition is_word_char (c : ascii) : bool :=
  is_digit c || between 65 90 c || between 97 122 c || (code c =? 95)%N.

(** [\s]: tab, line feed, vertical tab, form feed, carriage return, space and
    the no-break space (the white space and line terminators below 256). *)
Definition is_space (c : ascii) : bool :=
  between 9 13 c || (code c =? 32)%N || (code c =? 160)%N.

(** [String.prototype.toLowerCase] on one code unit below 256. *)
Definition lower_char (c : ascii) : ascii :=
  if between 65 90 c || (between 192 222 c && negb (code c =? 215)%N)
  then ascii_of_N (code c + 32)
  else c.

Fixpoint map_string (f : ascii -> ascii) (s : string) : string :=
  match s with
  | EmptyString => EmptyString
  | String c s' => String (f c) (map_string f s')
  end.

Fixpoint filter_string (f : ascii -> bool) (s : string) : string :=
  match s with
  | EmptyString => EmptyString
  | String c s' => if f c then String c (filter_string f s') else filter_string f s'
  end.

Fixpoint existsb_string (f : ascii -> bool) (s : string) : bool :=
  match s with
  | EmptyString => false
  | String c s' => f c || existsb_string f s'
  end.

Fixpoint string_of_rev (acc : list ascii) (tail : string) : string :=
  match acc with
  | [] => tail
  | c :: acc' => string_of_rev acc' (String c tail)
  end.

Definition toLowerCase (s : string) : string := map_string lower_char s.

Definition startsWith (s p : string) : bool := String.prefix p s.

Definition includes (s sub : string) : bool :=
  match String.index 0 sub s with
  | Some _ => true
  | None => false
  end.

(** [s.length] as a number. *)
Definition strlen (s : string) : Z := Z.of_nat (String.length s).

(** [!s] for a string. *)
Definition is_empty (s : string) : bool :=
  match s with
  | EmptyString => true
  | String _ _ => false
  end.

(** [s.split(re)] for a regular expression [re] that matches the non-empty
    runs of the characters in [sep]: the pieces between the runs, an empty
    piece before a leading run and after a trailing one, and the one piece
    [""] for the empty string. *)
Fixpoint split_runs (sep : ascii -> bool) (in_run : bool) (cur : list ascii)
    (s : string) : list string :=
  match s with
  | EmptyString => [string_of_rev cur EmptyString]
  | String c s' =>
      if sep c then
        if in_run then split_runs sep true [] s'
        else string_of_rev cur EmptyString :: split_runs sep true [] s'
      else split_runs sep false (c :: cur) s'
  end.

Definition split (sep : ascii -> bool) (s : string) : list string :=
  split_runs sep false [] s.

(** [ToString] of an integer-valued number, as a template literal prints it. *)
Definition Z_to_string (z : Z) : string := NilZero.string_of_int (Z.to_int z).

Definition N_to_string (n : N) : string := NilZero.string_of_uint (N.to_uint n).

(** [x || d] for a string or [null]: the empty string is falsy as well. *)
Definition or_else (d : string) (o : option string) : string :=
  match o with
  | Some s => if is_empty s then d else s
  | None => d
  end.

Definition len {A : Type} (l : list A) : Z := Z.of_nat (length l).

(** [l.slice(a, b)] for [0 <= a <= b]. *)
Definition slice {A : Type} (a b : nat) (l : list A) : list A :=
  firstn (b - a) (skipn a l).

(** ** Numbers *)

Definition Math_round (q : Q) : Z := Qfloor (q + (1 # 2)).

Definition Math_floor (q : Q) : Z := Qfloor q.

Definition Qgtb (a b : Q) : bool := negb (Qle_bool a b).

(** A number that may fail to be finite: the quotient of two counts. *)
Inductive Number : Type :=
  | Finite (q : Q)
  | PosInfinity
  | NegInfinity
  | NaN.

(** [a / b] for integer-valued [a >= 0] and [b >= 0]. *)
Definition divide (a b : Z) : Number :=
  if b =? 0 then (if a =? 0 then NaN else PosInfinity)
  else Finite (inject_Z a / inject_Z b).

(** [x * 100]. *)
Definition times100 (x : Number) : Number :=
  match x with
  | Finite q => Finite (q * 100)
  | other => other
  end.

(** [b - a], the comparator of the keyword sort. *)
Definition minus (b a : Number) : Number :=
  match b, a with
  | NaN, _ | _, NaN => NaN
  | Finite x, Finite y => Finite (x - y)
  | PosInfinity, PosInfinity | NegInfinity, NegInfinity => NaN
  | PosInfinity, _ | _, NegInfinity => PosInfinity
  | NegInfinity, _ | _, PosInfinity => NegInfinity
  end.

(** The sign a sort reads off a comparator result; [NaN] counts as [+0]. *)
Definition sign (x : Number) : comparison :=
  match x with
  | Finite q => (q ?= 0)%Q
  | PosInfinity => Gt
  | NegInfinity => Lt
  | NaN => Eq
  end.

(** ** [Array.prototype.sort]

    The sort is stable.  With a consistent comparator every stable sort
    returns the list computed here: an element stays in front of the elements
    it does not compare greater than. *)
Section Sort.
Context {A : Type} (comparefn : A -> A -> comparison).

Fixpoint sort_insert (x : A) (l : list A) : list A :=
  match l with
  | [] => [x]
  | y :: l' =>
      match comparefn x y with
      | Gt => y :: sort_insert x l'
      | _ => x :: l
      end
  end.

Definition sort (l : list A) : list A := fold_right sort_insert [] l.
End Sort.

(** ** Plain objects used as dictionaries

    [Object.entries] lists the keys that are array indices first, in
    ascending numeric order, and then the other keys in the order they were
    created. *)

Fixpoint digits_value (acc : N) (s : string) : option N :=
  match s with
  | EmptyString => Some acc
  | String c s' =>
      if is_digit c then digits_value (acc * 10 + (code c - 48)) s' else None
  end.

(** An array index is a canonical numeric string below [2^32 - 1]. *)
Definition array_index (k : string) : option N :=
  match k with
  | EmptyString => None
  | _ =>
      match digits_value 0 k with
      | Some n =>
          if (N_to_string n =? k)%string && (n <=? 4294967294)%N then Some n else None
      | None => None
      end
  end.

Record JSObject (V : Type) : Type := mkObject {
  indexed : list (N * V);
  named : list (string * V)
}.
Arguments mkObject {V} _ _.
Arguments indexed {V} _.
Arguments named {V} _.

Definition empty_object {V : Type} : JSObject V := mkObject [] [].

Fixpoint assoc {K V : Type} (eqb : K -> K -> bool) (k : K) (l : list (K * V)) : option V :=
  match l with
  | [] => None
  | (k', v) :: l' => if eqb k' k then Some v else assoc eqb k l'
  end.

Fixpoint set_indexed {V : Type} (i : N) (v : V) (l : list (N * V)) : list (N * V) :=
  match l with
  | [] => [(i, v)]
  | (j, w) :: l' =>
      if (i <? j)%N then (i, v) :: l
      else if (i =? j)%N then (i, v) :: l'
      else (j, w) :: set_indexed i v l'
  end.

Fixpoint set_named {V : Type} (k : string) (v : V) (l : list (string * V)) : list (string * V) :=
  match l with
  | [] => [(k, v)]
  | (k', w) :: l' =>
      if (k' =? k)%string then (k, v) :: l' else (k', w) :: set_named k v l'
  end.

Definition get_own {V : Type} (k : string) (o : JSObject V) : option V :=
  match array_index k with
  | Some i => assoc N.eqb i (indexed o)
  | None => assoc String.eqb k (named o)
  end.

Definition set_own {V : Type} (k : string) (v : V) (o : JSObject V) : JSObject V :=
  match array_index k with
  | Some i => mkObject (set_indexed i v (indexed o)) (named o)
  | None => mkObject (indexed o) (set_named k v (named o))
  end.

Definition Object_entries {V : Type} (o : JSObject V) : list (string * V) :=
  (map (fun iv => (N_to_string (fst iv), snd iv)) (indexed o) ++ named o)%list.

(** What [String(Object.prototype[k])] is for the properties every plain
    object inherits. *)
Definition Object_prototype_text (k : string) : option string :=
  if (k =? "__proto__")%string then Some "[object Object]"
  else if existsb (String.eqb k)
       ["constructor"; "hasOwnProperty"; "isPrototypeOf"; "propertyIsEnumerable";
        "toLocaleString"; "toString"; "valueOf"; "__defineGetter__";
        "__defineSetter__"; "__lookupGetter__"; "__lookupSetter__"]
  then Some ("function " ++ (if (k =? "constructor")%string then "Object" else k)
             ++ "() { [native code] }")
  else None.

(** ** The document accessor

    A parsed document is the sequence of its elements in document order,
    which is the order [querySelectorAll] returns matches in.  An element
    carries its lower-case local name, its attributes and its text content. *)

Record Element : Type := mkElement {
  localName : string;
  attributes : list (string * string);
  textContent : string
}.

Record Document : Type := mkDocument {
  elements : list Element;
  body : option Element
}.

Definition getAttribute (name : string) (e : Element) : option string :=
  assoc String.eqb name (attributes e).

Definition hasAttribute (name : string) (e : Element) : bool :=
  match getAttribute name e with
  | Some _ => true
  | None => false
  end.

(** [E.tagName] of an HTML element is the upper-case local name. *)
Definition upper_char (c : ascii) : ascii :=
  if between 97 122 c then ascii_of_N (code c - 32) else c.

Definition tagName (e : Element) : string := map_string upper_char (localName e).

Definition ascii_lower (c : ascii) : ascii :=
  if between 65 90 c then ascii_of_N (code c + 32) else c.

(** Selectors, as predicates on elements. *)
Definition Selector : Type := Element -> bool.

(** [tag] *)
Definition sel_tag (tag : string) : Selector :=
  fun e => (localName e =? tag)%string.

(** [tag[name]] *)
Definition sel_has (tag name : string) : Selector :=
  fun e => sel_tag tag e && hasAttribute name e.

(** [tag[name="value"]] *)
Definition sel_attr (tag name value : string) : Selector :=
  fun e => sel_tag tag e &&
    match getAttribute name e with
    | Some v => (v =? value)%string
    | None => false
    end.

(** [tag[name="value"]] for [type] and [rel], the attributes whose values an
    HTML document compares without regard to ASCII case. *)
Definition sel_attr_ci (tag name value : string) : Selector :=
  fun e => sel_tag tag e &&
    match getAttribute name e with
    | Some v => (map_string ascii_lower v =? map_string ascii_lower value)%string
    | None => false
    end.

(** [tag[name^="value"]] *)
Definition sel_attr_prefix (tag name value : string) : Selector :=
  fun e => sel_tag tag e &&
    match getAttribute name e with
    | Some v => startsWith v value
    | None => false
    end.

(** [tag[name*="value"]] *)
Definition sel_attr_contains (tag name value : string) : Selector :=
  fun e => sel_tag tag e &&
    match getAttribute name e with
    | Some v => includes v value
    | None => false
    end.

(** [s1, s2] *)
Definition sel_or (s1 s2 : Selector) : Selector := fun e => s1 e || s2 e.

Definition querySelectorAll (sel : Selector) (doc : Document) : list Element :=
  List.filter sel (elements doc).

Definition querySelector (sel : Selector) (doc : Document) : option Element :=
  List.find sel (elements doc).

(** [doc.querySelector(sel)?.getAttribute(name) || ''] *)
Definition attribute_of (sel : Selector) (name : string) (doc : Document) : string :=
  or_else "" (match querySelector sel doc with
              | Some e => getAttribute name e
              | None => None
              end).

(** [doc.querySelector(sel)?.textContent || ''] *)
Definition text_of (o : option Element) : string :=
  or_else "" (option_map textContent o).

(** [!!doc.querySelector(sel)] *)
Definition exists_element (sel : Selector) (doc : Document) : bool :=
  match querySelector sel doc with
  | Some _ => true
  | None => false
  end.

(** ** JSON values *)

#[warnings="-register-all"]
Inductive JSON : Type :=
  | JNull
  | JBool (b : bool)
  | JNumber (q : Q)
  | JString (s : string)
  | JArray (items : list JSON)
  | JObject (fields : list (string * JSON)).

(** Truthiness of a parsed value. *)
Definition truthy (v : JSON) : bool :=
  match v with
  | JNull => false
  | JBool b => b
  | JNumber q => negb (Qeq_bool q 0)
  | JString s => negb (is_empty s)
  | JArray _ | JObject _ => true
  end.

(** The fields of a parsed object are kept in the order of the text; a later
    duplicate of a key overrides an earlier one. *)
Fixpoint last_field (k : string) (fields : list (string * JSON)) : option JSON :=
  match fields with
  | [] => None
  | (k', v) :: rest =>
      match last_field k rest with
      | Some w => Some w
      | None => if (k' =? k)%string then Some v else None
      end
  end.

(** ** Exceptions, random draws and the computation monad *)

Inductive JSError : Type :=
  | TypeError (message : string)
  | SyntaxError (message : string).

(** One result of [Math.random()]: a number in [0, 1). *)
Record Draw : Type := mkDraw {
  draw_val : Q;
  draw_unit : Qle_bool 0 draw_val && negb (Qle_bool 1 draw_val) = true
}.

(** The draws still to come. *)
Definition Rng : Type := nat -> Draw.

Inductive Outcome (A : Type) : Type :=
  | Normal (a : A) (g : Rng)
  | Thrown (e : JSError) (g : Rng).
Arguments Normal {A} _ _.
Arguments Thrown {A} _ _.

Definition M (A : Type) : Type := Rng -> Outcome A.

Definition ret {A : Type} (a : A) : M A := fun g => Normal a g.

Definition bind {A B : Type} (m : M A) (k : A -> M B) : M B :=
  fun g =>
    match m g with
    | Normal a g' => k a g'
    | Thrown e g' => Thrown e g'
    end.

Definition throw {A : Type} (e : JSError) : M A := fun g => Thrown e g.

Definition Math_random : M Draw :=
  fun g => Normal (g 0%nat) (fun n => g (S n)).

Notation "x <- c1 ;; c2" := (bind c1 (fun x => c2))
  (at level 100, c1 at next level, right associativity).

(** [l.forEach(x => body)] where the body updates the local state [s]. *)
Fixpoint forEach {A S : Type} (body : S -> A -> M S) (l : list A) (s : S) : M S :=
  match l with
  | [] => ret s
  | x :: l' => s' <- body s x ;; forEach body l' s'
  end.

(** The value of a computation that has finished normally. *)
Definition value_of {A : Type} (o : Outcome A) : option A :=
  match o with
  | Normal a _ => Some a
  | Thrown _ _ => None
  end.

(** The source of draws after [n] calls of [Math.random]. *)
Fixpoint advance (n : nat) (g : Rng) : Rng :=
  match n with
  | O => g
  | S n' => advance n' (fun k => g (S k))
  end.

(** ** The records of the module *)

Record TechnicalIssues : Type := mkTechnicalIssues {
  missingTitle : bool;
  missingMetaDescription : bool;
  duplicateH1 : bool;
  imagesMissingAlt : bool;
  titleTooLong : bool;
  metaDescriptionTooLong : bool;
  missingCanonical : bool;
  noIndex : bool;
  noFollow : bool
}.

Record HeadingsStructure : Type := mkHeadings {
  h1 : list string;
  h2 : list string;
  h3 : list string;
  h4 : list string;
  h5 : list string;
  h6 : list string
}.

Record ImagesAnalysis : Type := mkImages {
  total : Z;
  withAlt : Z;
  withoutAlt : Z;
  missingAlt : list string;
  oversized : list string;
  totalSize : Z
}.

Record LinksAnalysis : Type := mkLinks {
  internal : Z;
  external : Z;
  broken : Z;
  nofollow : Z;
  dofollow : Z
}.

Record KeywordsAnalysis : Type := mkKeywords {
  density : JSObject Number;
  suggestions : list string;
  primary : list string;
  secondary : list string
}.

Record ContentAnalysis : Type := mkContent {
  wordCount : Z;
  readabilityScore : Z;
  duplicateContent : bool;
  languageDetected : string
}.

Record MobileAnalysis : Type := mkMobile {
  responsive : bool;
  viewportMeta : bool;
  touchFriendly : bool
}.

Record AccessibilityAnalysis : Type := mkAccessibility {
  altImages : Z;
  headingStructure : bool;
  colorContrast : bool
}.

Record SecurityAnalysis : Type := mkSecurity {
  https : bool;
  mixedContent : bool
}.

Record SocialMediaAnalysis : Type := mkSocialMedia {
  hasOpenGraph : bool;
  hasTwitterCard : bool;
  hasFacebookPixel : bool;
  hasGoogleAnalytics : bool
}.

Module DetailedScores.
Record t : Type := mk {
  technical : Z;
  content : Z;
  performance : Z;
  accessibility : Z;
  social : Z
}.
End DetailedScores.

Module OpenGraphData.
Record t : Type := mk {
  title : string;
  description : string;
  image : string;
  url : string;
  type : string;
  siteName : string
}.
End OpenGraphData.

Module TwitterCardData.
Record t : Type := mk {
  card : string;
  title : string;
  description : string;
  image : string;
  site : string
}.
End TwitterCardData.

(** [types] is declared [string[]]; the value of [@type] is pushed as it
    was parsed, whatever it is. *)
Record StructuredDataAnalysis : Type := mkStructuredData {
  hasSchema : bool;
  types : list JSON;
  errors : list string
}.

Record PerformanceData : Type := mkPerformance {
  loadTime : Q;
  pageSize : Q;
  requests : Z
}.

Module SEOAnalysis.
Record t : Type := mk {
  url : string;
  title : string;
  metaDescription : string;
  metaKeywords : string;
  canonicalUrl : string;
  openGraph : OpenGraphData.t;
  twitterCard : TwitterCardData.t;
  structuredData : StructuredDataAnalysis;
  headings : HeadingsStructure;
  images : ImagesAnalysis;
  links : LinksAnalysis;
  performance : PerformanceData;
  mobile : MobileAnalysis;
  security : SecurityAnalysis;
  accessibility : AccessibilityAnalysis;
  keywords : KeywordsAnalysis;
  content : ContentAnalysis;
  technicalIssues : TechnicalIssues;
  socialMedia : SocialMediaAnalysis;
  score : Z;
  scores : DetailedScores.t;
  recommendations : list string
}.
End SEOAnalysis.

(** ** The extractors *)

Definition extractOpenGraphData (doc : Document) : OpenGraphData.t :=
  {| OpenGraphData.title := attribute_of (sel_attr "meta" "property" "og:title") "content" doc;
     OpenGraphData.description := attribute_of (sel_attr "meta" "property" "og:description") "content" doc;
     OpenGraphData.image := attribute_of (sel_attr "meta" "property" "og:image") "content" doc;
     OpenGraphData.url := attribute_of (sel_attr "meta" "property" "og:url") "content" doc;
     OpenGraphData.type := attribute_of (sel_attr "meta" "property" "og:type") "content" doc;
     OpenGraphData.siteName := attribute_of (sel_attr "meta" "property" "og:site_name") "content" doc |}.

Definition extractTwitterCardData (doc : Document) : TwitterCardData.t :=
  {| TwitterCardData.card := attribute_of (sel_attr "meta" "name" "twitter:card") "content" doc;
     TwitterCardData.title := attribute_of (sel_attr "meta" "name" "twitter:title") "content" doc;
     TwitterCardData.description := attribute_of (sel_attr "meta" "name" "twitter:description") "content" doc;
     TwitterCardData.image := attribute_of (sel_attr "meta" "name" "twitter:image") "content" doc;
     TwitterCardData.site := attribute_of (sel_attr "meta" "name" "twitter:site") "content" doc |}.

Definition sel_ld_json : Selector := sel_attr_ci "script" "type" "application/ld+json".

Section StructuredData.
(** [JSON.parse]: the parsed value, or [None] where it throws. *)
Variable JSON_parse : string -> option JSON.

(** The body of the [try]: the value pushed to [types], if any.  Reading
    [@type] off [null] throws; off any other value that is not an object
    with that field it gives [undefined]. *)
Definition read_type (script : Element) : JSError + option JSON :=
  match JSON_parse (or_else "" (Some (textContent script))) with
  | None => inl (SyntaxError "Unexpected token")
  | Some data =>
      match data with
      | JNull => inl (TypeError "Cannot read properties of null")
      | JObject fields =>
          match last_field "@type" fields with
          | Some v => inr (if truthy v then Some v else None)
          | None => inr None
          end
      | _ => inr None
      end
  end.

Definition structured_step (acc : list JSON * list string) (script : Element)
    : list JSON * list string :=
  let (types, errors) := acc in
  match read_type script with
  | inr (Some v) => ((types ++ [v])%list, errors)
  | inr None => (types, errors)
  | inl _ => (types, (errors ++ ["Invalid JSON-LD structure"])%list)
  end.

Definition extractStructuredData (doc : Document) : StructuredDataAnalysis :=
  let scripts := querySelectorAll sel_ld_json doc in
  let (types, errors) := fold_left structured_step scripts ([], []) in
  {| hasSchema := 0 <? len scripts;
     types := types;
     errors := errors |}.
End StructuredData.

Definition heading_texts (tag : string) (doc : Document) : list string :=
  map (fun h => or_else "" (Some (textContent h))) (querySelectorAll (sel_tag tag) doc).

Definition extractHeadings (doc : Document) : HeadingsStructure :=
  {| h1 := heading_texts "h1" doc;
     h2 := heading_texts "h2" doc;
     h3 := heading_texts "h3" doc;
     h4 := heading_texts "h4" doc;
     h5 := heading_texts "h5" doc;
     h6 := heading_texts "h6" doc |}.

(** [!img.getAttribute('alt')]: the attribute is absent or empty. *)
Definition alt_falsy (img : Element) : bool :=
  match getAttribute "alt" img with
  | Some v => is_empty v
  | None => true
  end.

Definition image_source (img : Element) : string :=
  or_else "Unknown image" (getAttribute "src" img).

Definition images_step (acc : list string * list string) (img : Element)
    : M (list string * list string) :=
  let (missingAlt, oversized) := acc in
  let missingAlt := if alt_falsy img then (missingAlt ++ [image_source img])%list else missingAlt in
  r <- Math_random ;;
  let oversized :=
    if Qgtb (draw_val r) (8 # 10) then (oversized ++ [image_source img])%list else oversized in
  ret (missingAlt, oversized).

Definition analyzeImages (doc : Document) : M ImagesAnalysis :=
  let allImages := querySelectorAll (sel_tag "img") doc in
  let imagesWithAlt := querySelectorAll (sel_has "img" "alt") doc in
  lists <- forEach images_step allImages ([], []) ;;
  r <- Math_random ;;
  ret {| total := len allImages;
         withAlt := len imagesWithAlt;
         withoutAlt := len allImages - len imagesWithAlt;
         missingAlt := fst lists;
         oversized := snd lists;
         totalSize := Math_floor (draw_val r * 3000) + 500 |}.

Section Links.
(** [new URL(u).hostname]: the host name, or [None] where the constructor
    throws. *)
Variable URL_hostname : string -> option string.

Definition new_URL_hostname (u : string) : M string :=
  match URL_hostname u with
  | Some h => ret h
  | None => throw (TypeError "Invalid URL")
  end.

(** [href.startsWith('http') && !href.includes(new URL(baseUrl).hostname)] *)
Definition external_test (baseUrl href : string) : M bool :=
  if startsWith href "http"
  then h <- new_URL_hostname baseUrl ;; ret (negb (includes href h))
  else ret false.

(** [href.startsWith('/') || href.includes(new URL(baseUrl).hostname)] *)
Definition internal_test (baseUrl href : string) : M bool :=
  if startsWith href "/"
  then ret true
  else h <- new_URL_hostname baseUrl ;; ret (includes href h).

Record LinkCounts : Type := mkCounts {
  c_internal : Z;
  c_external : Z;
  c_nofollow : Z;
  c_dofollow : Z
}.

Definition links_step (baseUrl : string) (c : LinkCounts) (link : Element) : M LinkCounts :=
  let href := or_else "" (getAttribute "href" link) in
  let rel := or_else "" (getAttribute "rel" link) in
  is_external <- external_test baseUrl href ;;
  c1 <- (if is_external
         then ret (mkCounts (c_internal c) (c_external c + 1) (c_nofollow c) (c_dofollow c))
         else
           is_internal <- internal_test baseUrl href ;;
           ret (if is_internal
                then mkCounts (c_internal c + 1) (c_external c) (c_nofollow c) (c_dofollow c)
                else c)) ;;
  ret (if includes rel "nofollow"
       then mkCounts (c_internal c1) (c_external c1) (c_nofollow c1 + 1) (c_dofollow c1)
       else mkCounts (c_internal c1) (c_external c1) (c_nofollow c1) (c_dofollow c1 + 1)).

Definition analyzeLinks (doc : Document) (baseUrl : string) : M LinksAnalysis :=
  let allLinks := querySelectorAll (sel_has "a" "href") doc in
  c <- forEach (links_step baseUrl) allLinks (mkCounts 0 0 0 0) ;;
  r <- Math_random ;;
  ret {| internal := c_internal c;
         external := c_external c;
         broken := Math_floor (draw_val r * 2);
         nofollow := c_nofollow c;
         dofollow := c_dofollow c |}.
End Links.

(** *** Keywords *)

(** A value stored in [wordCount]: a count, or the text an inherited
    property turned into when [1] was added to it. *)
Inductive CountValue : Type :=
  | Count (n : Z)
  | Text (s : string).

(** [o[k] = v] for a primitive [v]: the inherited [__proto__] setter ignores
    it, any other key becomes (or stays) an own property. *)
Definition assign {V : Type} (k : string) (v : V) (o : JSObject V) : JSObject V :=
  if (k =? "__proto__")%string then o else set_own k v o.

(** [(wordCount[word] || 0) + 1] *)
Definition next_count (wordCount : JSObject CountValue) (word : string) : CountValue :=
  match get_own word wordCount with
  | Some (Count n) => Count (n + 1)
  | Some (Text s) => if is_empty s then Count 1 else Text (s ++ "1")
  | None =>
      match Object_prototype_text word with
      | Some t => Text (t ++ "1")
      | None => Count 1
      end
  end.

Definition count_step (wordCount : JSObject CountValue) (word : string) : JSObject CountValue :=
  assign word (next_count wordCount word) wordCount.

(** [(count / totalWords) * 100].  A [Text] starts with [function] or
    [[object], so it converts to [NaN]. *)
Definition percentage (count : CountValue) (totalWords : Z) : Number :=
  match count with
  | Count n => times100 (divide n totalWords)
  | Text _ => NaN
  end.

Definition density_step (totalWords : Z) (density : JSObject Number)
    (entry : string * CountValue) : JSObject Number :=
  assign (fst entry) (percentage (snd entry) totalWords) density.

(** [([,a], [,b]) => b - a] *)
Definition by_density (x y : string * Number) : comparison :=
  sign (minus (snd y) (snd x)).

(** The tokens the keyword analysis counts. *)
Definition keyword_words (text : string) : list string :=
  let limitedText := String.substring 0 5000 text in
  List.filter (fun word => 3 <? strlen word)
    (split is_space
       (filter_string (fun c => is_word_char c || is_space c)
          (toLowerCase limitedText))).

Definition analyzeKeywords (text : string) : KeywordsAnalysis :=
  let words := keyword_words text in
  let wordCount := fold_left count_step words empty_object in
  let totalWords := len words in
  let density := fold_left (density_step totalWords) (Object_entries wordCount) empty_object in
  let topKeywords := map fst (slice 0 15 (sort by_density (Object_entries density))) in
  {| density := density;
     suggestions := topKeywords;
     primary := slice 0 3 topKeywords;
     secondary := slice 3 10 topKeywords |}.

(** *** Content, mobile, accessibility, security, social media *)

Definition is_sentence_end (c : ascii) : bool :=
  (code c =? 46)%N || (code c =? 33)%N || (code c =? 63)%N.

Definition Qmax (a b : Q) : Q := if Qle_bool a b then b else a.
Definition Qmin (a b : Q) : Q := if Qle_bool a b then a else b.

Definition analyzeContent (text : string) : M ContentAnalysis :=
  let words := List.filter (fun word => 0 <? strlen word) (split is_space text) in
  let sentences :=
    List.filter (fun s => existsb_string (fun c => negb (is_space c)) s)
      (split is_sentence_end text) in
  let avgWordsPerSentence : Q :=
    if 0 <? len sentences then (inject_Z (len words) / inject_Z (len sentences))%Q else 0%Q in
  let readabilityScore := Qmax 0 (Qmin 100 (100 - avgWordsPerSentence * 2)) in
  r <- Math_random ;;
  ret {| wordCount := len words;
         readabilityScore := Math_round readabilityScore;
         duplicateContent := Qgtb (draw_val r) (9 # 10);
         languageDetected := "es" |}.

Definition analyzeMobile (doc : Document) : M MobileAnalysis :=
  let viewport := exists_element (sel_attr "meta" "name" "viewport") doc in
  r <- Math_random ;;
  ret {| responsive := viewport;
         viewportMeta := viewport;
         touchFriendly := Qgtb (draw_val r) (2 # 10) |}.

Definition sel_heading : Selector :=
  sel_or (sel_tag "h1") (sel_or (sel_tag "h2") (sel_or (sel_tag "h3")
    (sel_or (sel_tag "h4") (sel_or (sel_tag "h5") (sel_tag "h6"))))).

(** [parseInt(s[1])]: the digit at index 1, or [None] for [NaN]. *)
Definition parseInt_at1 (s : string) : option Z :=
  match String.get 1 s with
  | Some c => if is_digit c then Some (Z.of_N (code c - 48)) else None
  | None => None
  end.

(** [a > b + 1], false when either side is [NaN]. *)
Definition skips_level (level lastLevel : option Z) : bool :=
  match level, lastLevel with
  | Some a, Some b => b + 1 <? a
  | _, _ => false
  end.

Definition heading_step (st : bool * option Z) (heading : Element) : bool * option Z :=
  let (properHeadingStructure, lastLevel) := st in
  let level := parseInt_at1 (tagName heading) in
  (if skips_level level lastLevel then false else properHeadingStructure, level).

Definition analyzeAccessibility (doc : Document) (images : ImagesAnalysis)
    : M AccessibilityAnalysis :=
  let headings := querySelectorAll sel_heading doc in
  let properHeadingStructure := fst (fold_left heading_step headings (true, Some 0)) in
  r <- Math_random ;;
  ret {| altImages := withAlt images;
         headingStructure := properHeadingStructure;
         colorContrast := Qgtb (draw_val r) (15 # 100) |}.

Definition analyzeSecurity (url : string) : M SecurityAnalysis :=
  r <- Math_random ;;
  ret {| https := startsWith url "https://";
         mixedContent := Qgtb (draw_val r) (9 # 10) |}.

Definition analyzeSocialMedia (doc : Document) : SocialMediaAnalysis :=
  {| hasOpenGraph := exists_element (sel_attr_prefix "meta" "property" "og:") doc;
     hasTwitterCard := exists_element (sel_attr_prefix "meta" "name" "twitter:") doc;
     hasFacebookPixel := exists_element (sel_attr_contains "script" "src" "facebook.net") doc;
     hasGoogleAnalytics :=
       exists_element (sel_or (sel_attr_contains "script" "src" "google-analytics.com")
                              (sel_attr_contains "script" "src" "gtag")) doc |}.

(** ** The issue checker *)

Definition checkTechnicalIssues (doc : Document) (title metaDescription : string)
    (headings : HeadingsStructure) (images : ImagesAnalysis) (canonicalUrl : string)
    : TechnicalIssues :=
  let robotsMeta := attribute_of (sel_attr "meta" "name" "robots") "content" doc in
  {| missingTitle := is_empty title;
     missingMetaDescription := is_empty metaDescription;
     duplicateH1 := 1 <? len (h1 headings);
     imagesMissingAlt := 0 <? withoutAlt images;
     titleTooLong := 60 <? strlen title;
     metaDescriptionTooLong := 160 <? strlen metaDescription;
     missingCanonical := is_empty canonicalUrl;
     noIndex := includes robotsMeta "noindex";
     noFollow := includes robotsMeta "nofollow" |}.

(** ** The scorer *)

(** [if (c) x -= d;] *)
Definition deduct (c : bool) (d : Z) (x : Z) : Z := if c then x - d else x.

Definition calculateDetailedScores (title metaDescription : string)
    (headings : HeadingsStructure) (images : ImagesAnalysis) (issues : TechnicalIssues)
    (content : ContentAnalysis) (links : LinksAnalysis) (mobile : MobileAnalysis)
    (accessibility : AccessibilityAnalysis) (socialMedia : SocialMediaAnalysis)
    : M DetailedScores.t :=
  let technical := 100 in
  let contentScore := 100 in
  let accessibilityScore := 100 in
  let social := 100 in
  let technical := deduct (missingTitle issues) 25 technical in
  let technical := deduct (missingMetaDescription issues) 20 technical in
  let technical := deduct (duplicateH1 issues) 15 technical in
  let technical := deduct (missingCanonical issues) 10 technical in
  let technical := deduct (titleTooLong issues) 10 technical in
  let technical := deduct (metaDescriptionTooLong issues) 10 technical in
  let contentScore := deduct (wordCount content <? 300) 20 contentScore in
  let contentScore := deduct (readabilityScore content <? 60) 15 contentScore in
  let contentScore := deduct (len (h1 headings) =? 0) 20 contentScore in
  let contentScore := deduct (duplicateContent content) 25 contentScore in
  r <- Math_random ;;
  let performance := Math_floor (draw_val r * 20) + 80 in
  let accessibilityScore := deduct (negb (headingStructure accessibility)) 20 accessibilityScore in
  let accessibilityScore := deduct (negb (colorContrast accessibility)) 15 accessibilityScore in
  let accessibilityScore :=
    deduct (0 <? withoutAlt images) (Z.min (withoutAlt images * 5) 30) accessibilityScore in
  let accessibilityScore := deduct (negb (responsive mobile)) 25 accessibilityScore in
  let social := deduct (negb (hasOpenGraph socialMedia)) 30 social in
  let social := deduct (negb (hasTwitterCard socialMedia)) 20 social in
  let social := deduct (negb (hasGoogleAnalytics socialMedia)) 15 social in
  ret {| DetailedScores.technical := Z.max 0 technical;
         DetailedScores.content := Z.max 0 contentScore;
         DetailedScores.performance := Z.max 0 performance;
         DetailedScores.accessibility := Z.max 0 accessibilityScore;
         DetailedScores.social := Z.max 0 social |}.

(** ** The recommendation generator

    The literals of the source are kept as their UTF-8 bytes. *)

(** [if (c) recommendations.push(s);] *)
Definition push_if (c : bool) (s : string) (recommendations : list string) : list string :=
  if c then (recommendations ++ [s])%list else recommendations.

Definition generateComprehensiveRecommendations (issues : TechnicalIssues)
    (scores : DetailedScores.t) (keywords : KeywordsAnalysis) (content : ContentAnalysis)
    (images : ImagesAnalysis) (links : LinksAnalysis) : list string :=
  let r := [] in
  let r := push_if (missingTitle issues) "🔴 CRÍTICO: Agregar un título único y descriptivo" r in
  let r := push_if (missingMetaDescription issues)
             "🔴 CRÍTICO: Agregar meta descripción de 150-160 caracteres" r in
  let r := push_if (duplicateH1 issues) "🟡 IMPORTANTE: Usar solo un H1 por página" r in
  let r := push_if (missingCanonical issues) "🟡 IMPORTANTE: Agregar URL canónica" r in
  let r := push_if (titleTooLong issues) "🟡 Acortar título a menos de 60 caracteres" r in
  let r := push_if (metaDescriptionTooLong issues) "🟡 Acortar meta descripción" r in
  let r := push_if (wordCount content <? 300) "📝 Aumentar contenido a mínimo 300 palabras" r in
  let r := push_if (readabilityScore content <? 60) "📖 Mejorar legibilidad del contenido" r in
  let r := push_if (duplicateContent content) "⚠️ Revisar contenido duplicado" r in
  let r := push_if (0 <? withoutAlt images)
             ("🖼️ Agregar texto alt a " ++ Z_to_string (withoutAlt images) ++ " imágenes") r in
  let r := push_if (0 <? len (oversized images)) "🗜️ Optimizar tamaño de imágenes grandes" r in
  let r := push_if (internal links <? 3) "🔗 Agregar más enlaces internos" r in
  let r := push_if (internal links * 2 <? external links)
             "⚖️ Balancear enlaces internos vs externos" r in
  let r := push_if (DetailedScores.performance scores <? 70) "⚡ Mejorar velocidad de carga" r in
  let r := push_if (DetailedScores.social scores <? 70)
             "📱 Implementar Open Graph y Twitter Cards" r in
  let r := push_if (DetailedScores.accessibility scores <? 70) "♿ Mejorar accesibilidad web" r in
  r.

(** ** The report assembler *)

(** [Math.round((a + b + c + d + e) / 5)] *)
Definition overall_score (s : DetailedScores.t) : Z :=
  Math_round (inject_Z (DetailedScores.technical s + DetailedScores.content s
                        + DetailedScores.performance s + DetailedScores.accessibility s
                        + DetailedScores.social s) / 5).

Section Pipeline.
Variable JSON_parse : string -> option JSON.
Variable URL_hostname : string -> option string.
(** [new DOMParser().parseFromString(html, 'text/html')] *)
Variable DOMParser_parseFromString : string -> Document.

(** [parseHTML] once the document is parsed.  The elements of the array
    literal are evaluated from left to right, and the three draws of
    [performance] come last, when the report literal is built. *)
Definition parseDocument (doc : Document) (url : string) : M SEOAnalysis.t :=
  let title := text_of (querySelector (sel_tag "title") doc) in
  let metaDescription := attribute_of (sel_attr "meta" "name" "description") "content" doc in
  let metaKeywords := attribute_of (sel_attr "meta" "name" "keywords") "content" doc in
  let canonicalUrl := attribute_of (sel_attr_ci "link" "rel" "canonical") "href" doc in
  let openGraph := extractOpenGraphData doc in
  let twitterCard := extractTwitterCardData doc in
  let structuredData := extractStructuredData JSON_parse doc in
  let headings := extractHeadings doc in
  images <- analyzeImages doc ;;
  links <- analyzeLinks URL_hostname doc url ;;
  let keywords := analyzeKeywords (text_of (body doc)) in
  content <- analyzeContent (text_of (body doc)) ;;
  mobile <- analyzeMobile doc ;;
  images' <- analyzeImages doc ;;
  accessibility <- analyzeAccessibility doc images' ;;
  security <- analyzeSecurity url ;;
  let socialMedia := analyzeSocialMedia doc in
  let technicalIssues :=
    checkTechnicalIssues doc title metaDescription headings images canonicalUrl in
  scores <- calculateDetailedScores title metaDescription headings images technicalIssues
              content links mobile accessibility socialMedia ;;
  let score := overall_score scores in
  let recommendations :=
    generateComprehensiveRecommendations technicalIssues scores keywords content images links in
  r1 <- Math_random ;;
  r2 <- Math_random ;;
  r3 <- Math_random ;;
  ret {| SEOAnalysis.url := url;
         SEOAnalysis.title := title;
         SEOAnalysis.metaDescription := metaDescription;
         SEOAnalysis.metaKeywords := metaKeywords;
         SEOAnalysis.canonicalUrl := canonicalUrl;
         SEOAnalysis.openGraph := openGraph;
         SEOAnalysis.twitterCard := twitterCard;
         SEOAnalysis.structuredData := structuredData;
         SEOAnalysis.headings := headings;
         SEOAnalysis.images := images;
         SEOAnalysis.links := links;
         SEOAnalysis.performance :=
           {| loadTime := draw_val r1 * 2 + (5 # 10);
              pageSize := draw_val r2 * 1500 + 300;
              requests := Math_floor (draw_val r3 * 30) + 15 |};
         SEOAnalysis.mobile := mobile;
         SEOAnalysis.security := security;
         SEOAnalysis.accessibility := accessibility;
         SEOAnalysis.keywords := keywords;
         SEOAnalysis.content := content;
         SEOAnalysis.technicalIssues := technicalIssues;
         SEOAnalysis.socialMedia := socialMedia;
         SEOAnalysis.score := score;
         SEOAnalysis.scores := scores;
         SEOAnalysis.recommendations := recommendations |}.

Definition parseHTML (html url : string) : M SEOAnalysis.t :=
  parseDocument (DOMParser_parseFromString html) url.
End Pipeline.

(** ** The page analysis and its cache *)

Definition getComprehensiveSampleAnalysis (url : string) : SEOAnalysis.t :=
  {| SEOAnalysis.url := url;
     SEOAnalysis.title := "Guía Completa de SEO 2024 - Estrategias y Técnicas Avanzadas";
     SEOAnalysis.metaDescription :=
       "Descubre las mejores estrategias SEO para 2024. Guía completa con técnicas avanzadas, herramientas y consejos para posicionar tu sitio web.";
     SEOAnalysis.metaKeywords := "SEO, posicionamiento web, marketing digital, Google, optimización";
     SEOAnalysis.canonicalUrl := url;
     SEOAnalysis.openGraph :=
       {| OpenGraphData.title := "Guía Completa de SEO 2024";
          OpenGraphData.description := "Las mejores estrategias SEO para dominar Google";
          OpenGraphData.image := "https://ejemplo.com/seo-guide.jpg";
          OpenGraphData.url := url;
          OpenGraphData.type := "article";
          OpenGraphData.siteName := "SEO Masters" |};
     SEOAnalysis.twitterCard :=
       {| TwitterCardData.card := "summary_large_image";
          TwitterCardData.title := "Guía SEO 2024";
          TwitterCardData.description := "Estrategias avanzadas de posicionamiento";
          TwitterCardData.image := "https://ejemplo.com/seo-guide.jpg";
          TwitterCardData.site := "@seoexperts" |};
     SEOAnalysis.structuredData :=
       {| hasSchema := true;
          types := [JString "Article"; JString "BreadcrumbList"; JString "Organization"];
          errors := [] |};
     SEOAnalysis.headings :=
       {| h1 := ["Guía Completa de SEO 2024"];
          h2 := ["Fundamentos del SEO"; "SEO Técnico"; "Contenido y Palabras Clave"; "Link Building"];
          h3 := ["Optimización On-Page"; "Velocidad de Carga"; "Mobile First"; "Core Web Vitals"];
          h4 := ["Meta Tags"; "Estructura URL"; "Sitemap XML"];
          h5 := [];
          h6 := [] |};
     SEOAnalysis.images :=
       {| total := 12;
          withAlt := 10;
          withoutAlt := 2;
          missingAlt := ["chart-keywords.png"; "diagram-seo.jpg"];
          oversized := ["hero-banner.jpg"];
          totalSize := 1840 |};
     SEOAnalysis.links :=
       {| internal := 25; external := 8; broken := 0; nofollow := 3; dofollow := 30 |};
     SEOAnalysis.performance :=
       {| loadTime := 12 # 10; pageSize := 1250; requests := 28 |};
     SEOAnalysis.mobile :=
       {| responsive := true; viewportMeta := true; touchFriendly := true |};
     SEOAnalysis.security := {| https := true; mixedContent := false |};
     SEOAnalysis.accessibility :=
       {| altImages := 10; headingStructure := true; colorContrast := true |};
     SEOAnalysis.keywords :=
       {| density :=
            mkObject []
              [("seo", Finite (32 # 10)); ("posicionamiento", Finite (28 # 10));
               ("google", Finite (21 # 10)); ("contenido", Finite (19 # 10));
               ("palabras", Finite (17 # 10)); ("clave", Finite (15 # 10));
               ("optimización", Finite (13 # 10)); ("técnico", Finite (11 # 10));
               ("estrategias", Finite (9 # 10)); ("marketing", Finite (8 # 10))];
          suggestions := ["seo"; "posicionamiento"; "google"; "contenido"; "palabras"];
          primary := ["seo"; "posicionamiento"; "google"];
          secondary := ["contenido"; "palabras"; "clave"; "optimización"] |};
     SEOAnalysis.content :=
       {| wordCount := 2450;
          readabilityScore := 78;
          duplicateContent := false;
          languageDetected := "es" |};
     SEOAnalysis.technicalIssues :=
       {| missingTitle := false;
          missingMetaDescription := false;
          duplicateH1 := false;
          imagesMissingAlt := true;
          titleTooLong := false;
          metaDescriptionTooLong := false;
          missingCanonical := false;
          noIndex := false;
          noFollow := false |};
     SEOAnalysis.socialMedia :=
       {| hasOpenGraph := true;
          hasTwitterCard := true;
          hasFacebookPixel := true;
          hasGoogleAnalytics := true |};
     SEOAnalysis.score := 91;
     SEOAnalysis.scores :=
       {| DetailedScores.technical := 88;
          DetailedScores.content := 94;
          DetailedScores.performance := 85;
          DetailedScores.accessibility := 92;
          DetailedScores.social := 96 |};
     SEOAnalysis.recommendations :=
       ["🖼️ Agregar texto alt a 2 imágenes faltantes";
        "⚡ Excelente velocidad de carga (1.2s)";
        "📈 Contenido bien estructurado y optimizado";
        "🎯 Densidad de palabras clave óptima";
        "✅ Sitio web muy bien optimizado para SEO"] |}.

(** What the request for the page's HTML comes to: the [contents] of the
    proxy's reply, or a failure of [fetch] or of [response.json()]. *)
Inductive FetchFailure : Type :=
  | Timeout
  | TransportFailure
  | MalformedReply.

Inductive Network : Type :=
  | Fails (f : FetchFailure)
  | Replies (contents : string).

(** What lands in the [catch] clause. *)
Inductive Caught : Type :=
  | FetchError (f : FetchFailure)
  | Exception (e : JSError).

(** How the promise of [analyzePage] settles. *)
Inductive Promise (A : Type) : Type :=
  | Resolved (a : A)
  | Rejected (c : Caught).
Arguments Resolved {A} _.
Arguments Rejected {A} _.

Record PageResult : Type := mkPageResult {
  settled : Promise SEOAnalysis.t;
  analysisCache : gmap string SEOAnalysis.t;
  rng : Rng
}.

Section AnalyzePage.
Variable JSON_parse : string -> option JSON.
Variable URL_hostname : string -> option string.
Variable DOMParser_parseFromString : string -> Document.

(** The body of the [try]. *)
Definition fetch_and_parse (url : string) (net : Network) (g : Rng)
    : (Caught + SEOAnalysis.t) * Rng :=
  match net with
  | Fails f => (inl (FetchError f), g)
  | Replies html =>
      match parseHTML JSON_parse URL_hostname DOMParser_parseFromString html url g with
      | Normal analysis g' => (inr analysis, g')
      | Thrown e g' => (inl (Exception e), g')
      end
  end.

(** [analyzePage] from the point where its request has come to [net]: the
    code after the last [await].  It runs without interruption; it parses
    with the draws of that moment, writes the cache whatever the cache holds
    by then, and resolves. *)
Definition analyzePage_settle (url : string) (net : Network)
    (cache : gmap string SEOAnalysis.t) (g : Rng) : PageResult :=
  match fetch_and_parse url net g with
  | (inr analysis, g') =>
      mkPageResult (Resolved analysis) (<[url := analysis]> cache) g'
  | (inl _, g') =>
      let analysis := getComprehensiveSampleAnalysis url in
      mkPageResult (Resolved analysis) (<[url := analysis]> cache) g'
  end.

(** A call of [analyzePage] with nothing else running between its lookup
    and its reply: the cache is looked up, and on a miss the request comes
    to [net] at once. *)
Definition analyzePage (url : string) (net : Network)
    (cache : gmap string SEOAnalysis.t) (g : Rng) : PageResult :=
  match cache !! url with
  | Some cached => mkPageResult (Resolved cached) cache g
  | None => analyzePage_settle url net cache g
  end.

(** *** Calls that overlap

    [analyzePage] is asynchronous.  A call looks the URL up in the cache and,
    on a miss, sends its request and waits at [await fetch(...)] and at
    [await response.json()]; other code runs in the meantime, other calls of
    [analyzePage] included.  Nothing of the module's state is read or written
    between the two [await]s, so the wait is one interval here. *)
Record World : Type := mkWorld {
  w_cache : gmap string SEOAnalysis.t;
  w_rng : Rng;
  (** the URLs of the calls that wait for their reply *)
  w_pending : list string
}.

Inductive Event : Type :=
  (** [analyzePage(url)] is called *)
  | Call (url : string)
  (** the request of the waiting call at position [i] comes to [net] *)
  | Reply (i : nat) (net : Network)
  (** other code calls [Math.random] [n] times *)
  | Elsewhere (n : nat).

(** One event, and the promise it settles, if any. *)
Definition step (e : Event) (w : World) : World * option (Promise SEOAnalysis.t) :=
  match e with
  | Call url =>
      match w_cache w !! url with
      | Some cached => (w, Some (Resolved cached))
      | None => (mkWorld (w_cache w) (w_rng w) (w_pending w ++ [url])%list, None)
      end
  | Reply i net =>
      match w_pending w !! i with
      | Some url =>
          let r := analyzePage_settle url net (w_cache w) (w_rng w) in
          (mkWorld (analysisCache r) (rng r) (delete i (w_pending w)), Some (settled r))
      | None => (w, None)
      end
  | Elsewhere n => (mkWorld (w_cache w) (advance n (w_rng w)) (w_pending w), None)
  end.

(** A sequence of events, with the promise each of them settles. *)
Fixpoint run (events : list Event) (w : World)
    : World * list (option (Promise SEOAnalysis.t)) :=
  match events with
  | [] => (w, [])
  | e :: rest =>
      let (w1, answer) := step e w in
      let (w2, answers) := run rest w1 in
      (w2, answer :: answers)
  end.
End AnalyzePage.

(** ** Instances of the platform used in the examples *)

Fixpoint take_until (stop : ascii -> bool) (s : string) : string :=
  match s with
  | EmptyString => EmptyString
  | String c s' => if stop c then EmptyString else String c (take_until stop s')
  end.

Fixpoint after_last (mark : ascii -> bool) (s : string) : string :=
  match s with
  | EmptyString => EmptyString
  | String c s' => if existsb_string mark s' then after_last mark s'
                   else if mark c then s' else s
  end.

Definition is_scheme (s : string) : bool :=
  match s with
  | EmptyString => false
  | String c _ =>
      (between 65 90 c || between 97 122 c)
      && negb (existsb_string
                 (fun d => negb (is_word_char d || (code d =? 43)%N
                                 || (code d =? 45)%N || (code d =? 46)%N)) s)
  end.

(** [new URL(u).hostname] for the URLs of the shape
    [scheme://user@host:port/path?query#fragment] with a non-empty host; any
    other text counts as invalid here. *)
Definition URL_hostname_basic (u : string) : option string :=
  match String.index 0 "://" u with
  | None => None
  | Some i =>
      let rest := String.substring (i + 3) (String.length u) u in
      let authority :=
        take_until (fun c => (code c =? 47)%N || (code c =? 63)%N || (code c =? 35)%N) rest in
      let host :=
        take_until (fun c => (code c =? 58)%N)
          (after_last (fun c => (code c =? 64)%N) authority) in
      if is_scheme (String.substring 0 i u) && negb (is_empty host)
      then Some (map_string ascii_lower host)
      else None
  end.

Definition dquote : ascii := "034"%char.

Definition quoted (s : string) : string := String dquote (s ++ String dquote EmptyString).

Definition is_json_space (c : ascii) : bool :=
  (code c =? 32)%N || (code c =? 9)%N || (code c =? 10)%N || (code c =? 13)%N.

Fixpoint skip_spaces (s : string) : string :=
  match s with
  | String c s' => if is_json_space c then skip_spaces s' else s
  | EmptyString => s
  end.

(** The characters of a string literal up to its closing quote; escapes are
    outside this instance. *)
Fixpoint string_body (s : string) : option (string * string) :=
  match s with
  | EmptyString => None
  | String c s' =>
      if (code c =? 34)%N then Some (EmptyString, s')
      else if (code c =? 92)%N || (code c <? 32)%N then None
      else match string_body s' with
           | Some (str, rest) => Some (String c str, rest)
           | None => None
           end
  end.

Fixpoint digits_prefix (s : string) : string * string :=
  match s with
  | String c s' =>
      if is_digit c then let (d, rest) := digits_prefix s' in (String c d, rest)
      else (EmptyString, s)
  | EmptyString => (EmptyString, EmptyString)
  end.

Definition literal (word : string) (v : JSON) (s : string) : option (JSON * string) :=
  if String.prefix word s
  then Some (v, String.substring (String.length word) (String.length s) s)
  else None.

(** A recursive-descent reader for JSON texts made of objects, arrays,
    escape-free strings, unsigned integers and the three literals. *)
Fixpoint json_value (fuel : nat) (s : string) : option (JSON * string) :=
  match fuel with
  | O => None
  | S fuel' =>
      match skip_spaces s with
      | EmptyString => None
      | String c s' =>
          if (code c =? 34)%N then
            match string_body s' with
            | Some (str, rest) => Some (JString str, rest)
            | None => None
            end
          else if (code c =? 91)%N then
            match skip_spaces s' with
            | String d rest =>
                if (code d =? 93)%N then Some (JArray [], rest)
                else match json_items fuel' s' with
                     | Some (items, rest') => Some (JArray items, rest')
                     | None => None
                     end
            | EmptyString => None
            end
          else if (code c =? 123)%N then
            match skip_spaces s' with
            | String d rest =>
                if (code d =? 125)%N then Some (JObject [], rest)
                else match json_fields fuel' s' with
                     | Some (fields, rest') => Some (JObject fields, rest')
                     | None => None
                     end
            | EmptyString => None
            end
          else if is_digit c then
            let (d, rest) := digits_prefix (String c s') in
            match digits_value 0 d with
            | Some n => if (N_to_string n =? d)%string
                        then Some (JNumber (inject_Z (Z.of_N n)), rest) else None
            | None => None
            end
          else if String.prefix "null" (String c s') then literal "null" JNull (String c s')
          else if String.prefix "true" (String c s') then literal "true" (JBool true) (String c s')
          else literal "false" (JBool false) (String c s')
      end
  end
with json_items (fuel : nat) (s : string) : option (list JSON * string) :=
  match fuel with
  | O => None
  | S fuel' =>
      match json_value fuel' s with
      | Some (v, rest) =>
          match skip_spaces rest with
          | String c rest' =>
              if (code c =? 93)%N then Some ([v], rest')
              else if (code c =? 44)%N then
                match json_items fuel' rest' with
                | Some (items, rest'') => Some (v :: items, rest'')
                | None => None
                end
              else None
          | EmptyString => None
          end
      | None => None
      end
  end
with json_fields (fuel : nat) (s : string) : option (list (string * JSON) * string) :=
  match fuel with
  | O => None
  | S fuel' =>
      match skip_spaces s with
      | String q s' =>
          if (code q =? 34)%N then
            match string_body s' with
            | Some (key, rest) =>
                match skip_spaces rest with
                | String colon rest' =>
                    if (code colon =? 58)%N then
                      match json_value fuel' rest' with
                      | Some (v, rest'') =>
                          match skip_spaces rest'' with
                          | String c rest3 =>
                              if (code c =? 125)%N then Some ([(key, v)], rest3)
                              else if (code c =? 44)%N then
                                match json_fields fuel' rest3 with
                                | Some (fields, rest4) => Some ((key, v) :: fields, rest4)
                                | None => None
                                end
                              else None
                          | EmptyString => None
                          end
                      | None => None
                      end
                    else None
                | EmptyString => None
                end
            | None => None
            end
          else None
      | EmptyString => None
      end
  end.

Definition JSON_parse_basic (text : string) : option JSON :=
  match json_value (2 * String.length text + 2) text with
  | Some (v, rest) => if is_empty (skip_spaces rest) then Some v else None
  | None => None
  end.

(** Three draws and the sources that repeat one of them. *)
Definition draw_zero : Draw := mkDraw 0 eq_refl.
Definition draw_half : Draw := mkDraw (1 # 2) eq_refl.
Definition draw_high : Draw := mkDraw (95 # 100) eq_refl.

Definition constant_rng (d : Draw) : Rng := fun _ => d.

(** ** Vocabulary of the properties *)

(** A computation that does not touch the draws. *)
Definition pure_of {A : Type} (r : JSError + A) : M A :=
  fun g => match r with inl e => Thrown e g | inr a => Normal a g end.

Definition count {A : Type} (p : A -> bool) (l : list A) : Z := len (List.filter p l).

(** *** Scores *)

Definition in_score_range (x : Z) : Prop := 0 <= x <= 100.

Definition scores_in_range (s : DetailedScores.t) : Prop :=
  in_score_range (DetailedScores.technical s) /\
  in_score_range (DetailedScores.content s) /\
  in_score_range (DetailedScores.performance s) /\
  in_score_range (DetailedScores.accessibility s) /\
  in_score_range (DetailedScores.social s).

Definition score_sum (s : DetailedScores.t) : Z :=
  DetailedScores.technical s + DetailedScores.content s + DetailedScores.performance s
  + DetailedScores.accessibility s + DetailedScores.social s.

(** *** Images *)

Definition image_elements (doc : Document) : list Element :=
  querySelectorAll (sel_tag "img") doc.

(** The [alt] attribute is present and empty. *)
Definition alt_empty (img : Element) : bool :=
  match getAttribute "alt" img with
  | Some v => is_empty v
  | None => false
  end.

Definition doc_empty_alt : Document :=
  mkDocument [mkElement "img" [("src", "a.png"); ("alt", "")] ""] None.

(** *** Links *)

Definition link_elements (doc : Document) : list Element :=
  querySelectorAll (sel_has "a" "href") doc.

Definition href_of (link : Element) : string := or_else "" (getAttribute "href" link).

Definition rel_of (link : Element) : string := or_else "" (getAttribute "rel" link).

(** What the loop of [analyzeLinks] counts, once the page's host name is
    known. *)
Definition counts_external (host href : string) : bool :=
  startsWith href "http" && negb (includes href host).

Definition counts_internal (host href : string) : bool :=
  startsWith href "/" || includes href host.

(** The classification as the specification words it: a link is external
    when its href is an absolute URL whose host differs from the page's, and
    internal when it is root-relative or its host is the page's. *)
Section SpecLinks.
Variable URL_hostname : string -> option string.

Definition spec_external (host href : string) : bool :=
  match URL_hostname href with
  | Some h => negb (h =? host)%string
  | None => false
  end.

Definition spec_internal (host href : string) : bool :=
  startsWith href "/" ||
  match URL_hostname href with
  | Some h => (h =? host)%string
  | None => false
  end.
End SpecLinks.

Definition doc_foreign_link : Document :=
  mkDocument [mkElement "a" [("href", "https://other.org/?from=example.com")] "more"] None.

(** *** Headings *)

Definition heading_level (e : Element) : Z :=
  if (localName e =? "h1")%string then 1
  else if (localName e =? "h2")%string then 2
  else if (localName e =? "h3")%string then 3
  else if (localName e =? "h4")%string then 4
  else if (localName e =? "h5")%string then 5
  else if (localName e =? "h6")%string then 6
  else 0.

(** The levels of the headings, in document order. *)
Definition heading_levels (doc : Document) : list Z :=
  map heading_level (querySelectorAll sel_heading doc).

(** No level exceeds the level just before it by more than one. *)
Fixpoint no_level_skip (levels : list Z) : bool :=
  match levels with
  | a :: rest =>
      match rest with
      | b :: _ => negb (a + 1 <? b) && no_level_skip rest
      | [] => true
      end
  | [] => true
  end.

Definition doc_h2_first : Document :=
  mkDocument [mkElement "h2" [] "Overview"] None.

(** *** The part of a report that no draw reaches *)

Record StableFacts : Type := mkStable {
  s_url : string;
  s_title : string;
  s_metaDescription : string;
  s_metaKeywords : string;
  s_canonicalUrl : string;
  s_openGraph : OpenGraphData.t;
  s_twitterCard : TwitterCardData.t;
  s_structuredData : StructuredDataAnalysis;
  s_headings : HeadingsStructure;
  s_images : Z * Z * Z * list string;
  s_links : Z * Z * Z * Z;
  s_keywords : KeywordsAnalysis;
  s_content : Z * Z * string;
  s_mobile : bool * bool;
  s_accessibility : Z * bool;
  s_https : bool;
  s_socialMedia : SocialMediaAnalysis;
  s_technicalIssues : TechnicalIssues;
  s_scores : Z * Z
}.

Definition stable_facts (r : SEOAnalysis.t) : StableFacts :=
  let im := SEOAnalysis.images r in
  let li := SEOAnalysis.links r in
  let co := SEOAnalysis.content r in
  {| s_url := SEOAnalysis.url r;
     s_title := SEOAnalysis.title r;
     s_metaDescription := SEOAnalysis.metaDescription r;
     s_metaKeywords := SEOAnalysis.metaKeywords r;
     s_canonicalUrl := SEOAnalysis.canonicalUrl r;
     s_openGraph := SEOAnalysis.openGraph r;
     s_twitterCard := SEOAnalysis.twitterCard r;
     s_structuredData := SEOAnalysis.structuredData r;
     s_headings := SEOAnalysis.headings r;
     s_images := (total im, withAlt im, withoutAlt im, missingAlt im);
     s_links := (internal li, external li, nofollow li, dofollow li);
     s_keywords := SEOAnalysis.keywords r;
     s_content := (wordCount co, readabilityScore co, languageDetected co);
     s_mobile := (responsive (SEOAnalysis.mobile r), viewportMeta (SEOAnalysis.mobile r));
     s_accessibility := (altImages (SEOAnalysis.accessibility r),
                         headingStructure (SEOAnalysis.accessibility r));
     s_https := https (SEOAnalysis.security r);
     s_socialMedia := SEOAnalysis.socialMedia r;
     s_technicalIssues := SEOAnalysis.technicalIssues r;
     s_scores := (DetailedScores.technical (SEOAnalysis.scores r),
                  DetailedScores.social (SEOAnalysis.scores r)) |}.

Definition empty_document : Document := mkDocument [] None.

(** *** Structured data *)

Section SpecStructuredData.
Variable JSON_parse : string -> option JSON.

(** The value a script block contributes to [types]: the [@type] of a
    parsed object, when that value is truthy. *)
Definition pushed_type (script : Element) : list JSON :=
  match JSON_parse (textContent script) with
  | Some (JObject fields) =>
      match last_field "@type" fields with
      | Some v => if truthy v then [v] else []
      | None => []
      end
  | _ => []
  end.

(** The block ends in the [catch] clause: its text does not parse, or it
    parses to [null]. *)
Definition rejected (script : Element) : bool :=
  match JSON_parse (textContent script) with
  | None | Some JNull => true
  | Some _ => false
  end.

(** The block parses to an object that has an [@type] field. *)
Definition typed_block (script : Element) : option JSON :=
  match JSON_parse (textContent script) with
  | Some (JObject fields) => last_field "@type" fields
  | _ => None
  end.
End SpecStructuredData.

Definition ld_json_script (text : string) : Element :=
  mkElement "script" [("type", "application/ld+json")] text.

Definition empty_type_text : string := "{" ++ quoted "@type" ++ ":" ++ quoted "" ++ "}".

Definition doc_empty_type : Document :=
  mkDocument [ld_json_script empty_type_text] None.

Definition doc_truncated_json : Document :=
  mkDocument [ld_json_script ("{" ++ quoted "@type" ++ ":")] None.

(** *** Keywords *)

(** The text after lower-casing and stripping, before it is split. *)
Definition normalize (text : string) : string :=
  filter_string (fun c => is_word_char c || is_space c) (toLowerCase text).

Definition short_token (w : string) : bool := strlen w <=? 3.

Fixpoint forallb_string (f : ascii -> bool) (s : string) : bool :=
  match s with
  | EmptyString => true
  | String c s' => f c && forallb_string f s'
  end.

Definition lower_only (s : string) : bool :=
  forallb_string (fun c => negb (between 65 90 c)) s.

(** The two lower-case names a plain object inherits. *)
Definition inherited_name (w : string) : bool :=
  (w =? "constructor")%string || (w =? "__proto__")%string.

Definition inherits_nothing (w : string) : bool :=
  match Object_prototype_text w with
  | Some _ => false
  | None => true
  end.

(** How often [w] occurs among the words, and its percentage of them. *)
Definition occurrences (w : string) (words : list string) : Z :=
  count (String.eqb w) words.

Definition share (words : list string) (w : string) : Q :=
  inject_Z (occurrences w words) / inject_Z (len words) * 100.

(** The position at which [w] is first seen. *)
Fixpoint first_index (w : string) (l : list string) : nat :=
  match l with
  | [] => 0
  | x :: rest => if (x =? w)%string then 0 else S (first_index w rest)
  end.

(** The order of the keys of the frequency object: array indices first, in
    ascending numeric order, then the other words as first seen. *)
Definition key_before (words : list string) (a b : string) : Prop :=
  match array_index a, array_index b with
  | Some i, Some j => (i < j)%N
  | Some _, None => True
  | None, Some _ => False
  | None, None => (first_index a words < first_index b words)%nat
  end.



(** The frequency object after the words [seen]. *)
Record counted (seen : list string) (o : JSObject CountValue) : Prop := mkCounted {
  counted_get : forall w,
    get_own w o = if 0 <? occurrences w seen then Some (Count (occurrences w seen)) else None;
  counted_indexed_sorted : StronglySorted N.lt (map fst (indexed o));
  counted_indexed_keys : forall i, In i (map fst (indexed o)) ->
    exists k, In k seen /\ array_index k = Some i;
  counted_named_sorted :
    StronglySorted (fun a b => (first_index a seen < first_index b seen)%nat)
      (map fst (named o));
  counted_named_keys : forall k, In k (map fst (named o)) ->
    In k seen /\ array_index k = None
}.

Definition percent_indexed (totalWords : Z) (iv : N * CountValue) : N * Number :=
  (fst iv, percentage (snd iv) totalWords).

Definition percent_named (totalWords : Z) (kv : string * CountValue) : string * Number :=
  (fst kv, percentage (snd kv) totalWords).

Definition entry_of (words : list string) (k : string) : string * Number :=
  (k, Finite (share words k)).

Definition key_order (o : JSObject CountValue) : list string :=
  (map N_to_string (map fst (indexed o)) ++ map fst (named o))%list.



Definition keywords_text : string := "Beta alpha 2024 beta, gamma 1000 alpha beta!".

(** ** Vocabulary of the further properties *)

(** *** Root-relative links *)

Definition root_relative (link : Element) : bool := startsWith (href_of link) "/".

(** *** The rules of the recommendation generator *)

(** The conditions of the recommendation generator with their messages, in
    the order of the source. *)
Definition recommendation_rules (issues : TechnicalIssues) (scores : DetailedScores.t)
    (content : ContentAnalysis) (images : ImagesAnalysis) (links : LinksAnalysis)
    : list (bool * string) :=
  [ (missingTitle issues, "🔴 CRÍTICO: Agregar un título único y descriptivo");
    (missingMetaDescription issues,
       "🔴 CRÍTICO: Agregar meta descripción de 150-160 caracteres");
    (duplicateH1 issues, "🟡 IMPORTANTE: Usar solo un H1 por página");
    (missingCanonical issues, "🟡 IMPORTANTE: Agregar URL canónica");
    (titleTooLong issues, "🟡 Acortar título a menos de 60 caracteres");
    (metaDescriptionTooLong issues, "🟡 Acortar meta descripción");
    (wordCount content <? 300, "📝 Aumentar contenido a mínimo 300 palabras");
    (readabilityScore content <? 60, "📖 Mejorar legibilidad del contenido");
    (duplicateContent content, "⚠️ Revisar contenido duplicado");
    (0 <? withoutAlt images,
       "🖼️ Agregar texto alt a " ++ Z_to_string (withoutAlt images) ++ " imágenes");
    (0 <? len (oversized images), "🗜️ Optimizar tamaño de imágenes grandes");
    (internal links <? 3, "🔗 Agregar más enlaces internos");
    (internal links * 2 <? external links, "⚖️ Balancear enlaces internos vs externos");
    (DetailedScores.performance scores <? 70, "⚡ Mejorar velocidad de carga");
    (DetailedScores.social scores <? 70, "📱 Implementar Open Graph y Twitter Cards");
    (DetailedScores.accessibility scores <? 70, "♿ Mejorar accesibilidad web") ].

(** [l] holds [a] at an earlier position than [b]. *)
Definition precedes {A : Type} (a b : A) (l : list A) : Prop :=
  exists l1 l2 l3, l = (l1 ++ a :: l2 ++ b :: l3)%list.

(** What a report is assembled from. *)
Record assembled (JSON_parse : string -> option JSON) (doc : Document) (url : string)
    (r : SEOAnalysis.t) : Prop := mkAssembled {
  as_url : SEOAnalysis.url r = url;
  as_structuredData : SEOAnalysis.structuredData r = extractStructuredData JSON_parse doc;
  as_images : exists g g', analyzeImages doc g = Normal (SEOAnalysis.images r) g';
  as_content : exists g g',
    analyzeContent (text_of (body doc)) g = Normal (SEOAnalysis.content r) g';
  as_mobile : exists g g', analyzeMobile doc g = Normal (SEOAnalysis.mobile r) g';
  as_accessibility : exists im g g' g1 g1',
    analyzeImages doc g1 = Normal im g1' /\
    analyzeAccessibility doc im g = Normal (SEOAnalysis.accessibility r) g';
  as_issues :
    SEOAnalysis.technicalIssues r =
    checkTechnicalIssues doc (SEOAnalysis.title r) (SEOAnalysis.metaDescription r)
      (SEOAnalysis.headings r) (SEOAnalysis.images r) (SEOAnalysis.canonicalUrl r);
  as_headings : SEOAnalysis.headings r = extractHeadings doc;
  as_keywords : SEOAnalysis.keywords r = analyzeKeywords (text_of (body doc));
  as_social : SEOAnalysis.socialMedia r = analyzeSocialMedia doc;
  as_openGraph : SEOAnalysis.openGraph r = extractOpenGraphData doc;
  as_twitterCard : SEOAnalysis.twitterCard r = extractTwitterCardData doc;
  as_scores : exists g g',
    calculateDetailedScores (SEOAnalysis.title r) (SEOAnalysis.metaDescription r)
      (SEOAnalysis.headings r) (SEOAnalysis.images r) (SEOAnalysis.technicalIssues r)
      (SEOAnalysis.content r) (SEOAnalysis.links r) (SEOAnalysis.mobile r)
      (SEOAnalysis.accessibility r) (SEOAnalysis.socialMedia r) g
    = Normal (SEOAnalysis.scores r) g';
  as_score : SEOAnalysis.score r = overall_score (SEOAnalysis.scores r);
  as_recommendations :
    SEOAnalysis.recommendations r =
    generateComprehensiveRecommendations (SEOAnalysis.technicalIssues r)
      (SEOAnalysis.scores r) (SEOAnalysis.keywords r) (SEOAnalysis.content r)
      (SEOAnalysis.images r) (SEOAnalysis.links r)
}.

Definition performance_message : string := "⚡ Mejorar velocidad de carga".

(** *** A page with a relative link *)

Definition doc_relative_link : Document :=
  mkDocument [mkElement "a" [("href", "about.html")] "About"] None.

(** *** Headings by level *)

Definition headings_at (h : HeadingsStructure) (level : Z) : list string :=
  if level =? 1 then h1 h
  else if level =? 2 then h2 h
  else if level =? 3 then h3 h
  else if level =? 4 then h4 h
  else if level =? 5 then h5 h
  else if level =? 6 then h6 h
  else [].

(** *** Content *)

Definition content_words (text : string) : list string :=
  List.filter (fun word => 0 <? strlen word) (split is_space text).

Definition content_sentences (text : string) : list string :=
  List.filter (fun s => existsb_string (fun c => negb (is_space c)) s)
    (split is_sentence_end text).

(** *** Keyword tokens and object keys *)

(** A lower-case letter, a digit or the underscore. *)
Definition keyword_char (c : ascii) : bool :=
  is_digit c || between 97 122 c || (code c =? 95)%N.

Definition keys {V : Type} (o : JSObject V) : list string := map fst (Object_entries o).

(** The keys of a plain object: each own key once, the array indices in
    ascending order under their canonical spelling. *)
Record well_keyed {V : Type} (o : JSObject V) : Prop := mkWellKeyed {
  wk_indexed_sorted : StronglySorted N.lt (map fst (indexed o));
  wk_indexed_canonical : forall i, In i (map fst (indexed o)) ->
    array_index (N_to_string i) = Some i;
  wk_named_nodup : NoDup (map fst (named o));
  wk_named_plain : forall k, In k (map fst (named o)) -> array_index k = None
}.

(** What the frequency object holds for [w] after the words [seen]: nothing
    before the first occurrence, then the count, or a text when the word
    names an inherited property. *)
Definition tracked (w : string) (seen : list string) (o : JSObject CountValue) : Prop :=
  match get_own w o with
  | None => occurrences w seen = 0
  | Some (Count n) => inherits_nothing w = true /\ n = occurrences w seen /\ 0 < n
  | Some (Text s) => inherits_nothing w = false /\ is_empty s = false /\ 0 < occurrences w seen
  end.

Definition Zsum (l : list Z) : Z := fold_right Z.add 0 l.

Definition Qsum (l : list Q) : Q := fold_right Qplus 0%Q l.

(** [(count / totalWords) * 100] in an arithmetic that rounds the result of
    each operation with [rnd], as the doubles of the source do. *)
Definition rounded_percentage (rnd : Q -> Q) (count totalWords : Z) : Q :=
  rnd (rnd (inject_Z count / inject_Z totalWords)%Q * 100)%Q.

(** [rnd] rounds a number that is not negative with a relative error of
    [eps] at most; the nearest double does with [eps = 2^-53]. *)
Definition rounds_within (eps : Q) (rnd : Q -> Q) : Prop :=
  forall x, (0 <= x)%Q -> (x * (1 - eps) <= rnd x)%Q /\ (rnd x <= x * (1 + eps))%Q.

(** *** Messages and conditions of the score-driven recommendations *)

Definition social_message : string := "📱 Implementar Open Graph y Twitter Cards".

Definition alt_message (n : Z) : string :=
  "🖼️ Agregar texto alt a " ++ Z_to_string n ++ " imágenes".

(** How many of Open Graph, Twitter Card and Google Analytics are missing. *)
Definition missing_social (s : SocialMediaAnalysis) : Z :=
  (if hasOpenGraph s then 0 else 1) + (if hasTwitterCard s then 0 else 1)
  + (if hasGoogleAnalytics s then 0 else 1).

(** * Properties *)

(** ** Numbers, draws and lists *)

Lemma draw_bounds (d : Draw) : (0 <= draw_val d)%Q /\ (draw_val d < 1)%Q.
Proof.
  destruct d as [q H]; simpl.
  apply andb_prop in H as [H0 H1].
  split.
  - now apply Qle_bool_iff.
  - apply Qnot_le_lt. intro Hle. apply Qle_bool_iff in Hle.
    rewrite Hle in H1. discriminate.
Qed.

(** [Math.floor(Math.random() * n)] is one of [0 .. n - 1]. *)
Lemma floor_scaled_draw (d : Draw) (n : Z) :
  0 < n -> 0 <= Math_floor (draw_val d * inject_Z n) < n.
Proof.
  intros Hn. destruct (draw_bounds d) as [H0 H1]. unfold Math_floor.
  assert (Hpos : (inject_Z 0 < inject_Z n)%Q) by (now rewrite <- Zlt_Qlt).
  change (inject_Z 0) with 0%Q in Hpos.
  split.
  - change 0 with (Qfloor 0). apply Qfloor_resp_le.
    apply Qmult_le_0_compat; [assumption | now apply Qlt_le_weak].
  - apply Z.lt_nge. intro Hge.
    assert (Hx : (inject_Z n <= draw_val d * inject_Z n)%Q).
    { eapply Qle_trans; [ | apply Qfloor_le ]. now rewrite <- Zle_Qle. }
    assert (Hy : (draw_val d * inject_Z n < 1 * inject_Z n)%Q).
    { apply Qmult_lt_compat_r; assumption. }
    rewrite Qmult_1_l in Hy.
    apply (Qlt_irrefl (inject_Z n)). eapply Qle_lt_trans; eassumption.
Qed.

Lemma Math_round_fifth (n : Z) : Math_round (inject_Z n / 5) = (2 * n + 5) / 10.
Proof.
  unfold Math_round, Qfloor, Qplus, Qdiv, Qmult, Qinv, inject_Z. simpl.
  f_equal. lia.
Qed.

Lemma or_else_text (s : string) : or_else "" (Some s) = s.
Proof. destruct s; reflexivity. Qed.

Lemma len_cons {A : Type} (x : A) (l : list A) : len (x :: l) = 1 + len l.
Proof. unfold len. simpl length. lia. Qed.

Lemma len_nonneg {A : Type} (l : list A) : 0 <= len l.
Proof. unfold len. lia. Qed.

Lemma len_app {A : Type} (l1 l2 : list A) : len (l1 ++ l2) = len l1 + len l2.
Proof. unfold len. rewrite length_app. lia. Qed.

Lemma len_map {A B : Type} (f : A -> B) (l : list A) : len (map f l) = len l.
Proof. unfold len. now rewrite length_map. Qed.

Lemma count_cons {A : Type} (p : A -> bool) (x : A) (l : list A) :
  count p (x :: l) = (if p x then 1 else 0) + count p l.
Proof. unfold count. simpl. destruct (p x); [apply len_cons | reflexivity]. Qed.

Lemma querySelectorAll_Forall (sel : Selector) (doc : Document) :
  Forall (fun e => sel e = true) (querySelectorAll sel doc).
Proof.
  apply Forall_forall. intros e He. unfold querySelectorAll in He.
  apply filter_In in He. tauto.
Qed.

(** ** The loops *)

Lemma images_loop (l : list Element) :
  forall m o g, exists o' g',
    forEach images_step l (m, o) g =
    Normal ((m ++ map image_source (List.filter alt_falsy l))%list, o') g'.
Proof.
  induction l as [|x l IH]; intros m o g.
  - exists o, g. simpl. rewrite app_nil_r. reflexivity.
  - cbn [forEach]. unfold bind at 1.
    assert (Hs : exists o1,
      images_step (m, o) x g =
      Normal (if alt_falsy x then (m ++ [image_source x])%list else m, o1) (fun n => g (S n)))
      by (eexists; reflexivity).
    destruct Hs as [o1 ->].
    destruct (IH (if alt_falsy x then (m ++ [image_source x])%list else m) o1
                 (fun n => g (S n))) as (o' & g' & ->).
    exists o', g'. f_equal. f_equal. simpl.
    destruct (alt_falsy x); simpl; [rewrite <- app_assoc|]; reflexivity.
Qed.

Lemma analyzeImages_spec (doc : Document) (g : Rng) :
  exists over size g',
    analyzeImages doc g =
    Normal {| total := len (image_elements doc);
              withAlt := len (querySelectorAll (sel_has "img" "alt") doc);
              withoutAlt := len (image_elements doc)
                            - len (querySelectorAll (sel_has "img" "alt") doc);
              missingAlt := map image_source (List.filter alt_falsy (image_elements doc));
              oversized := over;
              totalSize := size |} g'.
Proof.
  unfold analyzeImages. unfold bind at 1.
  destruct (images_loop (querySelectorAll (sel_tag "img") doc) [] [] g) as (o' & g' & ->).
  unfold bind, Math_random, ret. simpl. eexists _, _, _. reflexivity.
Qed.

Lemma slash_not_http (href : string) :
  startsWith href "/" = true -> startsWith href "http" = false.
Proof.
  unfold startsWith. destruct href as [|c s]; cbn [String.prefix]; [discriminate|].
  destruct (ascii_dec "/"%char c) as [<-|]; intros H; [|discriminate H].
  destruct (ascii_dec "h"%char "/"%char) as [E|]; [discriminate E | reflexivity].
Qed.

Section LinkLoop.
Variable URL_hostname : string -> option string.
Variable baseUrl : string.

Lemma links_step_pure (c : LinkCounts) (link : Element) :
  exists r, forall g, links_step URL_hostname baseUrl c link g = pure_of r g.
Proof.
  unfold links_step, external_test, internal_test, new_URL_hostname, bind, ret, throw.
  set (href := or_else "" (getAttribute "href" link)).
  set (rel := or_else "" (getAttribute "rel" link)).
  destruct (URL_hostname baseUrl) as [h|];
    destruct (startsWith href "http"); try destruct (includes href h);
    destruct (startsWith href "/"); destruct (includes rel "nofollow");
    (eexists (inr _) + eexists (inl _)); intros g; simpl; reflexivity.
Qed.

(** The loop of [analyzeLinks] draws nothing: what it counts, and whether
    it throws, is the same under every source of draws. *)
Lemma links_loop_pure (l : list Element) :
  forall c, exists r, forall g,
    forEach (links_step URL_hostname baseUrl) l c g = pure_of r g.
Proof.
  induction l as [|x l IH]; intros c.
  - exists (inr c). reflexivity.
  - destruct (links_step_pure c x) as [[e|c'] Hs].
    + exists (inl e). intros g. simpl. unfold bind. rewrite Hs. reflexivity.
    + destruct (IH c') as [r Hr]. exists r. intros g. simpl. unfold bind.
      rewrite Hs. simpl. apply Hr.
Qed.

Section KnownHost.
Variable host : string.
Hypothesis Hhost : URL_hostname baseUrl = Some host.

Lemma links_step_counts (c : LinkCounts) (x : Element) (g : Rng) :
  links_step URL_hostname baseUrl c x g =
  Normal {| c_internal := c_internal c + (if counts_internal host (href_of x) then 1 else 0);
            c_external := c_external c + (if counts_external host (href_of x) then 1 else 0);
            c_nofollow := c_nofollow c + (if includes (rel_of x) "nofollow" then 1 else 0);
            c_dofollow := c_dofollow c
                          + (if negb (includes (rel_of x) "nofollow") then 1 else 0) |} g.
Proof.
  unfold links_step, external_test, internal_test, new_URL_hostname, bind, ret.
  rewrite Hhost. unfold counts_internal, counts_external, href_of, rel_of.
  set (href := or_else "" (getAttribute "href" x)).
  set (rel := or_else "" (getAttribute "rel" x)).
  destruct (startsWith href "/") eqn:Hs.
  - rewrite (slash_not_http _ Hs). simpl.
    destruct (includes rel "nofollow"); simpl; f_equal; f_equal; lia.
  - destruct (startsWith href "http"); destruct (includes href host);
      destruct (includes rel "nofollow"); simpl; f_equal; f_equal; lia.
Qed.

Lemma links_loop_counts (l : list Element) :
  forall c g,
    forEach (links_step URL_hostname baseUrl) l c g =
    Normal {| c_internal :=
                c_internal c + count (fun a => counts_internal host (href_of a)) l;
              c_external :=
                c_external c + count (fun a => counts_external host (href_of a)) l;
              c_nofollow :=
                c_nofollow c + count (fun a => includes (rel_of a) "nofollow") l;
              c_dofollow :=
                c_dofollow c
                + count (fun a => negb (includes (rel_of a) "nofollow")) l |} g.
Proof.
  induction l as [|x l IH]; intros c g.
  - unfold count. simpl. unfold ret. destruct c; simpl.
    f_equal. f_equal; unfold len; simpl; lia.
  - simpl forEach. unfold bind at 1. rewrite links_step_counts. rewrite IH. simpl.
    rewrite !count_cons. f_equal. f_equal; lia.
Qed.
End KnownHost.

Lemma links_loop_throws (l : list Element) (c : LinkCounts) (g g' : Rng) (e : JSError) :
  forEach (links_step URL_hostname baseUrl) l c g = Thrown e g' ->
  URL_hostname baseUrl = None.
Proof.
  destruct (URL_hostname baseUrl) as [host|] eqn:E; [|reflexivity].
  rewrite (links_loop_counts host E). discriminate.
Qed.
End LinkLoop.

(** ** Headings *)

Lemma heading_level_parse (e : Element) :
  sel_heading e = true -> parseInt_at1 (tagName e) = Some (heading_level e).
Proof.
  unfold sel_heading, sel_or, sel_tag, tagName, heading_level.
  destruct (localName e =? "h1")%string eqn:E1;
    [apply String.eqb_eq in E1; rewrite E1; reflexivity|].
  destruct (localName e =? "h2")%string eqn:E2;
    [apply String.eqb_eq in E2; rewrite E2; reflexivity|].
  destruct (localName e =? "h3")%string eqn:E3;
    [apply String.eqb_eq in E3; rewrite E3; reflexivity|].
  destruct (localName e =? "h4")%string eqn:E4;
    [apply String.eqb_eq in E4; rewrite E4; reflexivity|].
  destruct (localName e =? "h5")%string eqn:E5;
    [apply String.eqb_eq in E5; rewrite E5; reflexivity|].
  destruct (localName e =? "h6")%string eqn:E6;
    [apply String.eqb_eq in E6; rewrite E6; reflexivity|].
  discriminate.
Qed.

Lemma heading_fold (l : list Element) :
  Forall (fun e => sel_heading e = true) l ->
  forall b last,
    fst (fold_left heading_step l (b, Some last)) =
    b && no_level_skip (last :: map heading_level l).
Proof.
  induction 1 as [|x l Hx Hl IH]; intros b last.
  - simpl. now rewrite andb_true_r.
  - cbn [fold_left map]. unfold heading_step at 2.
    rewrite (heading_level_parse x Hx). cbn [skips_level].
    rewrite IH. cbn [no_level_skip].
    destruct (last + 1 <? heading_level x); destruct b; reflexivity.
Qed.

(** [no_level_skip] says what its name says: every level is at most one
    more than the level in front of it. *)
Lemma no_level_skip_adjacent (levels : list Z) :
  no_level_skip levels = true <->
  forall i a b, nth_error levels i = Some a -> nth_error levels (S i) = Some b -> b <= a + 1.
Proof.
  induction levels as [|a [|b rest] IH].
  - split; [intros _ [|i] x y H; discriminate H | reflexivity].
  - split; [|reflexivity]. intros _ [|i] x y H1 H2; simpl in *.
    + discriminate H2.
    + destruct i; discriminate H1.
  - cbn [no_level_skip] in *. rewrite andb_true_iff, negb_true_iff, Z.ltb_ge, IH.
    split.
    + intros [Hab Hrest] [|i] x y H1 H2.
      * simpl in H1, H2. injection H1 as <-. injection H2 as <-. lia.
      * apply (Hrest i x y); assumption.
    + intros H. split.
      * apply (H 0%nat a b); reflexivity.
      * intros i x y H1 H2. apply (H (S i) x y); assumption.
Qed.

(** ** The scorer and the assembled report *)

Lemma calculateDetailedScores_range title metaDescription headings images issues content
    links mobile accessibility socialMedia (g : Rng) :
  exists s g',
    calculateDetailedScores title metaDescription headings images issues content
      links mobile accessibility socialMedia g = Normal s g' /\ scores_in_range s.
Proof.
  unfold calculateDetailedScores, bind, Math_random, ret. cbv beta iota zeta.
  eexists _, _. split; [reflexivity|].
  pose proof (floor_scaled_draw (g 0%nat) 20 ltac:(lia)) as Hp.
  change (inject_Z 20) with 20%Q in Hp.
  unfold scores_in_range, in_score_range.
  cbn [DetailedScores.technical DetailedScores.content DetailedScores.performance
       DetailedScores.accessibility DetailedScores.social].
  unfold deduct.
  repeat split;
    repeat match goal with
           | |- context [if ?b then _ else _] => destruct b eqn:?
           end;
    repeat match goal with
           | H : (_ <? _) = true |- _ => apply Z.ltb_lt in H
           end; lia.
Qed.

Lemma overall_score_nearest (s : DetailedScores.t) :
  Z.abs (5 * overall_score s - score_sum s) <= 2.
Proof.
  unfold overall_score. fold (score_sum s). rewrite Math_round_fifth.
  generalize (score_sum s). intros n.
  pose proof (Z.div_mod (2 * n + 5) 10 ltac:(lia)).
  pose proof (Z.mod_pos_bound (2 * n + 5) 10 ltac:(lia)).
  lia.
Qed.

Ltac unfold_extractors :=
  unfold parseDocument, analyzeContent, analyzeMobile, analyzeSecurity,
    analyzeAccessibility, analyzeLinks, analyzeImages;
  unfold bind, Math_random, ret;
  cbv beta iota zeta.

Ltac images_loop_at doc :=
  match goal with
  | |- context [forEach images_step _ _ ?g] =>
      let o := fresh "over" in
      let g' := fresh "g" in
      destruct (images_loop (querySelectorAll (sel_tag "img") doc) [] [] g) as (o & g' & ->)
  end.

Ltac project_records :=
  cbv beta iota zeta delta
    [stable_facts checkTechnicalIssues
     SEOAnalysis.url SEOAnalysis.title SEOAnalysis.metaDescription SEOAnalysis.metaKeywords
     SEOAnalysis.canonicalUrl SEOAnalysis.openGraph SEOAnalysis.twitterCard
     SEOAnalysis.structuredData SEOAnalysis.headings SEOAnalysis.images SEOAnalysis.links
     SEOAnalysis.performance SEOAnalysis.mobile SEOAnalysis.security
     SEOAnalysis.accessibility SEOAnalysis.keywords SEOAnalysis.content
     SEOAnalysis.technicalIssues SEOAnalysis.socialMedia SEOAnalysis.score
     SEOAnalysis.scores SEOAnalysis.recommendations
     total withAlt withoutAlt missingAlt oversized totalSize
     internal external broken nofollow dofollow
     wordCount readabilityScore duplicateContent languageDetected
     responsive viewportMeta touchFriendly
     altImages headingStructure colorContrast https mixedContent
     hasOpenGraph hasTwitterCard hasFacebookPixel hasGoogleAnalytics
     missingTitle missingMetaDescription duplicateH1 imagesMissingAlt titleTooLong
     metaDescriptionTooLong missingCanonical noIndex noFollow
     DetailedScores.technical DetailedScores.content DetailedScores.performance
     DetailedScores.accessibility DetailedScores.social
     c_internal c_external c_nofollow c_dofollow fst snd].

(** What [parseDocument] comes to: a report whose scores were computed by the
    scorer, or the exception of [new URL] when the page's URL does not parse. *)
Lemma parseDocument_outcome (JSON_parse : string -> option JSON)
    (URL_hostname : string -> option string) (doc : Document) (url : string) (g : Rng) :
  match parseDocument JSON_parse URL_hostname doc url g with
  | Normal r _ =>
      scores_in_range (SEOAnalysis.scores r) /\
      SEOAnalysis.score r = overall_score (SEOAnalysis.scores r) /\
      SEOAnalysis.structuredData r = extractStructuredData JSON_parse doc
  | Thrown _ _ => URL_hostname url = None
  end.
Proof.
  unfold_extractors. images_loop_at doc.
  match goal with
  | |- context [forEach (links_step _ _) ?l ?c ?g2] =>
      destruct (forEach (links_step URL_hostname url) l c g2) as [c' g3 | e g3] eqn:Hl
  end.
  - images_loop_at doc.
    match goal with
    | |- context [calculateDetailedScores ?a ?b ?c ?d ?e ?f ?h ?i ?j ?k ?g2] =>
        destruct (calculateDetailedScores_range a b c d e f h i j k g2) as (s & g5 & -> & Hs)
    end.
    cbv beta iota. cbn [SEOAnalysis.scores SEOAnalysis.score SEOAnalysis.structuredData].
    auto.
  - eapply links_loop_throws. eassumption.
Qed.

(** The part of the report that no draw reaches is a function of the
    document and the URL alone, and so is whether a report is produced. *)
Lemma stable_facts_determined (JSON_parse : string -> option JSON)
    (URL_hostname : string -> option string) (doc : Document) (url : string) :
  exists v, forall g,
    option_map stable_facts (value_of (parseDocument JSON_parse URL_hostname doc url g)) = v.
Proof.
  destruct (links_loop_pure URL_hostname url (link_elements doc) (mkCounts 0 0 0 0)) as [r Hr].
  unfold link_elements in Hr.
  destruct r as [e | c].
  - exists None. intros g.
    unfold_extractors. unfold calculateDetailedScores, bind, Math_random, ret.
    images_loop_at doc. rewrite Hr. reflexivity.
  - eexists. intros g.
    unfold_extractors. unfold calculateDetailedScores, bind, Math_random, ret.
    cbv beta iota zeta.
    images_loop_at doc. rewrite Hr. cbn [pure_of]. images_loop_at doc.
    cbn [value_of option_map]. project_records.
    reflexivity.
Qed.

(** ** C1: the five sub-scores and the overall score *)

(** C1. For every analyzed document, each of the five sub-scores (technical,
    content, performance, accessibility, social) lies in [0, 100], and the
    overall score of the report is the rounded arithmetic mean of the five:
    it is [Math.round] of their sum over 5, which is the integer nearest to
    the mean (five times the score is within 2 of the sum).  The analysis
    produces such a report unless [new URL] rejects the page's URL. *)
Theorem C1_scores_in_range_and_overall_mean (JSON_parse : string -> option JSON)
    (URL_hostname : string -> option string) (doc : Document) (url : string) (g : Rng) :
  match parseDocument JSON_parse URL_hostname doc url g with
  | Normal r _ =>
      scores_in_range (SEOAnalysis.scores r) /\
      SEOAnalysis.score r = Math_round (inject_Z (score_sum (SEOAnalysis.scores r)) / 5) /\
      Z.abs (5 * SEOAnalysis.score r - score_sum (SEOAnalysis.scores r)) <= 2
  | Thrown _ _ => URL_hostname url = None
  end.
Proof.
  pose proof (parseDocument_outcome JSON_parse URL_hostname doc url g) as H.
  destruct (parseDocument JSON_parse URL_hostname doc url g) as [r g' | e g']; [|exact H].
  destruct H as (Hrange & Hscore & _).
  split; [exact Hrange|]. rewrite Hscore. split.
  - reflexivity.
  - apply overall_score_nearest.
Qed.

(** ** C2: the image counts *)

Lemma filter_sel_has (tag name : string) (l : list Element) :
  List.filter (sel_has tag name) l =
  List.filter (hasAttribute name) (List.filter (sel_tag tag) l).
Proof.
  induction l as [|x l IH]; [reflexivity|].
  simpl. unfold sel_has at 1. destruct (sel_tag tag x); simpl.
  - destruct (hasAttribute name x); simpl; now rewrite IH.
  - apply IH.
Qed.

Lemma alt_partition (l : list Element) :
  len (List.filter alt_falsy l) =
  len l - len (List.filter (hasAttribute "alt") l) + len (List.filter alt_empty l).
Proof.
  induction l as [|x l IH]; [reflexivity|].
  simpl. unfold alt_falsy at 1, hasAttribute at 1, alt_empty at 1.
  destruct (getAttribute "alt" x) as [v|]; [destruct (is_empty v)|];
    rewrite ?len_cons, IH; lia.
Qed.

(** What the image analysis guarantees: the two counts add up to the total,
    and [missingAlt] holds one entry for every image without the attribute
    and one more for every image whose [alt] is present and empty. *)
Lemma analyzeImages_counts (doc : Document) (g : Rng) :
  exists im g',
    analyzeImages doc g = Normal im g' /\
    withAlt im + withoutAlt im = total im /\
    0 <= withoutAlt im /\
    len (missingAlt im) = withoutAlt im + count alt_empty (image_elements doc).
Proof.
  destruct (analyzeImages_spec doc g) as (over & size & g' & ->).
  eexists _, _. split; [reflexivity|]. cbn [total withAlt withoutAlt missingAlt].
  rewrite len_map, alt_partition. unfold querySelectorAll, image_elements, querySelectorAll, count.
  rewrite filter_sel_has.
  pose proof (len_nonneg (List.filter (hasAttribute "alt")
                            (List.filter (sel_tag "img") (elements doc)))).
  assert (len (List.filter (hasAttribute "alt") (List.filter (sel_tag "img") (elements doc)))
          <= len (List.filter (sel_tag "img") (elements doc))).
  { unfold len. apply inj_le. apply filter_length_le. }
  repeat split; lia.
Qed.

(** C2. The claim that [len(missingAlt) == withoutAlt] on every document
    fails on the document of one image with the source [a.png] and an empty
    [alt] attribute: the image carries the
    attribute, so it counts as having alt ([withAlt = 1], [withoutAlt = 0]),
    and the loop still records its source, because it tests the value of the
    attribute and not its presence. *)
Theorem C2_empty_alt_recorded_as_missing (g : Rng) :
  exists im g',
    analyzeImages doc_empty_alt g = Normal im g' /\
    total im = 1 /\ withAlt im = 1 /\ withoutAlt im = 0 /\
    missingAlt im = ["a.png"] /\
    len (missingAlt im) <> withoutAlt im.
Proof.
  destruct (analyzeImages_spec doc_empty_alt g) as (over & size & g' & ->).
  eexists _, _. split; [reflexivity|].
  cbn [total withAlt withoutAlt missingAlt].
  repeat split; try reflexivity. vm_compute. discriminate.
Qed.

(** ** C3: what two runs on the same input share *)

(** C3, as stated, fails: two runs on the same (empty) document and URL that
    meet different draws report different [DetailedScores]; the performance
    score is 80 in one run and 90 in the other. *)
Lemma C3_counterexample :
  option_map SEOAnalysis.scores
    (value_of (parseDocument JSON_parse_basic URL_hostname_basic empty_document
                 "https://example.com/" (constant_rng draw_zero)))
  <>
  option_map SEOAnalysis.scores
    (value_of (parseDocument JSON_parse_basic URL_hostname_basic empty_document
                 "https://example.com/" (constant_rng draw_half))).
Proof. vm_compute. discriminate. Qed.

(** C3, amended.  Two runs on identical HTML and URL agree on whether a
    report is produced and on every field that no draw reaches: the url,
    title, meta description, meta keywords and canonical URL, the OpenGraph,
    Twitter Card and structured data, the headings, the image counts and
    [missingAlt], the four link counts, the keywords, the word count,
    readability and language, the two viewport flags, [altImages] and
    [headingStructure], [https], the social media flags, all the technical
    issues, and the technical and social scores. *)
Theorem C3_stable_facts_identical (JSON_parse : string -> option JSON)
    (URL_hostname : string -> option string) (doc : Document) (url : string)
    (g1 g2 : Rng) :
  option_map stable_facts (value_of (parseDocument JSON_parse URL_hostname doc url g1)) =
  option_map stable_facts (value_of (parseDocument JSON_parse URL_hostname doc url g2)).
Proof.
  destruct (stable_facts_determined JSON_parse URL_hostname doc url) as [v Hv].
  now rewrite (Hv g1), (Hv g2).
Qed.

(** ** C5: internal and external links *)

(** C5, as stated, fails.  On a page of [example.com], the absolute link
    [https://other.org/?from=example.com] has another host, so the claim
    makes it external; the code counts it as internal and counts no external
    link, because it looks for the page's host name anywhere in the href. *)
Lemma C5_counterexample :
  URL_hostname_basic "https://example.com/" = Some "example.com" /\
  map (spec_external URL_hostname_basic "example.com")
      (map href_of (link_elements doc_foreign_link)) = [true] /\
  map (spec_internal URL_hostname_basic "example.com")
      (map href_of (link_elements doc_foreign_link)) = [false] /\
  option_map (fun l => (internal l, external l))
    (value_of (analyzeLinks URL_hostname_basic doc_foreign_link "https://example.com/"
                 (constant_rng draw_zero))) = Some (1, 0).
Proof. vm_compute. repeat split; reflexivity. Qed.

(** C5, amended.  When the page's URL parses, with host name [host], the
    link analysis counts an anchor with an href as external exactly when the
    href starts with the characters [http] and does not contain [host] as a
    substring, and as internal exactly when the href starts with [/] or
    contains [host] as a substring; no anchor is counted as both. *)
Theorem C5_links_classified_by_prefix_and_substring
    (URL_hostname : string -> option string) (doc : Document) (baseUrl host : string)
    (g : Rng) :
  URL_hostname baseUrl = Some host ->
  (exists l g',
     analyzeLinks URL_hostname doc baseUrl g = Normal l g' /\
     external l = count (fun a => counts_external host (href_of a)) (link_elements doc) /\
     internal l = count (fun a => counts_internal host (href_of a)) (link_elements doc)) /\
  (forall href, counts_external host href && counts_internal host href = false).
Proof.
  intros Hhost. split.
  - unfold analyzeLinks. unfold bind at 1. fold (link_elements doc).
    rewrite (links_loop_counts URL_hostname baseUrl host Hhost).
    unfold bind, Math_random, ret. eexists _, _. split; [reflexivity|].
    cbn [external internal c_external c_internal]. split; reflexivity.
  - intros href. unfold counts_external, counts_internal.
    destruct (startsWith href "/") eqn:Hs.
    + now rewrite (slash_not_http _ Hs).
    + destruct (startsWith href "http"); destruct (includes href host); reflexivity.
Qed.

Lemma C5_witness :
  URL_hostname_basic "https://example.com/" = Some "example.com" /\
  (exists l g',
     analyzeLinks URL_hostname_basic doc_foreign_link "https://example.com/"
       (constant_rng draw_zero) = Normal l g' /\
     external l = count (fun a => counts_external "example.com" (href_of a))
                    (link_elements doc_foreign_link) /\
     internal l = count (fun a => counts_internal "example.com" (href_of a))
                    (link_elements doc_foreign_link)).
Proof.
  split; [reflexivity|].
  apply (C5_links_classified_by_prefix_and_substring URL_hostname_basic doc_foreign_link
           "https://example.com/" "example.com" (constant_rng draw_zero)).
  reflexivity.
Defined.

(** ** C6: the heading structure flag *)

Lemma analyzeAccessibility_spec (doc : Document) (images : ImagesAnalysis) (g : Rng) :
  exists contrast g',
    analyzeAccessibility doc images g =
    Normal {| altImages := withAlt images;
              headingStructure := no_level_skip (0 :: heading_levels doc);
              colorContrast := contrast |} g'.
Proof.
  unfold analyzeAccessibility, bind, Math_random, ret.
  rewrite (heading_fold _ (querySelectorAll_Forall sel_heading doc)).
  eexists _, _. reflexivity.
Qed.

Lemma heading_level_range (e : Element) :
  sel_heading e = true -> 1 <= heading_level e <= 6.
Proof.
  unfold sel_heading, sel_or, sel_tag, heading_level.
  destruct (localName e =? "h1")%string; [lia|].
  destruct (localName e =? "h2")%string; [lia|].
  destruct (localName e =? "h3")%string; [lia|].
  destruct (localName e =? "h4")%string; [lia|].
  destruct (localName e =? "h5")%string; [lia|].
  destruct (localName e =? "h6")%string; [lia|].
  discriminate.
Qed.

(** C6, as stated, fails.  In a document whose only heading is an [h2] no
    heading exceeds the one before it, so the claim makes the flag true; the
    code reports false, because it compares the first heading with level 0. *)
Lemma C6_counterexample :
  heading_levels doc_h2_first = [2] /\
  no_level_skip (heading_levels doc_h2_first) = true /\
  option_map (fun r => headingStructure (SEOAnalysis.accessibility r))
    (value_of (parseDocument JSON_parse_basic URL_hostname_basic doc_h2_first
                 "https://example.com/" (constant_rng draw_zero))) = Some false.
Proof. vm_compute. repeat split; reflexivity. Qed.

(** C6, amended.  The flag [headingStructure] is true unless some heading's
    level exceeds the level of the heading just before it by more than one,
    over the single document-order sequence of headings with levels 1 to 6,
    where the first heading is compared with level 0: a document whose first
    heading is not an [h1] is flagged. *)
Theorem C6_heading_structure_from_level_zero (doc : Document) (images : ImagesAnalysis)
    (g : Rng) :
  Forall (fun level => 1 <= level <= 6) (heading_levels doc) /\
  exists a g',
    analyzeAccessibility doc images g = Normal a g' /\
    (headingStructure a = true <->
     forall i x y,
       nth_error (0 :: heading_levels doc) i = Some x ->
       nth_error (0 :: heading_levels doc) (S i) = Some y ->
       y <= x + 1) /\
    (forall level rest, heading_levels doc = level :: rest -> 1 < level ->
       headingStructure a = false).
Proof.
  split.
  - unfold heading_levels. apply Forall_map.
    eapply Forall_impl; [|apply (querySelectorAll_Forall sel_heading doc)].
    intros e He. now apply heading_level_range.
  - destruct (analyzeAccessibility_spec doc images g) as (contrast & g' & ->).
    eexists _, _. split; [reflexivity|]. cbn [headingStructure]. split.
    + apply no_level_skip_adjacent.
    + intros level rest -> Hlevel. cbn [no_level_skip].
      apply Z.ltb_lt in Hlevel. change (0 + 1) with 1. now rewrite Hlevel.
Qed.

(** ** C9: a field is never both missing and too long *)

(** C9. The issue checker never reports both [missingTitle] and
    [titleTooLong], nor both [missingMetaDescription] and
    [metaDescriptionTooLong]; hence the technical score loses at most 25 for
    the title and at most 20 for the description, and never falls below 30. *)
Theorem C9_missing_and_too_long_exclusive (doc : Document) (title metaDescription : string)
    (headings : HeadingsStructure) (images : ImagesAnalysis) (canonicalUrl : string) :
  let issues := checkTechnicalIssues doc title metaDescription headings images canonicalUrl in
  missingTitle issues && titleTooLong issues = false /\
  missingMetaDescription issues && metaDescriptionTooLong issues = false /\
  forall content links mobile accessibility socialMedia g,
  exists s g',
    calculateDetailedScores title metaDescription headings images issues content links
      mobile accessibility socialMedia g = Normal s g' /\
    DetailedScores.technical s =
      100
      - (if missingTitle issues then 25 else if titleTooLong issues then 10 else 0)
      - (if missingMetaDescription issues then 20
         else if metaDescriptionTooLong issues then 10 else 0)
      - (if duplicateH1 issues then 15 else 0)
      - (if missingCanonical issues then 10 else 0) /\
    30 <= DetailedScores.technical s.
Proof.
  intros issues.
  assert (Ht : missingTitle issues && titleTooLong issues = false).
  { unfold issues, checkTechnicalIssues. cbn [missingTitle titleTooLong].
    destruct title; [reflexivity | reflexivity]. }
  assert (Hd : missingMetaDescription issues && metaDescriptionTooLong issues = false).
  { unfold issues, checkTechnicalIssues.
    cbn [missingMetaDescription metaDescriptionTooLong].
    destruct metaDescription; reflexivity. }
  repeat split; [exact Ht | exact Hd |].
  intros content links mobile accessibility socialMedia g.
  unfold calculateDetailedScores, bind, Math_random, ret. cbv beta iota zeta.
  eexists _, _. split; [reflexivity|]. cbn [DetailedScores.technical].
  unfold deduct.
  destruct (missingTitle issues); destruct (titleTooLong issues); try discriminate Ht;
    destruct (missingMetaDescription issues); destruct (metaDescriptionTooLong issues);
    try discriminate Hd;
    destruct (duplicateH1 issues); destruct (missingCanonical issues); split; lia.
Qed.

(** Two [h1] headings: the issue is reported and costs 15 points, next to
    the 25, 20 and 10 points of the missing title, description and canonical
    URL. *)
Example two_h1_cost_fifteen :
  option_map (fun r => (duplicateH1 (SEOAnalysis.technicalIssues r),
                        DetailedScores.technical (SEOAnalysis.scores r)))
    (value_of (parseDocument JSON_parse_basic URL_hostname_basic
                 (mkDocument [mkElement "h1" [] "One"; mkElement "h1" [] "Two"] None)
                 "https://example.com/" (constant_rng draw_zero)))
  = Some (true, 30).
Proof. vm_compute. reflexivity. Qed.

(** Headings that descend one level at a time and climb back freely. *)
Example headings_in_order :
  no_level_skip (0 :: heading_levels
    (mkDocument [mkElement "h1" [] "A"; mkElement "h2" [] "B"; mkElement "h3" [] "C";
                 mkElement "h2" [] "D"; mkElement "h4" [] "E"] None)) = false /\
  no_level_skip (0 :: heading_levels
    (mkDocument [mkElement "h1" [] "A"; mkElement "h2" [] "B"; mkElement "h3" [] "C";
                 mkElement "h2" [] "D"] None)) = true.
Proof. vm_compute. split; reflexivity. Qed.

(** ** C4: what a failed fetch comes to *)
(** C4, as stated, fails.  When the request times out, the promise of
    [analyzePage] is not rejected: it resolves with the sample report, whose
    score is 91, whose title is not missing and which recommends nothing but
    praise, in the shape of a report of a successful analysis. *)
Lemma C4_counterexample :
  settled (analyzePage JSON_parse_basic URL_hostname_basic (fun _ => empty_document)
             "https://example.com/" (Fails Timeout) ∅ (constant_rng draw_zero))
  = Resolved (getComprehensiveSampleAnalysis "https://example.com/") /\
  SEOAnalysis.score (getComprehensiveSampleAnalysis "https://example.com/") = 91 /\
  missingTitle (SEOAnalysis.technicalIssues
                  (getComprehensiveSampleAnalysis "https://example.com/")) = false /\
  In "✅ Sitio web muy bien optimizado para SEO"
     (SEOAnalysis.recommendations (getComprehensiveSampleAnalysis "https://example.com/")).
Proof.
  repeat split; try reflexivity. simpl. tauto.
Qed.

(** What [analyzePage] does after its last [await]: it resolves, and it
    writes what it resolves with into the cache. *)
Lemma analyzePage_settle_writes (JSON_parse : string -> option JSON)
    (URL_hostname : string -> option string) (DOMParser_parseFromString : string -> Document)
    (url : string) (net : Network) (cache : gmap string SEOAnalysis.t) (g : Rng) :
  exists a g',
    analyzePage_settle JSON_parse URL_hostname DOMParser_parseFromString url net cache g
    = mkPageResult (Resolved a) (<[url := a]> cache) g'.
Proof.
  unfold analyzePage_settle.
  destruct (fetch_and_parse _ _ _ _ _ _) as [[c|a] g']; eexists _, _; reflexivity.
Qed.

Section Overlap.
Variable JSON_parse : string -> option JSON.
Variable URL_hostname : string -> option string.
Variable DOMParser_parseFromString : string -> Document.

Local Abbreviation step' := (step JSON_parse URL_hostname DOMParser_parseFromString).
Local Abbreviation run' := (run JSON_parse URL_hostname DOMParser_parseFromString).

Lemma run_cons (e : Event) (rest : list Event) (w : World) :
  run' (e :: rest) w =
  (fst (run' rest (fst (step' e w))), (snd (step' e w)) :: snd (run' rest (fst (step' e w)))).
Proof.
  cbn [run]. destruct (step' e w) as [w1 answer]. cbn [fst snd].
  destruct (run' rest w1) as [w2 answers]. reflexivity.
Qed.

(** An entry of the cache whose URL no call waits for: no event changes it,
    no call for the URL starts to wait, and a call for the URL is answered
    with it. *)
Lemma step_keeps_entry (url : string) (a : SEOAnalysis.t) (e : Event) (w : World) :
  w_cache w !! url = Some a -> url ∉ w_pending w ->
  w_cache (fst (step' e w)) !! url = Some a /\
  (url ∉ w_pending (fst (step' e w))) /\
  (e = Call url -> snd (step' e w) = Some (Resolved a)).
Proof.
  intros Hc Hp. destruct e as [u|i net|n]; cbn [step].
  - destruct (w_cache w !! u) as [cached|] eqn:E; cbn [fst snd w_cache w_pending].
    + split; [exact Hc|]. split; [exact Hp|]. intros [= ->]. congruence.
    + split; [exact Hc|]. split.
      * intros Hin. apply elem_of_app in Hin as [Hin|Hin]; [contradiction|].
        apply list_elem_of_singleton in Hin. congruence.
      * intros [= ->]. congruence.
  - destruct (w_pending w !! i) as [u|] eqn:E; cbn [fst snd]; [|now auto].
    assert (Hne : u <> url).
    { intros ->. apply Hp. eapply list_elem_of_lookup_2. exact E. }
    destruct (analyzePage_settle_writes JSON_parse URL_hostname DOMParser_parseFromString
                u net (w_cache w) (w_rng w)) as (b & g' & ->).
    cbn [analysisCache rng settled w_cache w_pending].
    split; [now rewrite lookup_insert_ne|]. split; [|discriminate].
    intros Hin. apply Hp. eapply list_elem_of_delete_inv. exact Hin.
  - cbn [fst snd w_cache w_pending]. split; [exact Hc|]. split; [exact Hp | discriminate].
Qed.

Lemma run_keeps_entry (url : string) (a : SEOAnalysis.t) (events : list Event) :
  forall w,
    w_cache w !! url = Some a -> url ∉ w_pending w ->
    w_cache (fst (run' events w)) !! url = Some a /\
    forall k, events !! k = Some (Call url) ->
              (snd (run' events w)) !! k = Some (Some (Resolved a)).
Proof.
  induction events as [|e rest IH]; intros w Hc Hp.
  - split; [exact Hc|]. intros k Hk. now rewrite lookup_nil in Hk.
  - rewrite run_cons. cbn [fst snd].
    destruct (step_keeps_entry url a e w Hc Hp) as (Hc1 & Hp1 & Hcall).
    destruct (IH _ Hc1 Hp1) as [Hc2 Hans].
    split; [exact Hc2|]. intros [|k] Hk; cbn in Hk |- *.
    + f_equal. apply Hcall. congruence.
    + now apply Hans.
Qed.

(** No event rejects a promise, and no event removes an entry of the
    cache. *)
Lemma step_resolves (e : Event) (w : World) (p : Promise SEOAnalysis.t) :
  (snd (step' e w)) = Some p -> exists a, p = Resolved a.
Proof.
  destruct e as [u|i net|n]; cbn [step].
  - destruct (w_cache w !! u); cbn [snd]; [|discriminate]. intros [= <-]. eauto.
  - destruct (w_pending w !! i) as [u|]; cbn [snd]; [|discriminate].
    destruct (analyzePage_settle_writes JSON_parse URL_hostname DOMParser_parseFromString
                u net (w_cache w) (w_rng w)) as (b & g' & ->).
    cbn [settled]. intros [= <-]. eauto.
  - discriminate.
Qed.

Lemma step_keeps_urls (e : Event) (w : World) (url : string) :
  is_Some (w_cache w !! url) -> is_Some (w_cache (fst (step' e w)) !! url).
Proof.
  intros Hc. destruct e as [u|i net|n]; cbn [step].
  - destruct (w_cache w !! u); exact Hc.
  - destruct (w_pending w !! i) as [u|]; cbn [fst]; [|exact Hc].
    destruct (analyzePage_settle_writes JSON_parse URL_hostname DOMParser_parseFromString
                u net (w_cache w) (w_rng w)) as (b & g' & ->).
    cbn [analysisCache w_cache]. destruct (decide (u = url)) as [->|Hne].
    + rewrite lookup_insert_eq. eauto.
    + now rewrite lookup_insert_ne.
  - exact Hc.
Qed.

Lemma run_resolves (events : list Event) :
  forall w k p, (snd (run' events w)) !! k = Some (Some p) -> exists a, p = Resolved a.
Proof.
  induction events as [|e rest IH]; intros w k p Hk.
  - cbn in Hk. now rewrite lookup_nil in Hk.
  - rewrite run_cons in Hk. cbn [snd] in Hk. destruct k as [|k]; cbn in Hk.
    + injection Hk as Hk. eapply step_resolves. exact Hk.
    + eapply IH. exact Hk.
Qed.

Lemma run_keeps_urls (events : list Event) (url : string) :
  forall w, is_Some (w_cache w !! url) -> is_Some (w_cache (fst (run' events w)) !! url).
Proof.
  induction events as [|e rest IH]; intros w Hc; [exact Hc|].
  rewrite run_cons. cbn [fst]. apply IH. now apply step_keeps_urls.
Qed.
End Overlap.

(** The clause that every later call meets the sample holds only of calls
    that do not overlap.  Two calls for one URL wait at the same time; the
    request of the first fails and the sample is stored; the reply of the
    second arrives and its report replaces the sample; the next call gets
    that report. *)
Example overlapping_calls_last_write_wins :
  map (option_map (fun p => match p with
                            | Resolved a => Some (SEOAnalysis.score a)
                            | Rejected _ => None
                            end))
    (snd (run JSON_parse_basic URL_hostname_basic (fun _ => empty_document)
       [Call "https://example.com/"; Call "https://example.com/";
        Reply 0 (Fails Timeout); Call "https://example.com/";
        Reply 0 (Replies ""); Call "https://example.com/"]
       (mkWorld ∅ (constant_rng draw_zero) [])))
  = [None; None; Some (Some 91); Some (Some 91); Some (Some 56); Some (Some 56)].
Proof. vm_compute. reflexivity. Qed.

(** C4, amended.  When the HTML for a URL that is not in the cache cannot be
    retrieved, [analyzePage] catches the failure and resolves with the static
    sample report [getComprehensiveSampleAnalysis(url)]; it stores that report
    in the cache under the URL and draws nothing.  This holds of a call that
    has waited for its reply as well, whatever the cache holds by then.  If
    no other call for the URL is still waiting when the sample is stored,
    every later call for the URL resolves with the same sample, whatever
    else happens in between. *)
Theorem C4_fetch_failure_resolves_with_sample (JSON_parse : string -> option JSON)
    (URL_hostname : string -> option string) (DOMParser_parseFromString : string -> Document)
    (url : string) (f : FetchFailure) (cache : gmap string SEOAnalysis.t) (g : Rng) :
  cache !! url = None ->
  let sample := getComprehensiveSampleAnalysis url in
  let result :=
    analyzePage JSON_parse URL_hostname DOMParser_parseFromString url (Fails f) cache g in
  result = mkPageResult (Resolved sample) (<[url := sample]> cache) g /\
  forall w i,
    w_pending w !! i = Some url ->
    let after :=
      step JSON_parse URL_hostname DOMParser_parseFromString (Reply i (Fails f)) w in
    after = (mkWorld (<[url := sample]> (w_cache w)) (w_rng w) (delete i (w_pending w)),
             Some (Resolved sample)) /\
    (url ∉ w_pending (fst after) ->
     forall events k,
       events !! k = Some (Call url) ->
       snd (run JSON_parse URL_hostname DOMParser_parseFromString events (fst after)) !! k
       = Some (Some (Resolved sample))).
Proof.
  intros Hmiss sample result. split.
  - unfold result, analyzePage, analyzePage_settle. rewrite Hmiss. reflexivity.
  - intros w i Hi after.
    assert (Ha : after = (mkWorld (<[url := sample]> (w_cache w)) (w_rng w)
                            (delete i (w_pending w)), Some (Resolved sample))).
    { unfold after. cbn [step]. rewrite Hi. reflexivity. }
    clearbody after. subst after. split; [reflexivity|].
    cbn [fst w_pending]. intros Hp events k Hk.
    refine (proj2 (run_keeps_entry JSON_parse URL_hostname DOMParser_parseFromString
                     url sample events
                     (mkWorld (<[url := sample]> (w_cache w)) (w_rng w)
                        (delete i (w_pending w))) _ Hp) k Hk).
    apply lookup_insert_eq.
Qed.

Lemma C4_witness :
  (∅ : gmap string SEOAnalysis.t) !! "https://example.com/" = None /\
  let sample := getComprehensiveSampleAnalysis "https://example.com/" in
  let w := mkWorld ∅ (constant_rng draw_zero) ["https://example.com/"] in
  analyzePage JSON_parse_basic URL_hostname_basic (fun _ => empty_document)
    "https://example.com/" (Fails TransportFailure) ∅ (constant_rng draw_zero)
  = mkPageResult (Resolved sample) (<["https://example.com/" := sample]> ∅)
      (constant_rng draw_zero) /\
  step JSON_parse_basic URL_hostname_basic (fun _ => empty_document)
    (Reply 0 (Fails TransportFailure)) w
  = (mkWorld (<["https://example.com/" := sample]> ∅) (constant_rng draw_zero) [],
     Some (Resolved sample)) /\
  forall events k,
    events !! k = Some (Call "https://example.com/") ->
    snd (run JSON_parse_basic URL_hostname_basic (fun _ => empty_document) events
           (fst (step JSON_parse_basic URL_hostname_basic (fun _ => empty_document)
                   (Reply 0 (Fails TransportFailure)) w))) !! k
    = Some (Some (Resolved sample)).
Proof.
  split; [reflexivity|].
  destruct (C4_fetch_failure_resolves_with_sample JSON_parse_basic URL_hostname_basic
              (fun _ => empty_document) "https://example.com/" TransportFailure ∅
              (constant_rng draw_zero) (lookup_empty _)) as [Hresult Hlater].
  intros sample w. split; [exact Hresult|].
  destruct (Hlater w 0%nat eq_refl) as [Hstep Hcalls].
  split; [exact Hstep|]. apply Hcalls. apply not_elem_of_nil.
Defined.

(** The promise of [analyzePage] is never rejected. *)
Lemma analyzePage_always_resolves (JSON_parse : string -> option JSON)
    (URL_hostname : string -> option string) (DOMParser_parseFromString : string -> Document)
    (url : string) (net : Network) (cache : gmap string SEOAnalysis.t) (g : Rng) :
  exists a, settled (analyzePage JSON_parse URL_hostname DOMParser_parseFromString url net cache g)
            = Resolved a.
Proof.
  unfold analyzePage. destruct (cache !! url); [eexists; reflexivity|].
  destruct (analyzePage_settle_writes JSON_parse URL_hostname DOMParser_parseFromString
              url net cache g) as (a & g' & ->).
  eexists. reflexivity.
Qed.


(** ** C8: structured data, block by block *)
Section StructuredDataFacts.
Variable JSON_parse : string -> option JSON.

Lemma structured_step_spec (t : list JSON) (e : list string) (script : Element) :
  structured_step JSON_parse (t, e) script =
  ((t ++ pushed_type JSON_parse script)%list,
   (e ++ (if rejected JSON_parse script then ["Invalid JSON-LD structure"] else []))%list).
Proof.
  unfold structured_step, read_type, pushed_type, rejected. rewrite or_else_text.
  destruct (JSON_parse (textContent script)) as [[| | | | |fields]|];
    rewrite ?app_nil_r; try reflexivity.
  destruct (last_field "@type" fields) as [v|]; [destruct (truthy v)|];
    rewrite ?app_nil_r; reflexivity.
Qed.

Lemma structured_fold (l : list Element) :
  forall t e,
    fold_left (structured_step JSON_parse) l (t, e) =
    ((t ++ flat_map (pushed_type JSON_parse) l)%list,
     (e ++ repeat "Invalid JSON-LD structure"
             (length (List.filter (rejected JSON_parse) l)))%list).
Proof.
  induction l as [|x l IH]; intros t e.
  - simpl. now rewrite !app_nil_r.
  - cbn [fold_left]. rewrite structured_step_spec, IH. cbn [flat_map List.filter].
    rewrite <- !app_assoc. destruct (rejected JSON_parse x); reflexivity.
Qed.
End StructuredDataFacts.

(** C8, as stated, fails.  The block whose text is an object with the one
    field [@type], set to the empty string, parses to an object that has an
    [@type] field, so the claim appends its value to [types]; the code
    appends nothing, because it pushes the value only when it is truthy. *)
Lemma C8_counterexample :
  JSON_parse_basic empty_type_text = Some (JObject [("@type", JString "")]) /\
  typed_block JSON_parse_basic (ld_json_script empty_type_text) = Some (JString "") /\
  extractStructuredData JSON_parse_basic doc_empty_type =
    {| hasSchema := true; types := []; errors := [] |}.
Proof. vm_compute. repeat split; reflexivity. Qed.

(** C8, amended.  The extractor handles each [application/ld+json] script
    block on its own.  A block that parses to an object whose [@type] value
    is truthy appends that value to [types]; a block that does not parse, or
    that parses to [null], appends exactly the literal
    ['Invalid JSON-LD structure'] to [errors]; any other block appends
    nothing; the loop goes on to the next block in every case.  [hasSchema]
    is true exactly when there is at least one such block.  The report of the
    pipeline carries this result; the pipeline throws only when [new URL]
    rejects the page's URL, never because of a block. *)
Theorem C8_structured_data_per_block (JSON_parse : string -> option JSON) (doc : Document) :
  let scripts := querySelectorAll sel_ld_json doc in
  let r := extractStructuredData JSON_parse doc in
  types r = flat_map (pushed_type JSON_parse) scripts /\
  errors r = repeat "Invalid JSON-LD structure"
               (length (List.filter (rejected JSON_parse) scripts)) /\
  (hasSchema r = true <-> exists script, In script scripts) /\
  forall URL_hostname url g,
    match parseDocument JSON_parse URL_hostname doc url g with
    | Normal report _ => SEOAnalysis.structuredData report = r
    | Thrown _ _ => URL_hostname url = None
    end.
Proof.
  intros scripts r. unfold r, extractStructuredData. fold scripts.
  rewrite structured_fold. cbn [types errors hasSchema app]. repeat split.
  - intros H. apply Z.ltb_lt in H. destruct scripts as [|x l]; [discriminate H|].
    exists x. now left.
  - intros [x Hx]. destruct scripts as [|y l]; [destruct Hx|]. reflexivity.
  - intros URL_hostname url g.
    pose proof (parseDocument_outcome JSON_parse URL_hostname doc url g) as H.
    destruct (parseDocument JSON_parse URL_hostname doc url g); [|exact H].
    destruct H as (_ & _ & ->). unfold extractStructuredData. fold scripts.
    now rewrite structured_fold.
Qed.

(** A truncated block is recorded and the report is complete. *)
Example malformed_block_is_recorded :
  option_map SEOAnalysis.structuredData
    (value_of (parseDocument JSON_parse_basic URL_hostname_basic doc_truncated_json
                 "https://example.com/" (constant_rng draw_zero)))
  = Some {| hasSchema := true; types := []; errors := ["Invalid JSON-LD structure"] |}.
Proof. vm_compute. reflexivity. Qed.


(** ** C10: no word long enough *)
Lemma string_of_rev_length (acc : list ascii) (tail : string) :
  String.length (string_of_rev acc tail) = (length acc + String.length tail)%nat.
Proof.
  revert tail. induction acc as [|c acc IH]; intros tail; simpl; [reflexivity|].
  rewrite IH. simpl. lia.
Qed.

Lemma normalize_prefix (n : nat) (s : string) :
  exists t, normalize s = normalize (String.substring 0 n s) ++ t.
Proof.
  unfold normalize, toLowerCase. revert n.
  induction s as [|c s IH]; intros n.
  - exists "". destruct n; reflexivity.
  - destruct n as [|n].
    + eexists. simpl. reflexivity.
    + destruct (IH n) as [t Ht]. exists t. simpl.
      destruct (is_word_char (lower_char c) || is_space (lower_char c));
        simpl; now rewrite Ht.
Qed.

Section SplitPrefix.
Variable sep : ascii -> bool.

Lemma split_runs_head (t : string) :
  forall in_run cur, (in_run = true -> cur = []) ->
  exists w rest, split_runs sep in_run cur t = w :: rest /\
                 (length cur <= String.length w)%nat.
Proof.
  induction t as [|c t IH]; intros in_run cur Hrun.
  - eexists _, _. split; [reflexivity|]. rewrite string_of_rev_length. simpl. lia.
  - cbn [split_runs]. destruct (sep c).
    + destruct in_run.
      * rewrite (Hrun eq_refl). destruct (IH true [] (fun _ => eq_refl)) as (w & rest & -> & _).
        eexists _, _. split; [reflexivity|]. simpl. lia.
      * eexists _, _. split; [reflexivity|]. rewrite string_of_rev_length. simpl. lia.
    + destruct (IH false (c :: cur)) as (w & rest & -> & Hw); [discriminate|].
      eexists _, _. split; [reflexivity|]. simpl in Hw. lia.
Qed.

Lemma split_runs_prefix (p t : string) :
  forall in_run cur, (in_run = true -> cur = []) ->
  forallb short_token (split_runs sep in_run cur (p ++ t)) = true ->
  forallb short_token (split_runs sep in_run cur p) = true.
Proof.
  induction p as [|c p IH]; intros in_run cur Hrun H.
  - change ("" ++ t) with t in H. cbn [split_runs forallb].
    destruct (split_runs_head t in_run cur Hrun) as (w & rest & Hw & Hlen).
    rewrite Hw in H. cbn [forallb] in H. apply andb_prop in H as [H _].
    rewrite andb_true_r. unfold short_token, strlen in *.
    apply Z.leb_le in H. apply Z.leb_le. rewrite string_of_rev_length. simpl. lia.
  - change (String c p ++ t) with (String c (p ++ t)) in H.
    cbn [split_runs] in *. destruct (sep c).
    + destruct in_run.
      * apply (IH true []); [reflexivity | exact H].
      * cbn [forallb] in *. apply andb_prop in H as [H1 H2]. rewrite H1. simpl.
        apply (IH true []); [reflexivity | exact H2].
    + apply (IH false (c :: cur)); [discriminate | exact H].
Qed.
End SplitPrefix.

Lemma short_tokens_filtered (l : list string) :
  forallb short_token l = true -> List.filter (fun word => 3 <? strlen word) l = [].
Proof.
  induction l as [|w l IH]; [reflexivity|].
  cbn [forallb List.filter]. intros H. apply andb_prop in H as [Hw Hl].
  unfold short_token in Hw. apply Z.leb_le in Hw.
  destruct (3 <? strlen w) eqn:E; [apply Z.ltb_lt in E; lia|]. now apply IH.
Qed.

(** The percentage is computed once for every entry of the frequency object,
    and the object has an entry only when the total is not zero. *)
Lemma percentage_total_nonzero (text : string) :
  Object_entries (fold_left count_step (keyword_words text) empty_object) <> [] ->
  len (keyword_words text) <> 0.
Proof.
  destruct (keyword_words text) as [|w ws]; [intros H; now contradiction H|].
  intros _. rewrite len_cons. pose proof (len_nonneg ws). lia.
Qed.

(** C10. For every body text that holds no token longer than 3 characters
    after lower-casing and punctuation stripping (the empty text included),
    the keywords analysis returns an empty density map and empty
    [suggestions], [primary] and [secondary]; the frequency object has no
    entry, so no percentage is computed and nothing is divided by the zero
    total. *)
Theorem C10_no_long_token_empty_keywords (text : string) :
  forallb short_token (split is_space (normalize text)) = true ->
  analyzeKeywords text =
    {| density := empty_object; suggestions := []; primary := []; secondary := [] |} /\
  len (keyword_words text) = 0 /\
  Object_entries (fold_left count_step (keyword_words text) empty_object) = [].
Proof.
  intros H.
  assert (Hw : keyword_words text = []).
  { unfold keyword_words. fold (normalize (String.substring 0 5000 text)).
    apply short_tokens_filtered.
    destruct (normalize_prefix 5000 text) as [t Ht]. rewrite Ht in H.
    unfold split in *.
    apply (split_runs_prefix is_space _ t false []); [discriminate | exact H]. }
  unfold analyzeKeywords. rewrite Hw. repeat split.
Qed.

Lemma C10_witness :
  forallb short_token (split is_space (normalize "a bb ccc, d!")) = true /\
  analyzeKeywords "a bb ccc, d!" =
    {| density := empty_object; suggestions := []; primary := []; secondary := [] |} /\
  len (keyword_words "a bb ccc, d!") = 0 /\
  Object_entries (fold_left count_step (keyword_words "a bb ccc, d!") empty_object) = [].
Proof.
  split; [reflexivity|].
  apply (C10_no_long_token_empty_keywords "a bb ccc, d!"). reflexivity.
Defined.

(** ** C7: the ranking of the keywords *)

(** ** Keys that are array indices *)
Lemma array_index_canonical (k : string) (n : N) :
  array_index k = Some n -> N_to_string n = k.
Proof.
  unfold array_index. destruct k as [|c k]; [discriminate|].
  destruct (digits_value 0 (String c k)) as [m|]; [|discriminate].
  destruct (N_to_string m =? String c k)%string eqn:E; [|discriminate].
  destruct (m <=? 4294967294)%N; [|discriminate].
  simpl. intros [= <-]. now apply String.eqb_eq.
Qed.

Lemma array_index_inj (a b : string) (n : N) :
  array_index a = Some n -> array_index b = Some n -> a = b.
Proof.
  intros Ha Hb. apply array_index_canonical in Ha, Hb. congruence.
Qed.

Lemma array_index_to_string (k : string) (n : N) :
  array_index k = Some n -> array_index (N_to_string n) = Some n.
Proof. intros H. now rewrite (array_index_canonical k n H). Qed.

(** ** Reading and writing own properties *)
Lemma assoc_set_indexed {V : Type} (i j : N) (v : V) (l : list (N * V)) :
  assoc N.eqb j (set_indexed i v l) = if (i =? j)%N then Some v else assoc N.eqb j l.
Proof.
  induction l as [|[k w] l IH]; simpl.
  - reflexivity.
  - destruct (i <? k)%N eqn:Hlt; simpl.
    + reflexivity.
    + destruct (i =? k)%N eqn:Heq; simpl.
      * apply N.eqb_eq in Heq. subst k. destruct (i =? j)%N; reflexivity.
      * rewrite IH. destruct (k =? j)%N eqn:Hkj; [|reflexivity].
        apply N.eqb_eq in Hkj. subst k. now rewrite Heq.
Qed.

Lemma assoc_set_named {V : Type} (k k' : string) (v : V) (l : list (string * V)) :
  assoc String.eqb k' (set_named k v l) =
  if (k =? k')%string then Some v else assoc String.eqb k' l.
Proof.
  induction l as [|[x w] l IH]; simpl.
  - reflexivity.
  - destruct (x =? k)%string eqn:Hx; simpl.
    + apply String.eqb_eq in Hx. subst x. destruct (k =? k')%string; reflexivity.
    + rewrite IH. destruct (x =? k')%string eqn:Hxk; [|reflexivity].
      apply String.eqb_eq in Hxk. subst x. rewrite String.eqb_sym. now rewrite Hx.
Qed.

Lemma get_set_own {V : Type} (k k' : string) (v : V) (o : JSObject V) :
  get_own k' (set_own k v o) = if (k =? k')%string then Some v else get_own k' o.
Proof.
  unfold get_own, set_own.
  destruct (array_index k) as [i|] eqn:Hk; destruct (array_index k') as [i'|] eqn:Hk';
    cbn [indexed named].
  - rewrite assoc_set_indexed.
    destruct (i =? i')%N eqn:E.
    + apply N.eqb_eq in E. subst i'. rewrite (array_index_inj _ _ _ Hk Hk').
      now rewrite String.eqb_refl.
    + destruct (k =? k')%string eqn:E'; [|reflexivity].
      apply String.eqb_eq in E'. subst k'. rewrite Hk in Hk'. injection Hk' as <-.
      now rewrite N.eqb_refl in E.
  - destruct (k =? k')%string eqn:E'; [|reflexivity].
    apply String.eqb_eq in E'. congruence.
  - destruct (k =? k')%string eqn:E'; [|reflexivity].
    apply String.eqb_eq in E'. congruence.
  - apply assoc_set_named.
Qed.

(** ** The keys after a write *)
Lemma set_indexed_In {V : Type} (i j : N) (v : V) (l : list (N * V)) :
  In j (map fst (set_indexed i v l)) <-> j = i \/ In j (map fst l).
Proof.
  induction l as [|[k w] l IH]; simpl.
  - intuition.
  - destruct (i <? k)%N; simpl; [intuition|].
    destruct (i =? k)%N eqn:E; simpl.
    + apply N.eqb_eq in E. subst k. intuition.
    + rewrite IH. intuition.
Qed.

Lemma set_indexed_sorted {V : Type} (i : N) (v : V) (l : list (N * V)) :
  StronglySorted N.lt (map fst l) -> StronglySorted N.lt (map fst (set_indexed i v l)).
Proof.
  induction l as [|[k w] l IH]; simpl; intros Hs.
  - repeat constructor.
  - inversion Hs as [|? ? Hs' Hall]; subst.
    destruct (i <? k)%N eqn:Hlt; simpl.
    + apply N.ltb_lt in Hlt. constructor; [exact Hs|].
      constructor; [exact Hlt|].
      eapply Forall_impl; [|exact Hall]. intros x Hx. simpl in Hx. lia.
    + apply N.ltb_ge in Hlt. destruct (i =? k)%N eqn:Heq; simpl.
      * apply N.eqb_eq in Heq. subst k. exact Hs.
      * apply N.eqb_neq in Heq. constructor; [now apply IH|].
        apply Forall_forall. intros x Hx. apply set_indexed_In in Hx as [->|Hx].
        -- lia.
        -- rewrite Forall_forall in Hall. now apply Hall.
Qed.

Lemma set_indexed_append {V : Type} (i : N) (v : V) (l : list (N * V)) :
  Forall (fun j => (j < i)%N) (map fst l) -> set_indexed i v l = (l ++ [(i, v)])%list.
Proof.
  induction l as [|[k w] l IH]; simpl; intros H; [reflexivity|].
  inversion H as [|? ? Hk Hl]; subst. simpl in Hk.
  destruct (i <? k)%N eqn:Hlt; [apply N.ltb_lt in Hlt; lia|].
  destruct (i =? k)%N eqn:Heq; [apply N.eqb_eq in Heq; lia|].
  now rewrite IH.
Qed.

Lemma set_named_present {V : Type} (k : string) (v : V) (l : list (string * V)) :
  In k (map fst l) -> map fst (set_named k v l) = map fst l.
Proof.
  induction l as [|[x w] l IH]; simpl; intros H; [destruct H|].
  destruct (x =? k)%string eqn:E; simpl.
  - apply String.eqb_eq in E. now subst.
  - f_equal. apply IH. destruct H as [H|H]; [|exact H].
    subst x. now rewrite String.eqb_refl in E.
Qed.

Lemma set_named_fresh {V : Type} (k : string) (v : V) (l : list (string * V)) :
  ~ In k (map fst l) -> set_named k v l = (l ++ [(k, v)])%list.
Proof.
  induction l as [|[x w] l IH]; simpl; intros H; [reflexivity|].
  destruct (x =? k)%string eqn:E.
  - apply String.eqb_eq in E. exfalso. apply H. now left.
  - f_equal. apply IH. intros Hin. apply H. now right.
Qed.

Lemma assoc_In {K V : Type} (eqb : K -> K -> bool) (k : K) (v : V) (l : list (K * V)) :
  (forall a b, eqb a b = true -> a = b) ->
  assoc eqb k l = Some v -> In (k, v) l.
Proof.
  intros Heqb. induction l as [|[x w] l IH]; simpl; [discriminate|].
  destruct (eqb x k) eqn:E.
  - intros [= <-]. left. f_equal. now apply Heqb.
  - intros H. right. now apply IH.
Qed.

Lemma assoc_None {K V : Type} (eqb : K -> K -> bool) (k : K) (l : list (K * V)) :
  (forall a, eqb a a = true) ->
  assoc eqb k l = None -> ~ In k (map fst l).
Proof.
  intros Hrefl. induction l as [|[x w] l IH]; simpl; [tauto|].
  destruct (eqb x k) eqn:E; [discriminate|].
  intros H [Hx|Hin]; [|now apply IH].
  subst x. now rewrite Hrefl in E.
Qed.

(** ** Occurrences and first positions *)
Lemma occurrences_nonneg (w : string) (l : list string) : 0 <= occurrences w l.
Proof. apply len_nonneg. Qed.

Lemma occurrences_app (w : string) (l1 l2 : list string) :
  occurrences w (l1 ++ l2) = occurrences w l1 + occurrences w l2.
Proof. unfold occurrences, count. rewrite filter_app. apply len_app. Qed.

Lemma occurrences_one (w x : string) :
  occurrences w [x] = if (w =? x)%string then 1 else 0.
Proof. unfold occurrences. rewrite count_cons. unfold count, len. simpl. lia. Qed.

Lemma occurrences_In (w : string) (l : list string) : 0 < occurrences w l <-> In w l.
Proof.
  unfold occurrences. induction l as [|x l IH].
  - unfold count, len. simpl. split; [lia | tauto].
  - rewrite count_cons. pose proof (len_nonneg (List.filter (String.eqb w) l)) as Hn.
    fold (count (String.eqb w) l) in Hn. simpl.
    destruct (w =? x)%string eqn:E.
    + apply String.eqb_eq in E. split; [auto | lia].
    + apply String.eqb_neq in E. rewrite <- IH. split; [intros H; right; lia|].
      intros [H|H]; [congruence | lia].
Qed.

Lemma first_index_app (w : string) (l r : list string) :
  In w l -> first_index w (l ++ r) = first_index w l.
Proof.
  induction l as [|x l IH]; simpl; intros H; [destruct H|].
  destruct (x =? w)%string eqn:E; [reflexivity|].
  f_equal. apply IH. destruct H as [H|H]; [|exact H].
  subst. now rewrite String.eqb_refl in E.
Qed.

Lemma first_index_lt (w : string) (l : list string) :
  In w l -> (first_index w l < length l)%nat.
Proof.
  induction l as [|x l IH]; simpl; intros H; [destruct H|].
  destruct (x =? w)%string eqn:E; [lia|].
  destruct H as [H|H]; [subst; now rewrite String.eqb_refl in E|].
  specialize (IH H). lia.
Qed.

Lemma first_index_fresh (w : string) (l : list string) :
  ~ In w l -> first_index w (l ++ [w]) = length l.
Proof.
  induction l as [|x l IH]; simpl; intros H.
  - now rewrite String.eqb_refl.
  - destruct (x =? w)%string eqn:E.
    + apply String.eqb_eq in E. exfalso. apply H. now left.
    + f_equal. apply IH. tauto.
Qed.

(** ** Sorted lists *)
Lemma StronglySorted_snoc {A : Type} (R : A -> A -> Prop) (l : list A) (x : A) :
  StronglySorted R l -> Forall (fun a => R a x) l -> StronglySorted R (l ++ [x]).
Proof.
  induction l as [|y l IH]; simpl; intros Hs Hall.
  - repeat constructor.
  - inversion Hs; subst. inversion Hall; subst. constructor; [now apply IH|].
    apply Forall_app. split; [assumption|]. now constructor.
Qed.

Lemma StronglySorted_ext_in {A : Type} (R R' : A -> A -> Prop) (l : list A) :
  (forall a b, In a l -> In b l -> R a b -> R' a b) ->
  StronglySorted R l -> StronglySorted R' l.
Proof.
  induction l as [|x l IH]; intros Hext Hs; [constructor|].
  inversion Hs as [|? ? Hs' Hall]; subst. constructor.
  - apply IH; [|exact Hs']. intros a b Ha Hb. apply Hext; now right.
  - rewrite Forall_forall in *. intros y Hy. apply Hext; [now left | now right | now apply Hall].
Qed.

Lemma StronglySorted_app {A : Type} (R : A -> A -> Prop) (l1 l2 : list A) :
  StronglySorted R l1 -> StronglySorted R l2 ->
  (forall a b, In a l1 -> In b l2 -> R a b) ->
  StronglySorted R (l1 ++ l2).
Proof.
  induction l1 as [|x l1 IH]; simpl; intros H1 H2 Hc; [exact H2|].
  inversion H1 as [|? ? H1' Hall]; subst. constructor.
  - apply IH; auto.
  - apply Forall_app. split; [exact Hall|]. apply Forall_forall. intros b Hb. apply Hc; auto.
Qed.

Lemma StronglySorted_NoDup {A : Type} (R : A -> A -> Prop) (l : list A) :
  (forall a, ~ R a a) -> StronglySorted R l -> NoDup l.
Proof.
  intros Hirr. induction 1 as [|x l Hs IH Hall]; constructor; [|exact IH].
  intros Hin. rewrite Forall_forall in Hall. exact (Hirr x (Hall x Hin)).
Qed.

(** ** The frequency object *)
Lemma counted_empty : counted [] empty_object.
Proof.
  constructor; simpl; try constructor; try tauto.
  intros w. unfold get_own. destruct (array_index w); reflexivity.
Qed.

Lemma inherits_nothing_not_proto (w : string) :
  inherits_nothing w = true -> (w =? "__proto__")%string = false.
Proof.
  unfold inherits_nothing, Object_prototype_text.
  destruct (w =? "__proto__")%string; [discriminate | reflexivity].
Qed.

Lemma count_step_set (seen : list string) (o : JSObject CountValue) (w : string) :
  counted seen o -> inherits_nothing w = true ->
  count_step o w = set_own w (Count (occurrences w seen + 1)) o.
Proof.
  intros Hc Hw. unfold count_step, assign. rewrite (inherits_nothing_not_proto w Hw).
  f_equal. unfold next_count. rewrite (counted_get _ _ Hc).
  destruct (0 <? occurrences w seen) eqn:E; [reflexivity|].
  apply Z.ltb_ge in E. pose proof (occurrences_nonneg w seen).
  unfold inherits_nothing in Hw. destruct (Object_prototype_text w); [discriminate|].
  f_equal. lia.
Qed.

Lemma named_key_known (seen : list string) (o : JSObject CountValue) (w : string) :
  counted seen o -> array_index w = None -> In w seen -> In w (map fst (named o)).
Proof.
  intros Hc Hw Hin. pose proof (counted_get _ _ Hc w) as Hg.
  apply occurrences_In in Hin. apply Z.ltb_lt in Hin. rewrite Hin in Hg.
  unfold get_own in Hg. rewrite Hw in Hg.
  apply assoc_In in Hg; [|intros a b; apply String.eqb_eq].
  apply (in_map fst) in Hg. exact Hg.
Qed.

Lemma counted_step (seen : list string) (o : JSObject CountValue) (w : string) :
  counted seen o -> inherits_nothing w = true ->
  counted (seen ++ [w]) (count_step o w).
Proof.
  intros Hc Hw. rewrite (count_step_set seen o w Hc Hw).
  assert (Hold : forall k, In k seen -> forall r, first_index k (seen ++ r) = first_index k seen).
  { intros k Hk r. now apply first_index_app. }
  constructor.
  - intros w'. rewrite get_set_own, occurrences_app, occurrences_one, (counted_get _ _ Hc).
    pose proof (occurrences_nonneg w' seen) as Hn.
    destruct (w =? w')%string eqn:E.
    + apply String.eqb_eq in E. subst w'. rewrite String.eqb_refl.
      destruct (0 <? occurrences w seen + 1) eqn:E'; [reflexivity|].
      apply Z.ltb_ge in E'. lia.
    + rewrite String.eqb_sym, E. now rewrite Z.add_0_r.
  - unfold set_own. destruct (array_index w); cbn [indexed].
    + apply set_indexed_sorted. exact (counted_indexed_sorted _ _ Hc).
    + exact (counted_indexed_sorted _ _ Hc).
  - intros i Hi. unfold set_own in Hi. destruct (array_index w) as [j|] eqn:Ew; cbn [indexed] in Hi.
    + apply set_indexed_In in Hi as [->|Hi].
      * exists w. split; [apply in_or_app; right; now left | exact Ew].
      * destruct (counted_indexed_keys _ _ Hc i Hi) as (k & Hk & Hik).
        exists k. split; [apply in_or_app; now left | exact Hik].
    + destruct (counted_indexed_keys _ _ Hc i Hi) as (k & Hk & Hik).
      exists k. split; [apply in_or_app; now left | exact Hik].
  - assert (Hkeep : StronglySorted
                      (fun a b => (first_index a (seen ++ [w]) < first_index b (seen ++ [w]))%nat)
                      (map fst (named o))).
    { eapply StronglySorted_ext_in; [|exact (counted_named_sorted _ _ Hc)].
      intros a b Ha Hb Hab. simpl in Hab.
      rewrite !Hold; [exact Hab | |]; now apply (counted_named_keys _ _ Hc). }
    unfold set_own. destruct (array_index w) as [j|] eqn:Ew; cbn [named]; [exact Hkeep|].
    destruct (in_dec string_dec w (map fst (named o))) as [Hin|Hnot].
    + rewrite set_named_present; assumption.
    + rewrite set_named_fresh by assumption. rewrite map_app. simpl.
      apply StronglySorted_snoc; [exact Hkeep|].
      assert (Hfresh : ~ In w seen).
      { intros Hs. apply Hnot. now apply (named_key_known seen o w). }
      apply Forall_forall. intros a Ha.
      destruct (counted_named_keys _ _ Hc a Ha) as [Has _].
      rewrite (Hold a Has), (first_index_fresh w seen Hfresh).
      now apply first_index_lt.
  - intros k Hk. unfold set_own in Hk. destruct (array_index w) as [j|] eqn:Ew; cbn [named] in Hk.
    + destruct (counted_named_keys _ _ Hc k Hk). split; [apply in_or_app; now left | assumption].
    + destruct (in_dec string_dec w (map fst (named o))) as [Hin|Hnot].
      * rewrite set_named_present in Hk by assumption.
        destruct (counted_named_keys _ _ Hc k Hk). split; [apply in_or_app; now left | assumption].
      * rewrite set_named_fresh in Hk by assumption. rewrite map_app in Hk.
        apply in_app_or in Hk as [Hk|Hk].
        -- destruct (counted_named_keys _ _ Hc k Hk).
           split; [apply in_or_app; now left | assumption].
        -- simpl in Hk. destruct Hk as [<-|[]].
           split; [apply in_or_app; right; now left | exact Ew].
Qed.

Lemma counted_fold (rest : list string) :
  forall seen o,
    counted seen o -> forallb inherits_nothing rest = true ->
    counted (seen ++ rest) (fold_left count_step rest o).
Proof.
  induction rest as [|w rest IH]; intros seen o Hc Hrest.
  - simpl. now rewrite app_nil_r.
  - cbn [forallb] in Hrest. apply andb_prop in Hrest as [Hw Hrest].
    cbn [fold_left].
    replace (seen ++ w :: rest)%list with ((seen ++ [w]) ++ rest)%list
      by (now rewrite <- app_assoc).
    apply IH; [|exact Hrest]. now apply counted_step.
Qed.

(** ** The density object *)
Section DensityBuild.
Variable totalWords : Z.

Lemma density_indexed (idx : list (N * CountValue)) :
  forall acc nm,
    StronglySorted N.lt (map fst (acc ++ idx)) ->
    (forall i, In i (map fst idx) -> array_index (N_to_string i) = Some i) ->
    fold_left (density_step totalWords)
      (map (fun iv => (N_to_string (fst iv), snd iv)) idx) (mkObject (map (percent_indexed totalWords) acc) nm)
    = mkObject (map (percent_indexed totalWords) (acc ++ idx)) nm.
Proof.
  induction idx as [|[i c] idx IH]; intros acc nm Hs Hidx.
  - simpl. now rewrite app_nil_r.
  - cbn [map fold_left fst snd].
    assert (Hi : array_index (N_to_string i) = Some i) by (apply Hidx; now left).
    unfold density_step at 2, assign. cbn [fst snd].
    destruct (N_to_string i =? "__proto__")%string eqn:E.
    { apply String.eqb_eq in E. rewrite E in Hi. vm_compute in Hi. discriminate Hi. }
    unfold set_own. rewrite Hi. cbn [indexed named].
    rewrite set_indexed_append.
    + replace (map (percent_indexed totalWords) acc ++ [(i, percentage c totalWords)])%list
        with (map (percent_indexed totalWords) (acc ++ [(i, c)])) by (now rewrite map_app).
      rewrite IH.
      * now rewrite <- app_assoc.
      * now rewrite <- app_assoc.
      * intros j Hj. apply Hidx. now right.
    + rewrite map_app in Hs. simpl in Hs.
      clear - Hs. induction acc as [|[j d] acc IHa]; simpl in *; [constructor|].
      inversion Hs as [|? ? Hs' Hall]; subst. constructor.
      * rewrite Forall_forall in Hall. apply Hall. apply in_or_app. right. now left.
      * now apply IHa.
Qed.

Lemma density_named (nm : list (string * CountValue)) :
  forall ix acc,
    NoDup (map fst (acc ++ nm)) ->
    (forall k, In k (map fst nm) ->
       array_index k = None /\ (k =? "__proto__")%string = false) ->
    fold_left (density_step totalWords) nm (mkObject ix (map (percent_named totalWords) acc))
    = mkObject ix (map (percent_named totalWords) (acc ++ nm)).
Proof.
  induction nm as [|[k c] nm IH]; intros ix acc Hnd Hkeys.
  - simpl. now rewrite app_nil_r.
  - cbn [fold_left]. unfold density_step at 2, assign. cbn [fst snd].
    destruct (Hkeys k (or_introl eq_refl)) as [Hk Hp]. rewrite Hp.
    unfold set_own. rewrite Hk. cbn [indexed named].
    rewrite set_named_fresh.
    + replace (map (percent_named totalWords) acc ++ [(k, percentage c totalWords)])%list
        with (map (percent_named totalWords) (acc ++ [(k, c)])) by (now rewrite map_app).
      rewrite IH.
      * now rewrite <- app_assoc.
      * now rewrite <- app_assoc.
      * intros j Hj. apply Hkeys. now right.
    + rewrite map_map. cbn [percent_named fst].
      rewrite map_app in Hnd. simpl in Hnd. apply NoDup_remove_2 in Hnd.
      intros Hin. apply Hnd. apply in_or_app. now left.
Qed.
End DensityBuild.

(** ** The stable sort *)
Section SortFacts.
Context {A : Type}.
Variable comparefn : A -> A -> comparison.
Variable measure : A -> Q.
Variable before : A -> A -> Prop.
Hypothesis comparefn_measure : forall a b, comparefn a b = (measure b ?= measure a)%Q.

Lemma sort_insert_perm (x : A) (l : list A) :
  Permutation (sort_insert comparefn x l) (x :: l).
Proof.
  induction l as [|y l IH]; simpl; [reflexivity|].
  destruct (comparefn x y); try reflexivity.
  rewrite IH. apply perm_swap.
Qed.

Lemma sort_perm (l : list A) : Permutation (sort comparefn l) l.
Proof.
  induction l as [|x l IH]; simpl; [reflexivity|].
  rewrite sort_insert_perm. now constructor.
Qed.


End SortFacts.


Section Unique.
Context {A : Type}.
Variable R : A -> A -> Prop.
Hypothesis R_asym : forall a b, R a b -> R b a -> False.

End Unique.


Lemma assoc_map_values {K V W : Type} (eqb : K -> K -> bool) (f : V -> W) (k : K)
    (l : list (K * V)) :
  assoc eqb k (map (fun kv => (fst kv, f (snd kv))) l) = option_map f (assoc eqb k l).
Proof.
  induction l as [|[x v] l IH]; simpl; [reflexivity|].
  destruct (eqb x k); [reflexivity | exact IH].
Qed.

Lemma assoc_NoDup_In {K V : Type} (eqb : K -> K -> bool) (k : K) (v : V) (l : list (K * V)) :
  (forall a b, eqb a b = true <-> a = b) ->
  NoDup (map fst l) -> In (k, v) l -> assoc eqb k l = Some v.
Proof.
  intros Heqb. induction l as [|[x w] l IH]; simpl; intros Hn Hin; [destruct Hin|].
  inversion Hn as [|? ? Hx Hn']; subst.
  destruct Hin as [[= -> ->]|Hin].
  - now rewrite (proj2 (Heqb k k) eq_refl).
  - destruct (eqb x k) eqn:E.
    + apply Heqb in E. subst x. exfalso. apply Hx. now apply (in_map fst) in Hin.
    + now apply IH.
Qed.

Lemma StronglySorted_map_in {A B : Type} (R : A -> A -> Prop) (R' : B -> B -> Prop)
    (f : A -> B) (l : list A) :
  (forall a b, In a l -> In b l -> R a b -> R' (f a) (f b)) ->
  StronglySorted R l -> StronglySorted R' (map f l).
Proof.
  induction l as [|x l IH]; intros Hext Hs; [constructor|].
  inversion Hs as [|? ? Hs' Hall]; subst. simpl. constructor.
  - apply IH; [|exact Hs']. intros a b Ha Hb. apply Hext; now right.
  - rewrite Forall_forall in *. intros y Hy. apply in_map_iff in Hy as (a & <- & Ha).
    apply Hext; [now left | now right | now apply Hall].
Qed.

Lemma key_before_irrefl (words : list string) (a : string) : ~ key_before words a a.
Proof. unfold key_before. destruct (array_index a); lia. Qed.


Section Ranking.
Variable words : list string.
Hypothesis words_plain : forallb inherits_nothing words = true.
Hypothesis words_nonempty : words <> [].

Local Abbreviation wordCount := (fold_left count_step words empty_object).
Local Abbreviation totalWords := (len words).

Lemma wordCount_counted : counted words wordCount.
Proof. apply (counted_fold words [] empty_object counted_empty words_plain). Qed.

Lemma totalWords_pos : 0 < totalWords.
Proof.
  unfold len. destruct words; [now contradiction words_nonempty|]. simpl. lia.
Qed.

Lemma percentage_count (n : Z) :
  percentage (Count n) totalWords = Finite (inject_Z n / inject_Z totalWords * 100).
Proof.
  unfold percentage, divide. pose proof totalWords_pos.
  destruct (totalWords =? 0) eqn:E; [apply Z.eqb_eq in E; lia | reflexivity].
Qed.

Lemma indexed_key_string (i : N) :
  In i (map fst (indexed wordCount)) ->
  array_index (N_to_string i) = Some i /\ In (N_to_string i) words.
Proof.
  intros Hi. destruct (counted_indexed_keys _ _ wordCount_counted i Hi) as (k & Hk & Hik).
  split; [now apply (array_index_to_string k) |].
  now rewrite (array_index_canonical k i Hik).
Qed.

Lemma indexed_NoDup : NoDup (map fst (indexed wordCount)).
Proof.
  apply (StronglySorted_NoDup N.lt); [intros a; lia|].
  exact (counted_indexed_sorted _ _ wordCount_counted).
Qed.

Lemma named_NoDup : NoDup (map fst (named wordCount)).
Proof.
  eapply StronglySorted_NoDup; [|exact (counted_named_sorted _ _ wordCount_counted)].
  intros a. simpl. lia.
Qed.

Lemma density_object :
  fold_left (density_step totalWords) (Object_entries wordCount) empty_object =
  mkObject (map (percent_indexed totalWords) (indexed wordCount))
           (map (percent_named totalWords) (named wordCount)).
Proof.
  unfold Object_entries. rewrite fold_left_app.
  pose proof (density_indexed totalWords (indexed wordCount) [] []) as Hi.
  cbn [map app] in Hi.
  change (@empty_object Number) with (mkObject (@nil (N * Number)) (@nil (string * Number))).
  rewrite Hi.
  - pose proof (density_named totalWords (named wordCount)
                  (map (percent_indexed totalWords) (indexed wordCount)) []) as Hn.
    cbn [map app] in Hn. apply Hn.
    + exact named_NoDup.
    + intros k Hk. destruct (counted_named_keys _ _ wordCount_counted k Hk) as [Hin Hidx].
      split; [exact Hidx|]. apply inherits_nothing_not_proto.
      rewrite forallb_forall in words_plain. now apply words_plain.
  - exact (counted_indexed_sorted _ _ wordCount_counted).
  - intros i Hi'. now apply indexed_key_string.
Qed.

Lemma indexed_entry (i : N) (c : CountValue) :
  In (i, c) (indexed wordCount) -> c = Count (occurrences (N_to_string i) words).
Proof.
  intros Hin.
  assert (Hi : In i (map fst (indexed wordCount))) by (now apply (in_map fst) in Hin).
  destruct (indexed_key_string i Hi) as [Hidx _].
  pose proof (counted_get _ _ wordCount_counted (N_to_string i)) as Hg.
  unfold get_own in Hg. rewrite Hidx in Hg.
  rewrite (assoc_NoDup_In N.eqb i c _ N.eqb_eq indexed_NoDup Hin) in Hg.
  destruct (0 <? occurrences (N_to_string i) words); congruence.
Qed.

Lemma named_entry (k : string) (c : CountValue) :
  In (k, c) (named wordCount) -> c = Count (occurrences k words).
Proof.
  intros Hin.
  assert (Hk : In k (map fst (named wordCount))) by (now apply (in_map fst) in Hin).
  destruct (counted_named_keys _ _ wordCount_counted k Hk) as [_ Hidx].
  pose proof (counted_get _ _ wordCount_counted k) as Hg.
  unfold get_own in Hg. rewrite Hidx in Hg.
  rewrite (assoc_NoDup_In String.eqb k c _ String.eqb_eq named_NoDup Hin) in Hg.
  destruct (0 <? occurrences k words); congruence.
Qed.

Lemma density_entries :
  Object_entries (fold_left (density_step totalWords) (Object_entries wordCount) empty_object)
  = map (entry_of words) (key_order wordCount).
Proof.
  rewrite density_object. unfold Object_entries, key_order. cbn [indexed named].
  rewrite map_app, !map_map. f_equal.
  - apply map_ext_in. intros [i c] Hin. unfold percent_indexed. cbn [fst snd].
    rewrite (indexed_entry i c Hin), percentage_count. reflexivity.
  - apply map_ext_in. intros [k c] Hin. unfold percent_named. cbn [fst snd].
    rewrite (named_entry k c Hin), percentage_count. reflexivity.
Qed.

Lemma key_order_words (w : string) : In w (key_order wordCount) <-> In w words.
Proof.
  unfold key_order. rewrite in_app_iff. split.
  - intros [H|H].
    + apply in_map_iff in H as (i & <- & Hi). exact (proj2 (indexed_key_string i Hi)).
    + now apply (counted_named_keys _ _ wordCount_counted).
  - intros Hw. destruct (array_index w) as [i|] eqn:E.
    + left. pose proof (counted_get _ _ wordCount_counted w) as Hg.
      apply occurrences_In in Hw. apply Z.ltb_lt in Hw. rewrite Hw in Hg.
      unfold get_own in Hg. rewrite E in Hg.
      apply assoc_In in Hg; [|intros a b; apply N.eqb_eq].
      apply (in_map fst) in Hg. simpl in Hg.
      apply in_map_iff. exists i. split; [now apply (array_index_canonical w) | exact Hg].
    + right. exact (named_key_known words wordCount w wordCount_counted E Hw).
Qed.

Lemma key_order_sorted : StronglySorted (key_before words) (key_order wordCount).
Proof.
  unfold key_order. apply StronglySorted_app.
  - eapply StronglySorted_map_in; [|exact (counted_indexed_sorted _ _ wordCount_counted)].
    intros a b Ha Hb Hab. unfold key_before.
    destruct (indexed_key_string a Ha) as [-> _].
    destruct (indexed_key_string b Hb) as [-> _]. exact Hab.
  - eapply StronglySorted_ext_in; [|exact (counted_named_sorted _ _ wordCount_counted)].
    intros a b Ha Hb Hab. unfold key_before.
    destruct (counted_named_keys _ _ wordCount_counted a Ha) as [_ ->].
    destruct (counted_named_keys _ _ wordCount_counted b Hb) as [_ ->]. exact Hab.
  - intros a b Ha Hb. unfold key_before.
    apply in_map_iff in Ha as (i & <- & Hi).
    destruct (indexed_key_string i Hi) as [-> _].
    destruct (counted_named_keys _ _ wordCount_counted b Hb) as [_ ->]. exact I.
Qed.



Lemma density_lookup (w : string) :
  get_own w (fold_left (density_step totalWords) (Object_entries wordCount) empty_object)
  = if 0 <? occurrences w words then Some (Finite (share words w)) else None.
Proof.
  rewrite density_object.
  pose proof (counted_get _ _ wordCount_counted w) as Hg.
  unfold get_own in *. cbn [indexed named].
  destruct (array_index w) as [i|]; unfold percent_indexed, percent_named;
    rewrite (assoc_map_values _ (fun c => percentage c totalWords)), Hg;
    (destruct (0 <? occurrences w words); cbn [option_map];
     [rewrite percentage_count | ]; reflexivity).
Qed.
End Ranking.



(** ** The words are in lower case *)
Lemma lower_char_lower (c : ascii) : between 65 90 (lower_char c) = false.
Proof.
  destruct c as [[] [] [] [] [] [] [] []]; reflexivity.
Qed.

Lemma toLowerCase_lower (s : string) : lower_only (toLowerCase s) = true.
Proof.
  induction s as [|c s IH]; [reflexivity|].
  unfold lower_only, toLowerCase in *. simpl. now rewrite lower_char_lower, IH.
Qed.

Lemma filter_string_lower (f : ascii -> bool) (s : string) :
  lower_only s = true -> lower_only (filter_string f s) = true.
Proof.
  unfold lower_only. induction s as [|c s IH]; [reflexivity|].
  simpl. intros H. apply andb_prop in H as [Hc Hs].
  destruct (f c); simpl; [rewrite Hc|]; now apply IH.
Qed.

Lemma string_of_rev_lower (acc : list ascii) (tail : string) :
  forallb (fun c => negb (between 65 90 c)) acc = true -> lower_only tail = true ->
  lower_only (string_of_rev acc tail) = true.
Proof.
  revert tail. induction acc as [|c acc IH]; intros tail Hacc Ht; [exact Ht|].
  simpl in *. apply andb_prop in Hacc as [Hc Hacc]. apply IH; [exact Hacc|].
  unfold lower_only. simpl. now rewrite Hc.
Qed.

Lemma split_runs_lower (sep : ascii -> bool) (s : string) :
  forall in_run cur,
    forallb (fun c => negb (between 65 90 c)) cur = true -> lower_only s = true ->
    forallb lower_only (split_runs sep in_run cur s) = true.
Proof.
  induction s as [|c s IH]; intros in_run cur Hcur Hs.
  - simpl. now rewrite string_of_rev_lower.
  - unfold lower_only in Hs. simpl in Hs. apply andb_prop in Hs as [Hc Hs].
    cbn [split_runs]. destruct (sep c).
    + destruct in_run; [now apply IH|].
      cbn [forallb]. rewrite string_of_rev_lower by easy. now apply IH.
    + apply IH; [|exact Hs]. simpl. now rewrite Hc.
Qed.

Lemma keyword_words_lower (text : string) :
  forallb lower_only (keyword_words text) = true.
Proof.
  unfold keyword_words. apply forallb_forall. intros w Hw.
  apply filter_In in Hw as [Hw _].
  assert (H : forallb lower_only
                (split is_space
                   (filter_string (fun c => is_word_char c || is_space c)
                      (toLowerCase (String.substring 0 5000 text)))) = true).
  { apply split_runs_lower; [reflexivity|].
    apply filter_string_lower, toLowerCase_lower. }
  rewrite forallb_forall in H. now apply H.
Qed.

Lemma lower_inherits (w : string) :
  lower_only w = true -> inherited_name w = false -> inherits_nothing w = true.
Proof.
  unfold inherited_name, inherits_nothing, Object_prototype_text. intros Hl Hn.
  apply orb_false_elim in Hn as [Hc Hp]. rewrite Hp. cbn [existsb].
  rewrite Hc. cbn [orb].
  repeat match goal with
         | |- context [(w =? ?name)%string] =>
             destruct (w =? name)%string eqn:E;
             [apply String.eqb_eq in E; subst w; discriminate Hl | clear E]
         end.
  reflexivity.
Qed.

Lemma keyword_words_plain (text : string) :
  existsb inherited_name (keyword_words text) = false ->
  forallb inherits_nothing (keyword_words text) = true.
Proof.
  intros H. apply forallb_forall. intros w Hw. apply lower_inherits.
  - pose proof (keyword_words_lower text) as Hl. rewrite forallb_forall in Hl. now apply Hl.
  - destruct (inherited_name w) eqn:E; [|reflexivity].
    assert (existsb inherited_name (keyword_words text) = true)
      by (apply existsb_exists; eauto).
    congruence.
Qed.





(** The ranking on a small text. *)
Example keywords_example :
  suggestions (analyzeKeywords keywords_text)
  = ["beta"; "alpha"; "1000"; "2024"; "gamma"].
Proof. vm_compute. reflexivity. Qed.

(** * Further properties *)

(** ** Links: totals and the exception *)

Section LinkTotals.
Variable URL_hostname : string -> option string.
Variable baseUrl : string.

Lemma links_step_totals (c c' : LinkCounts) (x : Element) (g g' : Rng) :
  links_step URL_hostname baseUrl c x g = Normal c' g' ->
  c_nofollow c' + c_dofollow c' = c_nofollow c + c_dofollow c + 1 /\
  c_internal c <= c_internal c' /\ c_external c <= c_external c' /\
  c_internal c' + c_external c' <= c_internal c + c_external c + 1.
Proof.
  unfold links_step, external_test, internal_test, new_URL_hostname, bind, ret, throw.
  set (href := or_else "" (getAttribute "href" x)).
  set (rel := or_else "" (getAttribute "rel" x)).
  destruct (URL_hostname baseUrl) as [h|];
    destruct (startsWith href "http"); try destruct (includes href h);
    destruct (startsWith href "/"); destruct (includes rel "nofollow");
    simpl; intros H; try discriminate H; injection H as <- _; simpl; lia.
Qed.

Lemma links_loop_totals (l : list Element) :
  forall c c' g g',
    forEach (links_step URL_hostname baseUrl) l c g = Normal c' g' ->
    c_nofollow c' + c_dofollow c' = c_nofollow c + c_dofollow c + len l /\
    c_internal c <= c_internal c' /\ c_external c <= c_external c' /\
    c_internal c' + c_external c' <= c_internal c + c_external c + len l.
Proof.
  induction l as [|x l IH]; intros c c' g g' H.
  - simpl in H. injection H as <- _. unfold len. simpl. lia.
  - cbn [forEach] in H. unfold bind at 1 in H.
    destruct (links_step URL_hostname baseUrl c x g) as [c1 g1|] eqn:Hs; [|discriminate H].
    apply links_step_totals in Hs. apply IH in H. rewrite len_cons. lia.
Qed.

Lemma links_step_invalid (c : LinkCounts) (x : Element) (g : Rng) :
  URL_hostname baseUrl = None ->
  links_step URL_hostname baseUrl c x g =
  if root_relative x
  then Normal {| c_internal := c_internal c + 1;
                 c_external := c_external c;
                 c_nofollow := c_nofollow c + (if includes (rel_of x) "nofollow" then 1 else 0);
                 c_dofollow := c_dofollow c
                               + (if negb (includes (rel_of x) "nofollow") then 1 else 0) |} g
  else Thrown (TypeError "Invalid URL") g.
Proof.
  intros Hnone.
  unfold links_step, external_test, internal_test, new_URL_hostname, bind, ret, throw.
  rewrite Hnone. unfold root_relative, href_of, rel_of.
  set (href := or_else "" (getAttribute "href" x)).
  set (rel := or_else "" (getAttribute "rel" x)).
  destruct (startsWith href "/") eqn:Hs.
  - rewrite (slash_not_http _ Hs).
    destruct (includes rel "nofollow"); simpl; f_equal; f_equal; lia.
  - destruct (startsWith href "http"); reflexivity.
Qed.

Lemma links_loop_invalid (l : list Element) :
  URL_hostname baseUrl = None ->
  forall c g,
    forEach (links_step URL_hostname baseUrl) l c g =
    if forallb root_relative l
    then Normal {| c_internal := c_internal c + len l;
                   c_external := c_external c;
                   c_nofollow := c_nofollow c + count (fun a => includes (rel_of a) "nofollow") l;
                   c_dofollow := c_dofollow c
                                 + count (fun a => negb (includes (rel_of a) "nofollow")) l |} g
    else Thrown (TypeError "Invalid URL") g.
Proof.
  intros Hnone. induction l as [|x l IH]; intros c g.
  - unfold count, len. simpl. unfold ret. destruct c; simpl. f_equal. f_equal; lia.
  - cbn [forEach forallb]. unfold bind at 1. rewrite (links_step_invalid c x g Hnone).
    destruct (root_relative x); [|reflexivity].
    cbn [andb]. rewrite IH. destruct (forallb root_relative l); [|reflexivity].
    rewrite len_cons, !count_cons. cbn [c_internal c_external c_nofollow c_dofollow].
    f_equal. f_equal; lia.
Qed.
End LinkTotals.

(** X11. Every anchor with an [href] is counted once as nofollow or as
    dofollow, so the two counts add up to the number of such anchors; an
    anchor is counted at most once as internal or external; [broken] is 0 or
    1; and the link analysis throws only when [new URL] rejects the page's
    URL. *)
Theorem links_totals (URL_hostname : string -> option string) (doc : Document)
    (baseUrl : string) (g : Rng) :
  match analyzeLinks URL_hostname doc baseUrl g with
  | Normal l _ =>
      nofollow l + dofollow l = len (link_elements doc) /\
      0 <= internal l /\ 0 <= external l /\
      internal l + external l <= len (link_elements doc) /\
      0 <= nofollow l /\ 0 <= dofollow l /\
      0 <= broken l <= 1
  | Thrown _ _ => URL_hostname baseUrl = None
  end.
Proof.
  unfold analyzeLinks. unfold bind at 1. fold (link_elements doc).
  destruct (forEach (links_step URL_hostname baseUrl) (link_elements doc) (mkCounts 0 0 0 0) g)
    as [c g1 | e g1] eqn:Hl.
  - unfold bind, Math_random, ret. cbn [nofollow dofollow internal external broken].
    pose proof (links_loop_totals _ _ _ _ _ _ _ Hl) as Ht. cbn in Ht.
    pose proof (floor_scaled_draw (g1 0%nat) 2 ltac:(lia)) as Hb.
    change (inject_Z 2) with 2%Q in Hb.
    assert (Hn : 0 <= c_nofollow c /\ 0 <= c_dofollow c).
    { destruct (URL_hostname baseUrl) as [host|] eqn:E.
      - rewrite (links_loop_counts URL_hostname baseUrl host E) in Hl. injection Hl as <- _.
        cbn. split; apply len_nonneg.
      - rewrite (links_loop_invalid URL_hostname baseUrl _ E) in Hl.
        destruct (forallb root_relative (link_elements doc)); [|discriminate Hl].
        injection Hl as <- _. cbn. split; apply len_nonneg. }
    lia.
  - eapply links_loop_throws. eassumption.
Qed.

(** X12. When [new URL] rejects the page's URL, the link analysis still
    returns if every [href] starts with ['/'] (the host name is never needed:
    all links count as internal, none as external), and throws the
    [TypeError] of [new URL] as soon as one [href] does not. *)
Theorem links_invalid_base (URL_hostname : string -> option string) (doc : Document)
    (baseUrl : string) (g : Rng) :
  URL_hostname baseUrl = None ->
  if forallb root_relative (link_elements doc)
  then exists l g',
         analyzeLinks URL_hostname doc baseUrl g = Normal l g' /\
         internal l = len (link_elements doc) /\ external l = 0
  else analyzeLinks URL_hostname doc baseUrl g = Thrown (TypeError "Invalid URL") g.
Proof.
  intros Hnone.
  pose proof (links_loop_invalid URL_hostname baseUrl (link_elements doc) Hnone
                (mkCounts 0 0 0 0) g) as Hl.
  destruct (forallb root_relative (link_elements doc)).
  - unfold analyzeLinks. unfold bind at 1. fold (link_elements doc). rewrite Hl.
    unfold bind, Math_random, ret. eexists _, _. split; [reflexivity|].
    cbn. split; lia.
  - unfold analyzeLinks. unfold bind at 1. fold (link_elements doc). now rewrite Hl.
Qed.

(** A page URL without a scheme and one anchor with a relative [href]. *)
Lemma links_invalid_base_witness :
  URL_hostname_basic "example.com" = None /\
  (if forallb root_relative (link_elements doc_relative_link)
   then exists l g',
          analyzeLinks URL_hostname_basic doc_relative_link "example.com"
            (constant_rng draw_zero) = Normal l g' /\
          internal l = len (link_elements doc_relative_link) /\ external l = 0
   else analyzeLinks URL_hostname_basic doc_relative_link "example.com"
          (constant_rng draw_zero)
        = Thrown (TypeError "Invalid URL") (constant_rng draw_zero)).
Proof.
  split; [reflexivity|].
  apply (links_invalid_base URL_hostname_basic doc_relative_link "example.com"
           (constant_rng draw_zero)). reflexivity.
Defined.

(** ** How a report is assembled *)

Lemma bind_Normal_inv {A B : Type} (m : M A) (k : A -> M B) (g g' : Rng) (b : B) :
  bind m k g = Normal b g' -> exists a g1, m g = Normal a g1 /\ k a g1 = Normal b g'.
Proof.
  unfold bind. destruct (m g) as [a g1|]; [|discriminate]. intros H. now exists a, g1.
Qed.

Lemma parseDocument_assembled (JSON_parse : string -> option JSON)
    (URL_hostname : string -> option string) (doc : Document) (url : string)
    (g g' : Rng) (r : SEOAnalysis.t) :
  parseDocument JSON_parse URL_hostname doc url g = Normal r g' ->
  assembled JSON_parse doc url r /\
  exists g1 g1', analyzeLinks URL_hostname doc url g1 = Normal (SEOAnalysis.links r) g1'.
Proof.
  unfold parseDocument. cbv zeta. intros H.
  apply bind_Normal_inv in H as (images & g1 & Him & H).
  apply bind_Normal_inv in H as (links & g2 & Hli & H).
  apply bind_Normal_inv in H as (content & g3 & Hco & H).
  apply bind_Normal_inv in H as (mobile & g4 & Hmo & H).
  apply bind_Normal_inv in H as (images' & g5 & Him' & H).
  apply bind_Normal_inv in H as (accessibility & g6 & Hac & H).
  apply bind_Normal_inv in H as (security & g7 & Hse & H).
  apply bind_Normal_inv in H as (scores & g8 & Hsc & H).
  apply bind_Normal_inv in H as (r1 & g9 & _ & H).
  apply bind_Normal_inv in H as (r2 & g10 & _ & H).
  apply bind_Normal_inv in H as (r3 & g11 & _ & H).
  unfold ret in H. injection H as <- _.
  split; [constructor|]; cbn [SEOAnalysis.images SEOAnalysis.content SEOAnalysis.mobile
    SEOAnalysis.accessibility SEOAnalysis.technicalIssues SEOAnalysis.title
    SEOAnalysis.metaDescription SEOAnalysis.headings SEOAnalysis.canonicalUrl
    SEOAnalysis.keywords SEOAnalysis.socialMedia SEOAnalysis.scores SEOAnalysis.score
    SEOAnalysis.links SEOAnalysis.recommendations SEOAnalysis.openGraph
    SEOAnalysis.twitterCard SEOAnalysis.url SEOAnalysis.structuredData]; eauto 8.
Qed.

(** ** Recommendations: the rules in order *)

Lemma push_rules (rules : list (bool * string)) :
  forall r,
    fold_left (fun acc rule => push_if (fst rule) (snd rule) acc) rules r =
    (r ++ map snd (List.filter fst rules))%list.
Proof.
  induction rules as [|[c s] rules IH]; intros r.
  - simpl. now rewrite app_nil_r.
  - cbn [fold_left fst snd List.filter]. rewrite IH. unfold push_if.
    destruct c; cbn [map snd]; [now rewrite <- app_assoc | reflexivity].
Qed.

Lemma recommendations_rules (issues : TechnicalIssues) (scores : DetailedScores.t)
    (keywords : KeywordsAnalysis) (content : ContentAnalysis) (images : ImagesAnalysis)
    (links : LinksAnalysis) :
  generateComprehensiveRecommendations issues scores keywords content images links =
  map snd (List.filter fst (recommendation_rules issues scores content images links)).
Proof.
  rewrite <- (app_nil_l (map snd _)), <- push_rules. reflexivity.
Qed.

Lemma filtered_precedes (rules : list (bool * string)) (l1 l2 l3 : list (bool * string))
    (a b : string) :
  rules = (l1 ++ (true, a) :: l2 ++ (true, b) :: l3)%list ->
  precedes a b (map snd (List.filter fst rules)).
Proof.
  intros ->. unfold precedes.
  exists (map snd (List.filter fst l1)), (map snd (List.filter fst l2)),
         (map snd (List.filter fst l3)).
  rewrite filter_app. cbn [List.filter fst]. rewrite filter_app. cbn [List.filter fst].
  rewrite map_app. cbn [map snd]. rewrite map_app. reflexivity.
Qed.

(** ** Floors of the scores *)

Ltac split_conditions :=
  repeat match goal with
         | |- context [if ?b then _ else _] => destruct b eqn:?
         end;
  repeat match goal with
         | H : (_ <? _) = true |- _ => apply Z.ltb_lt in H
         end.

Lemma calculateDetailedScores_floors title metaDescription headings images issues content
    links mobile accessibility socialMedia (g : Rng) :
  exists s g',
    calculateDetailedScores title metaDescription headings images issues content
      links mobile accessibility socialMedia g = Normal s g' /\
    (10 <= DetailedScores.technical s /\
     20 <= DetailedScores.content s /\
     80 <= DetailedScores.performance s <= 99 /\
     10 <= DetailedScores.accessibility s /\
     35 <= DetailedScores.social s) /\
    (missingTitle issues && titleTooLong issues = false ->
     missingMetaDescription issues && metaDescriptionTooLong issues = false ->
     30 <= DetailedScores.technical s) /\
    (DetailedScores.technical s mod 5 = 0 /\ DetailedScores.content s mod 5 = 0 /\
     DetailedScores.accessibility s mod 5 = 0 /\ DetailedScores.social s mod 5 = 0).
Proof.
  unfold calculateDetailedScores, bind, Math_random, ret. cbv beta iota zeta.
  eexists _, _. split; [reflexivity|].
  pose proof (floor_scaled_draw (g 0%nat) 20 ltac:(lia)) as Hp.
  change (inject_Z 20) with 20%Q in Hp.
  cbn [DetailedScores.technical DetailedScores.content DetailedScores.performance
       DetailedScores.accessibility DetailedScores.social].
  unfold deduct.
  split; [|split].
  - split; [|split; [|split; [|split]]]; split_conditions; lia.
  - intros Ht Hd.
    destruct (missingTitle issues); destruct (titleTooLong issues); try discriminate Ht;
      destruct (missingMetaDescription issues); destruct (metaDescriptionTooLong issues);
      try discriminate Hd;
      destruct (duplicateH1 issues); destruct (missingCanonical issues); lia.
  - split; [|split; [|split]]; split_conditions;
      try reflexivity.
    all: match goal with
         | |- ?x mod 5 = 0 =>
             pose proof (Z.div_mod x 5 ltac:(lia));
             pose proof (Z.mod_pos_bound x 5 ltac:(lia));
             generalize dependent (x / 5); generalize dependent (x mod 5); intros; lia
         end.
Qed.

Lemma issues_exclusive (doc : Document) (title metaDescription : string)
    (headings : HeadingsStructure) (images : ImagesAnalysis) (canonicalUrl : string) :
  let issues := checkTechnicalIssues doc title metaDescription headings images canonicalUrl in
  missingTitle issues && titleTooLong issues = false /\
  missingMetaDescription issues && metaDescriptionTooLong issues = false.
Proof.
  unfold checkTechnicalIssues.
  cbn [missingTitle titleTooLong missingMetaDescription metaDescriptionTooLong].
  split; [destruct title | destruct metaDescription]; reflexivity.
Qed.

Lemma report_score_facts (JSON_parse : string -> option JSON)
    (URL_hostname : string -> option string) (doc : Document) (url : string)
    (g g' : Rng) (r : SEOAnalysis.t) :
  parseDocument JSON_parse URL_hostname doc url g = Normal r g' ->
  let s := SEOAnalysis.scores r in
  (30 <= DetailedScores.technical s /\ 20 <= DetailedScores.content s /\
   80 <= DetailedScores.performance s <= 99 /\ 10 <= DetailedScores.accessibility s /\
   35 <= DetailedScores.social s) /\
  (DetailedScores.technical s mod 5 = 0 /\ DetailedScores.content s mod 5 = 0 /\
   DetailedScores.accessibility s mod 5 = 0 /\ DetailedScores.social s mod 5 = 0).
Proof.
  intros H s. destruct (parseDocument_assembled _ _ _ _ _ _ _ H) as [Ha _].
  destruct (as_scores _ _ _ _ Ha) as (gs & gs' & Hs).
  match type of Hs with
  | calculateDetailedScores ?a ?b ?c ?d ?e ?f ?h ?i ?j ?k ?g2 = _ =>
      destruct (calculateDetailedScores_floors a b c d e f h i j k g2)
        as (s' & g2' & Hs' & Hfloor & Htech & Hfive)
  end.
  rewrite Hs in Hs'. injection Hs' as <- _. fold s in Hfloor, Htech, Hfive.
  split; [|exact Hfive].
  rewrite (as_issues _ _ _ _ Ha) in Htech.
  destruct (issues_exclusive doc (SEOAnalysis.title r) (SEOAnalysis.metaDescription r)
              (SEOAnalysis.headings r) (SEOAnalysis.images r) (SEOAnalysis.canonicalUrl r))
    as [Ht Hd].
  specialize (Htech Ht Hd). tauto.
Qed.

(** ** The page analysis: cache and fallback *)

(** When a parse throws, and what it throws. *)
Lemma parseDocument_throws (JSON_parse : string -> option JSON)
    (URL_hostname : string -> option string) (doc : Document) (url : string) (g : Rng) :
  match parseDocument JSON_parse URL_hostname doc url g with
  | Normal _ _ =>
      URL_hostname url <> None \/ forallb root_relative (link_elements doc) = true
  | Thrown e _ =>
      e = TypeError "Invalid URL" /\ URL_hostname url = None /\
      forallb root_relative (link_elements doc) = false
  end.
Proof.
  unfold_extractors. images_loop_at doc. fold (link_elements doc).
  destruct (URL_hostname url) as [host|] eqn:E.
  - rewrite (links_loop_counts URL_hostname url host E). images_loop_at doc.
    match goal with
    | |- context [calculateDetailedScores ?a ?b ?c ?d ?e ?f ?h ?i ?j ?k ?g2] =>
        destruct (calculateDetailedScores_range a b c d e f h i j k g2) as (s & g5 & -> & Hs)
    end.
    left. discriminate.
  - rewrite (links_loop_invalid URL_hostname url _ E).
    destruct (forallb root_relative (link_elements doc)).
    + images_loop_at doc.
      match goal with
      | |- context [calculateDetailedScores ?a ?b ?c ?d ?e ?f ?h ?i ?j ?k ?g2] =>
          destruct (calculateDetailedScores_range a b c d e f h i j k g2) as (s & g5 & -> & Hs)
      end.
      now right.
    + auto.
Qed.

(** X3. The pipeline never produces the sample report: the technical score
    of a parsed report is 100 less multiples of 5, and the sample's is 88. *)
Theorem sample_is_no_report (JSON_parse : string -> option JSON)
    (URL_hostname : string -> option string) (doc : Document) (url url' : string) (g : Rng) :
  value_of (parseDocument JSON_parse URL_hostname doc url g)
  <> Some (getComprehensiveSampleAnalysis url').
Proof.
  destruct (parseDocument JSON_parse URL_hostname doc url g) as [r g1|e g1] eqn:Hp;
    cbn [value_of]; [|discriminate].
  intros [= Hr].
  destruct (report_score_facts _ _ _ _ _ _ _ Hp) as [_ (Hfive & _)].
  rewrite Hr in Hfive. discriminate Hfive.
Qed.

(** X1. No call of [analyzePage] is rejected, in whatever order calls and
    replies come.  A call that finds its URL in the cache resolves with the
    entry at once, without changing the cache, the draws or the waiting
    calls.  When the reply of a waiting call arrives, the call resolves and
    the cache then holds what it resolved with under its URL; the entries of
    the other URLs are untouched.  No entry is ever removed.  An entry whose
    URL no call waits for is final: it stays as it is and every later call
    for the URL resolves with it.  (An entry can still be replaced by a call
    for the same URL that was already waiting when it was written.) *)
Theorem analyzePage_cache (JSON_parse : string -> option JSON)
    (URL_hostname : string -> option string) (DOMParser_parseFromString : string -> Document)
    (w : World) :
  (forall url cached,
     w_cache w !! url = Some cached ->
     step JSON_parse URL_hostname DOMParser_parseFromString (Call url) w
     = (w, Some (Resolved cached))) /\
  (forall i url net,
     w_pending w !! i = Some url ->
     let after := step JSON_parse URL_hostname DOMParser_parseFromString (Reply i net) w in
     exists a,
       snd after = Some (Resolved a) /\
       w_cache (fst after) !! url = Some a /\
       (forall other, other <> url -> w_cache (fst after) !! other = w_cache w !! other) /\
       w_pending (fst after) = delete i (w_pending w)) /\
  (forall events,
     let after := run JSON_parse URL_hostname DOMParser_parseFromString events w in
     (forall k p, snd after !! k = Some (Some p) -> exists a, p = Resolved a) /\
     (forall url, is_Some (w_cache w !! url) -> is_Some (w_cache (fst after) !! url)) /\
     (forall url a,
        w_cache w !! url = Some a -> url ∉ w_pending w ->
        w_cache (fst after) !! url = Some a /\
        forall k, events !! k = Some (Call url) ->
                  snd after !! k = Some (Some (Resolved a)))).
Proof.
  split; [|split].
  - intros url cached Hc. cbn [step]. now rewrite Hc.
  - intros i url net Hi after. unfold after. cbn [step]. rewrite Hi.
    destruct (analyzePage_settle_writes JSON_parse URL_hostname DOMParser_parseFromString
                url net (w_cache w) (w_rng w)) as (a & g' & ->).
    cbn [fst snd analysisCache rng settled w_cache w_pending].
    exists a. split; [reflexivity|]. split; [apply lookup_insert_eq|].
    split; [|reflexivity]. intros other Hne. apply lookup_insert_ne. congruence.
  - intros events after. unfold after. split; [|split].
    + intros k p. apply run_resolves.
    + intros url. apply run_keeps_urls.
    + intros url a Hc Hp. now apply run_keeps_entry.
Qed.

(** X2. For a URL that is not cached and a request that delivers HTML,
    [analyzePage] resolves with the sample report exactly when parsing
    throws, which is when [new URL] rejects the page's URL and the [href] of
    some anchor does not start with ['/']. *)
Theorem reply_answered_with_sample (JSON_parse : string -> option JSON)
    (URL_hostname : string -> option string) (DOMParser_parseFromString : string -> Document)
    (url html : string) (cache : gmap string SEOAnalysis.t) (g : Rng) :
  cache !! url = None ->
  settled (analyzePage JSON_parse URL_hostname DOMParser_parseFromString url (Replies html)
             cache g)
  = Resolved (getComprehensiveSampleAnalysis url)
  <->
  URL_hostname url = None /\
  forallb root_relative (link_elements (DOMParser_parseFromString html)) = false.
Proof.
  intros Hmiss. unfold analyzePage, analyzePage_settle. rewrite Hmiss.
  unfold fetch_and_parse, parseHTML.
  pose proof (parseDocument_throws JSON_parse URL_hostname (DOMParser_parseFromString html)
                url g) as Ht.
  destruct (parseDocument JSON_parse URL_hostname (DOMParser_parseFromString html) url g)
    as [r g1|e g1] eqn:Hp; cbn [settled].
  - split.
    + intros [= Hr].
      destruct (report_score_facts _ _ _ _ _ _ _ Hp) as [_ (Hfive & _)].
      rewrite Hr in Hfive. discriminate Hfive.
    + intros [Hu Hl]. destruct Ht as [Ht|Ht]; congruence.
  - split; [intros _; tauto | reflexivity].
Qed.

(** The same page: its URL has no scheme and its one anchor is relative. *)
Lemma reply_answered_with_sample_witness :
  (∅ : gmap string SEOAnalysis.t) !! "example.com" = None /\
  (settled (analyzePage JSON_parse_basic URL_hostname_basic (fun _ => doc_relative_link)
              "example.com" (Replies "<a href=about.html>About</a>") ∅
              (constant_rng draw_zero))
   = Resolved (getComprehensiveSampleAnalysis "example.com")
   <->
   URL_hostname_basic "example.com" = None /\
   forallb root_relative (link_elements doc_relative_link) = false).
Proof.
  split; [reflexivity|].
  apply (reply_answered_with_sample JSON_parse_basic URL_hostname_basic
           (fun _ => doc_relative_link)). reflexivity.
Defined.

(** ** The report: draws, simulated metrics, consistency *)

Lemma advance_add (a b : nat) : forall g, advance (a + b) g = advance b (advance a g).
Proof. induction a as [|a IH]; intros g; [reflexivity|]. cbn [Nat.add advance]. apply IH. Qed.

(** The draw at position [k] after [n] calls is the draw at [n + k]. *)
Lemma advance_at (n : nat) : forall g k, advance n g k = g (n + k)%nat.
Proof.
  induction n as [|n IH]; intros g k; [reflexivity|].
  cbn [advance]. rewrite IH. reflexivity.
Qed.

Lemma images_loop_draws (l : list Element) :
  forall acc g, exists acc',
    forEach images_step l acc g = Normal acc' (advance (length l) g).
Proof.
  induction l as [|x l IH]; intros [m o] g.
  - eexists. reflexivity.
  - cbn [forEach]. unfold bind at 1. unfold images_step, bind, Math_random, ret.
    cbn [length advance]. apply IH.
Qed.

(** X4. A parse that returns has called [Math.random] exactly [2 n + 11]
    times, where [n] is the number of [img] elements: the images are
    analysed twice.  A parse that throws has called it [n + 1] times. *)
Theorem parseDocument_draws (JSON_parse : string -> option JSON)
    (URL_hostname : string -> option string) (doc : Document) (url : string) (g : Rng) :
  match parseDocument JSON_parse URL_hostname doc url g with
  | Normal _ g' => g' = advance (2 * length (image_elements doc) + 11) g
  | Thrown _ g' => g' = advance (length (image_elements doc) + 1) g
  end.
Proof.
  unfold_extractors. fold (image_elements doc).
  destruct (images_loop_draws (image_elements doc) ([], []) g) as [acc ->].
  set (n := length (image_elements doc)).
  destruct (links_loop_pure URL_hostname url (link_elements doc) (mkCounts 0 0 0 0)) as [r Hr].
  fold (link_elements doc). rewrite Hr. destruct r as [e|c]; cbn [pure_of].
  - rewrite advance_add. reflexivity.
  - match goal with
    | |- context [forEach images_step _ _ ?g2] =>
        destruct (images_loop_draws (image_elements doc) ([], []) g2) as [acc' ->]
    end.
    fold n.
    unfold calculateDetailedScores, bind, Math_random, ret. cbv beta iota zeta.
    transitivity
      (advance 3 (advance 1 (advance 1 (advance 1 (advance 1 (advance n
         (advance 1 (advance 1 (advance 1 (advance 1 (advance n g))))))))))).
    + reflexivity.
    + rewrite <- !advance_add. f_equal. lia.
Qed.

Lemma draw_scaled (d : Draw) (a b : Q) :
  (0 < a)%Q -> (b <= draw_val d * a + b)%Q /\ (draw_val d * a + b < a + b)%Q.
Proof.
  intros Ha. destruct (draw_bounds d) as [H0 H1]. split.
  - rewrite <- (Qplus_0_l b) at 1. apply Qplus_le_l. apply Qmult_le_0_compat; [exact H0|].
    now apply Qlt_le_weak.
  - apply Qplus_lt_l. rewrite <- (Qmult_1_l a) at 2. now apply Qmult_lt_compat_r.
Qed.

(** X5. The simulated metrics of a report stay in their ranges: the load
    time in [0.5, 2.5], the page size in [300, 1800), the requests in
    [15, 44], the total image size in [500, 3499], and [broken] in [0, 1].
    The load time is the exact sum here and the double nearest to it in the
    source, which is 2.5 itself for the largest draw: the upper bound is
    closed.  The bounds hold of the rounded values as well, closed: of the
    load time and of the page size with its product and its sum rounded, for
    every rounding that is monotone and keeps the bounds. *)
Theorem report_simulated_metrics (JSON_parse : string -> option JSON)
    (URL_hostname : string -> option string) (doc : Document) (url : string) (g : Rng) :
  match parseDocument JSON_parse URL_hostname doc url g with
  | Normal r _ =>
      let p := SEOAnalysis.performance r in
      ((1 # 2) <= loadTime p)%Q /\ (loadTime p <= (5 # 2))%Q /\
      (forall rnd : Q -> Q,
         (forall x y, (x <= y)%Q -> (rnd x <= rnd y)%Q) ->
         (rnd (1 # 2) == 1 # 2)%Q -> (rnd (5 # 2) == 5 # 2)%Q ->
         (rnd 0 == 0)%Q -> (rnd 1500 == 1500)%Q ->
         (rnd 300 == 300)%Q -> (rnd 1800 == 1800)%Q ->
         ((1 # 2) <= rnd (loadTime p))%Q /\ (rnd (loadTime p) <= (5 # 2))%Q /\
         (300 <= rnd (rnd (pageSize p - 300) + 300))%Q /\
         (rnd (rnd (pageSize p - 300) + 300) <= 1800)%Q) /\
      (300 <= pageSize p)%Q /\ (pageSize p < 1800)%Q /\
      15 <= requests p <= 44 /\
      500 <= totalSize (SEOAnalysis.images r) <= 3499 /\
      0 <= broken (SEOAnalysis.links r) <= 1
  | Thrown _ _ => URL_hostname url = None
  end.
Proof.
  unfold_extractors. images_loop_at doc.
  match goal with
  | |- context [forEach (links_step _ _) ?l ?c ?g2] =>
      destruct (forEach (links_step URL_hostname url) l c g2) as [c' g3 | e g3] eqn:Hl
  end.
  - images_loop_at doc.
    unfold calculateDetailedScores, bind, Math_random, ret. cbv beta iota zeta.
    cbn [SEOAnalysis.performance SEOAnalysis.images SEOAnalysis.links
         loadTime pageSize requests totalSize broken].
    repeat match goal with
           | |- context [Math_floor (draw_val ?d * ?q)] =>
               lazymatch goal with
               | _ : context [Math_floor (draw_val d * q)] |- _ => fail
               | _ => idtac
               end;
               let n := eval cbv in (Qnum q) in
               let H := fresh "Hf" in
               pose proof (floor_scaled_draw d n ltac:(lia)) as H;
               change (inject_Z n) with q in H
           end.
    match goal with
    | |- (_ <= draw_val ?d1 * 2 + _)%Q /\ _ /\ _ /\
         (_ <= draw_val ?d2 * 1500 + _)%Q /\ _ =>
        destruct (draw_scaled d1 2 (5 # 10) ltac:(reflexivity)) as [Ha Hb];
        destruct (draw_scaled d2 1500 300 ltac:(reflexivity)) as [Hc Hd];
        assert (Hlo : ((1 # 2) <= draw_val d1 * 2 + (5 # 10))%Q)
          by (eapply Qle_trans; [|exact Ha]; discriminate);
        assert (Hhi : (draw_val d1 * 2 + (5 # 10) <= (5 # 2))%Q)
          by (apply Qlt_le_weak; eapply Qlt_le_trans; [exact Hb|]; discriminate)
    end.
    split; [exact Hlo|]. split; [exact Hhi|].
    split.
    { intros rnd Hmono Hhalf Htop H0 H1500 H300 H1800.
      pose proof (Hmono _ _ Hlo). pose proof (Hmono _ _ Hhi).
      split; [lra|]. split; [lra|].
      match goal with
      | |- (_ <= rnd (rnd (?ps - 300) + 300))%Q /\ _ =>
          assert (Hp0 : (0 <= ps - 300)%Q) by lra;
          assert (Hp1 : (ps - 300 <= 1500)%Q) by lra;
          pose proof (Hmono _ _ Hp0) as Hr0; pose proof (Hmono _ _ Hp1) as Hr1;
          assert (Hs0 : (300 <= rnd (ps - 300) + 300)%Q) by lra;
          assert (Hs1 : (rnd (ps - 300) + 300 <= 1800)%Q) by lra;
          pose proof (Hmono _ _ Hs0); pose proof (Hmono _ _ Hs1)
      end.
      split; lra. }
    split; [exact Hc|].
    split; [eapply Qlt_le_trans; [exact Hd|]; discriminate|].
    repeat split; lia.
  - eapply links_loop_throws. eassumption.
Qed.

Lemma filter_misses {A : Type} (p : A -> bool) (l : list A) :
  0 < len l - len (List.filter p l) <-> exists x, In x l /\ p x = false.
Proof.
  induction l as [|x l IH].
  - split; [unfold len; simpl; lia | intros (x & [] & _)].
  - cbn [List.filter]. destruct (p x) eqn:E.
    + rewrite !len_cons. replace (1 + len l - (1 + len (List.filter p l)))
        with (len l - len (List.filter p l)) by lia.
      rewrite IH. split.
      * intros (y & Hy & Hp). exists y. split; [now right | exact Hp].
      * intros (y & [<- | Hy] & Hp); [congruence | eauto].
    + rewrite len_cons. split.
      * intros _. exists x. split; [now left | exact E].
      * intros _. assert (len (List.filter p l) <= len l).
        { unfold len. apply inj_le. apply filter_length_le. }
        lia.
Qed.

(** X6. The parts of a report agree with each other.  Every derived part is
    computed from the parts the report itself carries; [altImages] equals
    [withAlt], although the two come from two runs of the image analysis;
    the two counts add up to the total; the issue [imagesMissingAlt] is
    flagged exactly when some [img] has no [alt] attribute; and [responsive]
    is [viewportMeta]. *)
Theorem report_consistent (JSON_parse : string -> option JSON)
    (URL_hostname : string -> option string) (doc : Document) (url : string) (g : Rng) :
  match parseDocument JSON_parse URL_hostname doc url g with
  | Normal r _ =>
      assembled JSON_parse doc url r /\
      altImages (SEOAnalysis.accessibility r) = withAlt (SEOAnalysis.images r) /\
      withAlt (SEOAnalysis.images r) + withoutAlt (SEOAnalysis.images r)
        = total (SEOAnalysis.images r) /\
      (imagesMissingAlt (SEOAnalysis.technicalIssues r) = true <->
       exists img, In img (image_elements doc) /\ getAttribute "alt" img = None) /\
      responsive (SEOAnalysis.mobile r) = viewportMeta (SEOAnalysis.mobile r)
  | Thrown _ _ => URL_hostname url = None
  end.
Proof.
  pose proof (parseDocument_outcome JSON_parse URL_hostname doc url g) as Ho.
  destruct (parseDocument JSON_parse URL_hostname doc url g) as [r g'|e g'] eqn:H; [|exact Ho].
  destruct (parseDocument_assembled _ _ _ _ _ _ _ H) as [Has _].
  destruct (as_images _ _ _ _ Has) as (gi & gi' & Hi).
  destruct (analyzeImages_spec doc gi) as (over & size & gi2 & Hi').
  rewrite Hi in Hi'. injection Hi' as Him _.
  destruct (as_accessibility _ _ _ _ Has) as (im & ga & ga' & g1 & g1' & Him' & Hacc).
  destruct (analyzeImages_spec doc g1) as (over' & size' & g12 & Hi2).
  rewrite Him' in Hi2. injection Hi2 as Him2 _.
  destruct (analyzeAccessibility_spec doc im ga) as (contrast & ga2 & Hacc').
  rewrite Hacc in Hacc'. injection Hacc' as Hacc2 _.
  destruct (as_mobile _ _ _ _ Has) as (gm & gm' & Hm).
  unfold analyzeMobile, bind, Math_random, ret in Hm. injection Hm as Hm _.
  split; [exact Has|].
  split; [rewrite Hacc2, Him2, Him; reflexivity|].
  split; [rewrite Him; cbn [withAlt withoutAlt total]; lia|].
  split.
  { rewrite (as_issues _ _ _ _ Has). unfold checkTechnicalIssues. cbn [imagesMissingAlt].
    rewrite Him. cbn [withoutAlt]. rewrite Z.ltb_lt.
    unfold querySelectorAll. rewrite filter_sel_has.
    fold (querySelectorAll (sel_tag "img") doc). fold (image_elements doc).
    rewrite filter_misses. unfold hasAttribute.
    split; intros (img & Hin & Hnone); exists img; (split; [exact Hin|]);
      destruct (getAttribute "alt" img); congruence. }
  rewrite <- Hm. reflexivity.
Qed.

(** ** Social metadata *)

Lemma attribute_of_found (sel : Selector) (name : string) (doc : Document) :
  exists_element sel doc = false -> attribute_of sel name doc = "".
Proof.
  unfold exists_element, attribute_of. destruct (querySelector sel doc); [discriminate|].
  reflexivity.
Qed.

Lemma exists_element_weaken (sel1 sel2 : Selector) (doc : Document) :
  (forall e, sel1 e = true -> sel2 e = true) ->
  exists_element sel2 doc = false -> exists_element sel1 doc = false.
Proof.
  unfold exists_element, querySelector. intros Hsel H2.
  destruct (find sel1 (elements doc)) as [e|] eqn:E1; [|reflexivity].
  apply find_some in E1 as [Hin Hs].
  destruct (find sel2 (elements doc)) eqn:E2; [discriminate|].
  pose proof (find_none _ _ E2 e Hin) as Hn. rewrite (Hsel e Hs) in Hn. discriminate.
Qed.

Lemma sel_attr_is_prefixed (tag name value p : string) (e : Element) :
  startsWith value p = true ->
  sel_attr tag name value e = true -> sel_attr_prefix tag name p e = true.
Proof.
  unfold sel_attr, sel_attr_prefix. intros Hp.
  destruct (sel_tag tag e); [|discriminate]. cbn [andb].
  destruct (getAttribute name e) as [v|]; [|discriminate].
  intros Hv. apply String.eqb_eq in Hv. now subst v.
Qed.

Lemma prefixed_attribute_empty (tag name value p attr : string) (doc : Document) :
  startsWith value p = true ->
  exists_element (sel_attr_prefix tag name p) doc = false ->
  attribute_of (sel_attr tag name value) attr doc = "".
Proof.
  intros Hp Hn. apply attribute_of_found.
  eapply exists_element_weaken; [|exact Hn].
  intros e. now apply sel_attr_is_prefixed.
Qed.

(** X7. The social flags cover the extracted metadata: unless
    [hasOpenGraph] is set, every Open Graph field extracted is empty, and
    unless [hasTwitterCard] is set, every Twitter Card field is. *)
Theorem social_flags_cover_metadata (doc : Document) :
  (hasOpenGraph (analyzeSocialMedia doc) = true \/
   extractOpenGraphData doc = OpenGraphData.mk "" "" "" "" "" "") /\
  (hasTwitterCard (analyzeSocialMedia doc) = true \/
   extractTwitterCardData doc = TwitterCardData.mk "" "" "" "" "").
Proof.
  unfold analyzeSocialMedia. cbn [hasOpenGraph hasTwitterCard]. split.
  - destruct (exists_element (sel_attr_prefix "meta" "property" "og:") doc) eqn:E;
      [now left | right].
    unfold extractOpenGraphData.
    rewrite (prefixed_attribute_empty "meta" "property" "og:title" "og:" "content" doc eq_refl E),
      (prefixed_attribute_empty "meta" "property" "og:description" "og:" "content" doc eq_refl E),
      (prefixed_attribute_empty "meta" "property" "og:image" "og:" "content" doc eq_refl E),
      (prefixed_attribute_empty "meta" "property" "og:url" "og:" "content" doc eq_refl E),
      (prefixed_attribute_empty "meta" "property" "og:type" "og:" "content" doc eq_refl E),
      (prefixed_attribute_empty "meta" "property" "og:site_name" "og:" "content" doc eq_refl E).
    reflexivity.
  - destruct (exists_element (sel_attr_prefix "meta" "name" "twitter:") doc) eqn:E;
      [now left | right].
    unfold extractTwitterCardData.
    rewrite (prefixed_attribute_empty "meta" "name" "twitter:card" "twitter:" "content" doc eq_refl E),
      (prefixed_attribute_empty "meta" "name" "twitter:title" "twitter:" "content" doc eq_refl E),
      (prefixed_attribute_empty "meta" "name" "twitter:description" "twitter:" "content" doc
         eq_refl E),
      (prefixed_attribute_empty "meta" "name" "twitter:image" "twitter:" "content" doc eq_refl E),
      (prefixed_attribute_empty "meta" "name" "twitter:site" "twitter:" "content" doc eq_refl E).
    reflexivity.
Qed.

(** ** Structured data: one entry per block at most *)

Lemma pushed_or_rejected (JSON_parse : string -> option JSON) (script : Element) :
  len (pushed_type JSON_parse script)
  + (if rejected JSON_parse script then 1 else 0) <= 1 /\
  Forall (fun v => truthy v = true) (pushed_type JSON_parse script).
Proof.
  unfold pushed_type, rejected.
  destruct (JSON_parse (textContent script)) as [[| | | | |fields]|];
    try (split; [unfold len; simpl; lia | constructor]).
  destruct (last_field "@type" fields) as [v|]; [destruct (truthy v) eqn:E|];
    (split; [unfold len; simpl; lia | repeat constructor; assumption]).
Qed.

(** X8. A script block adds at most one entry, to [types] or to [errors]
    and never to both; every recorded type is truthy; every error is the one
    fixed message; and without a block both lists are empty. *)
Theorem structured_data_bounded (JSON_parse : string -> option JSON) (doc : Document) :
  let r := extractStructuredData JSON_parse doc in
  len (types r) + len (errors r) <= len (querySelectorAll sel_ld_json doc) /\
  Forall (fun v => truthy v = true) (types r) /\
  Forall (fun e => e = "Invalid JSON-LD structure") (errors r) /\
  (hasSchema r = false -> types r = [] /\ errors r = []).
Proof.
  intros r. unfold r, extractStructuredData.
  set (scripts := querySelectorAll sel_ld_json doc).
  rewrite structured_fold. cbn [types errors hasSchema app].
  split; [|split; [|split]].
  - unfold len at 2. rewrite repeat_length.
    induction scripts as [|x l IH]; [unfold len; simpl; lia|].
    cbn [flat_map List.filter]. rewrite len_app, len_cons.
    destruct (pushed_or_rejected JSON_parse x) as [Hx _].
    destruct (rejected JSON_parse x); cbn [length]; lia.
  - induction scripts as [|x l IH]; [constructor|].
    cbn [flat_map]. apply Forall_app. split; [|exact IH].
    apply pushed_or_rejected.
  - apply Forall_forall. intros e He. now apply repeat_spec in He.
  - intros H. apply Z.ltb_ge in H. destruct scripts as [|x l]; [split; reflexivity|].
    rewrite len_cons in H. pose proof (len_nonneg l). lia.
Qed.

(** ** Headings: the six lists partition the headings *)

Lemma sel_tag_level (e : Element) :
  sel_tag "h1" e = sel_heading e && (heading_level e =? 1) /\
  sel_tag "h2" e = sel_heading e && (heading_level e =? 2) /\
  sel_tag "h3" e = sel_heading e && (heading_level e =? 3) /\
  sel_tag "h4" e = sel_heading e && (heading_level e =? 4) /\
  sel_tag "h5" e = sel_heading e && (heading_level e =? 5) /\
  sel_tag "h6" e = sel_heading e && (heading_level e =? 6) /\
  (sel_heading e = false -> heading_level e = 0).
Proof.
  unfold sel_heading, sel_or, sel_tag, heading_level.
  destruct (localName e =? "h1")%string eqn:E1;
    [apply String.eqb_eq in E1; rewrite E1; repeat split; intros; discriminate|].
  destruct (localName e =? "h2")%string eqn:E2;
    [apply String.eqb_eq in E2; rewrite E2; repeat split; intros; discriminate|].
  destruct (localName e =? "h3")%string eqn:E3;
    [apply String.eqb_eq in E3; rewrite E3; repeat split; intros; discriminate|].
  destruct (localName e =? "h4")%string eqn:E4;
    [apply String.eqb_eq in E4; rewrite E4; repeat split; intros; discriminate|].
  destruct (localName e =? "h5")%string eqn:E5;
    [apply String.eqb_eq in E5; rewrite E5; repeat split; intros; discriminate|].
  destruct (localName e =? "h6")%string eqn:E6;
    [repeat split; intros; discriminate|].
  repeat split.
Qed.

Lemma filter_both {A : Type} (p q : A -> bool) (l : list A) :
  List.filter q (List.filter p l) = List.filter (fun x => p x && q x) l.
Proof.
  induction l as [|x l IH]; [reflexivity|].
  cbn [List.filter]. destruct (p x); cbn [List.filter andb]; [destruct (q x)|]; now rewrite IH.
Qed.

Lemma heading_texts_level (tag : string) (level : Z) (doc : Document) :
  (forall e, sel_tag tag e = sel_heading e && (heading_level e =? level)) ->
  heading_texts tag doc =
  map textContent
    (List.filter (fun e => heading_level e =? level) (querySelectorAll sel_heading doc)).
Proof.
  intros H. unfold heading_texts, querySelectorAll. rewrite filter_both.
  rewrite (filter_ext _ _ H). apply map_ext. intros e. apply or_else_text.
Qed.

Lemma headings_partition (l : list Element) :
  Forall (fun e => sel_heading e = true) l ->
  len (List.filter (fun e => heading_level e =? 1) l)
  + len (List.filter (fun e => heading_level e =? 2) l)
  + len (List.filter (fun e => heading_level e =? 3) l)
  + len (List.filter (fun e => heading_level e =? 4) l)
  + len (List.filter (fun e => heading_level e =? 5) l)
  + len (List.filter (fun e => heading_level e =? 6) l) = len l.
Proof.
  induction 1 as [|e l He _ IH]; [reflexivity|].
  cbn [List.filter]. rewrite (len_cons e l). pose proof (heading_level_range e He).
  destruct (Z.eqb_spec (heading_level e) 1); destruct (Z.eqb_spec (heading_level e) 2);
    destruct (Z.eqb_spec (heading_level e) 3); destruct (Z.eqb_spec (heading_level e) 4);
    destruct (Z.eqb_spec (heading_level e) 5); destruct (Z.eqb_spec (heading_level e) 6);
    rewrite ?len_cons; lia.
Qed.

Lemma no_heading_at (level : Z) (l : list Element) :
  Forall (fun e => sel_heading e = true) l ->
  ~ 1 <= level <= 6 ->
  List.filter (fun e => heading_level e =? level) l = [].
Proof.
  intros Hall Hlevel. induction Hall as [|e l He _ IH]; [reflexivity|].
  cbn [List.filter]. pose proof (heading_level_range e He).
  destruct (Z.eqb_spec (heading_level e) level); [lia | exact IH].
Qed.

(** X9. The six heading lists partition the headings of the document: the
    list of a level holds the texts of the headings of that level in
    document order, and the six lengths add up to the number of headings the
    accessibility check walks through. *)
Theorem headings_by_level (doc : Document) :
  let h := extractHeadings doc in
  (forall level,
     headings_at h level =
     map textContent
       (List.filter (fun e => heading_level e =? level) (querySelectorAll sel_heading doc))) /\
  len (h1 h) + len (h2 h) + len (h3 h) + len (h4 h) + len (h5 h) + len (h6 h)
  = len (querySelectorAll sel_heading doc).
Proof.
  intros h.
  assert (Hlevel : forall level,
    headings_at h level =
    map textContent
      (List.filter (fun e => heading_level e =? level) (querySelectorAll sel_heading doc))).
  { intros level. unfold headings_at, h, extractHeadings. cbn [h1 h2 h3 h4 h5 h6].
    destruct (Z.eqb_spec level 1) as [->|N1];
      [apply heading_texts_level; intros e; apply sel_tag_level|].
    destruct (Z.eqb_spec level 2) as [->|N2];
      [apply heading_texts_level; intros e; apply sel_tag_level|].
    destruct (Z.eqb_spec level 3) as [->|N3];
      [apply heading_texts_level; intros e; apply sel_tag_level|].
    destruct (Z.eqb_spec level 4) as [->|N4];
      [apply heading_texts_level; intros e; apply sel_tag_level|].
    destruct (Z.eqb_spec level 5) as [->|N5];
      [apply heading_texts_level; intros e; apply sel_tag_level|].
    destruct (Z.eqb_spec level 6) as [->|N6];
      [apply heading_texts_level; intros e; apply sel_tag_level|].
    rewrite no_heading_at; [reflexivity | apply querySelectorAll_Forall | lia]. }
  split; [exact Hlevel|].
  pose proof (Hlevel 1) as E1. pose proof (Hlevel 2) as E2. pose proof (Hlevel 3) as E3.
  pose proof (Hlevel 4) as E4. pose proof (Hlevel 5) as E5. pose proof (Hlevel 6) as E6.
  cbn [headings_at Z.eqb Pos.eqb] in E1, E2, E3, E4, E5, E6.
  rewrite E1, E2, E3, E4, E5, E6, !len_map.
  apply headings_partition, querySelectorAll_Forall.
Qed.

(** ** Images: the recorded sources *)

Lemma images_loop_sources (l : list Element) :
  forall m o g, exists m' o' g',
    forEach images_step l (m, o) g = Normal ((m ++ m')%list, (o ++ o')%list) g' /\
    sublist m' (map image_source l) /\ sublist o' (map image_source l).
Proof.
  induction l as [|x l IH]; intros m o g.
  - exists [], [], g. rewrite !app_nil_r. repeat split; constructor.
  - cbn [forEach]. unfold bind at 1. unfold images_step at 1. unfold bind, Math_random, ret.
    match goal with
    | |- context [forEach images_step l (?m1, ?o1) ?g1] =>
        destruct (IH m1 o1 g1) as (m' & o' & g' & -> & Hm & Ho)
    end.
    exists ((if alt_falsy x then [image_source x] else []) ++ m')%list,
           ((if Qgtb (draw_val (g 0%nat)) (8 # 10) then [image_source x] else []) ++ o')%list,
           g'.
    cbn [map]. split; [|split].
    + destruct (alt_falsy x); destruct (Qgtb (draw_val (g 0%nat)) (8 # 10));
        rewrite <- ?app_assoc; reflexivity.
    + destruct (alt_falsy x); cbn [app]; [now apply sublist_skip | now apply sublist_cons].
    + destruct (Qgtb (draw_val (g 0%nat)) (8 # 10)); cbn [app];
        [now apply sublist_skip | now apply sublist_cons].
Qed.

(** X10. The image analysis always returns.  [missingAlt] and [oversized]
    are subsequences of the image sources in document order, so neither is
    longer than [total]; [withAlt] lies between 0 and [total]; and
    [totalSize] lies in [500, 3499]. *)
Theorem images_bounds (doc : Document) (g : Rng) :
  exists im g',
    analyzeImages doc g = Normal im g' /\
    0 <= withAlt im <= total im /\
    sublist (missingAlt im) (map image_source (image_elements doc)) /\
    sublist (oversized im) (map image_source (image_elements doc)) /\
    len (missingAlt im) <= total im /\
    len (oversized im) <= total im /\
    500 <= totalSize im <= 3499.
Proof.
  unfold analyzeImages. unfold bind at 1. fold (image_elements doc).
  destruct (images_loop_sources (image_elements doc) [] [] g) as (m & o & g' & -> & Hm & Ho).
  unfold bind, Math_random, ret. eexists _, _. split; [reflexivity|].
  cbn [total withAlt missingAlt oversized totalSize fst snd app].
  pose proof (floor_scaled_draw (g' 0%nat) 3000 ltac:(lia)) as Hs.
  change (inject_Z 3000) with 3000%Q in Hs.
  pose proof (sublist_length _ _ Hm) as Hlm. pose proof (sublist_length _ _ Ho) as Hlo.
  rewrite length_map in Hlm, Hlo.
  assert (Ha : len (querySelectorAll (sel_has "img" "alt") doc) <= len (image_elements doc)).
  { unfold querySelectorAll, image_elements, querySelectorAll. rewrite filter_sel_has.
    unfold len. apply inj_le. apply filter_length_le. }
  pose proof (len_nonneg (querySelectorAll (sel_has "img" "alt") doc)).
  unfold len in *. repeat split; try assumption; lia.
Qed.

(** ** Content: the readability score *)

Lemma Math_round_range (q : Q) (lo hi : Z) :
  (inject_Z lo <= q)%Q -> (q <= inject_Z hi)%Q -> lo <= Math_round q <= hi.
Proof.
  intros Hlo Hhi. unfold Math_round. split.
  - rewrite <- (Qfloor_Z lo). apply Qfloor_resp_le.
    eapply Qle_trans; [exact Hlo|]. rewrite <- (Qplus_0_r q) at 1.
    apply Qplus_le_r. discriminate.
  - apply Z.lt_succ_r. rewrite Zlt_Qlt.
    eapply Qle_lt_trans; [apply Qfloor_le|].
    eapply Qle_lt_trans; [apply Qplus_le_l; exact Hhi|].
    rewrite <- Z.add_1_r, inject_Z_plus. apply Qplus_lt_r. reflexivity.
Qed.

Lemma Qmax_Qmin_range (q : Q) : (0 <= Qmax 0 (Qmin 100 q))%Q /\ (Qmax 0 (Qmin 100 q) <= 100)%Q.
Proof.
  unfold Qmax, Qmin.
  destruct (Qle_bool 100 q) eqn:E1.
  - cbn. split; discriminate.
  - destruct (Qle_bool 0 q) eqn:E2.
    + apply Qle_bool_iff in E2. split; [exact E2|].
      apply Qnot_lt_le. intros Hlt. apply Qlt_le_weak in Hlt.
      apply Qle_bool_iff in Hlt. congruence.
    + split; [apply Qle_refl | discriminate].
Qed.

(** X17. The content analysis always returns; [wordCount] is the number of
    non-empty pieces between white space; the readability score lies in
    [0, 100]; it is at least 60 when there are at most 20 words per
    sentence, and 100 when the text has no sentence. *)
Theorem content_bounds (text : string) (g : Rng) :
  exists c g',
    analyzeContent text g = Normal c g' /\
    wordCount c = len (content_words text) /\
    0 <= readabilityScore c <= 100 /\
    (len (content_words text) <= 20 * len (content_sentences text) ->
     60 <= readabilityScore c) /\
    (content_sentences text = [] -> readabilityScore c = 100) /\
    languageDetected c = "es".
Proof.
  unfold analyzeContent, bind, Math_random, ret. cbv zeta.
  fold (content_words text). fold (content_sentences text).
  eexists _, _. split; [reflexivity|].
  cbn [wordCount readabilityScore languageDetected].
  split; [reflexivity|]. split; [|split; [|split; [|reflexivity]]].
  - apply Math_round_range; apply Qmax_Qmin_range.
  - intros Hw.
    set (w := len (content_words text)) in *. set (s := len (content_sentences text)) in *.
    assert (Hw0 : 0 <= w) by apply len_nonneg.
    refine (proj1 (Math_round_range _ 60 100 _ _)); [|apply Qmax_Qmin_range].
    assert (Havg : (inject_Z 60 <= 100 - (if 0 <? s then inject_Z w / inject_Z s else 0) * 2)%Q).
    { destruct (Z.ltb_spec 0 s) as [Hs|Hs]; [|discriminate].
      assert (Hq : (inject_Z w / inject_Z s <= 20)%Q).
      { apply Qle_shift_div_r; [change 0%Q with (inject_Z 0); now rewrite <- Zlt_Qlt|].
        change 20%Q with (inject_Z 20). rewrite <- inject_Z_mult, <- Zle_Qle. lia. }
      apply (Qmult_le_compat_r _ _ 2) in Hq; [|discriminate].
      apply Qopp_le_compat in Hq. apply (Qplus_le_r _ _ 100) in Hq.
      eapply Qle_trans; [|exact Hq]. discriminate. }
    unfold Qmax, Qmin.
    destruct (Qle_bool 100 _) eqn:E1.
    + cbn. discriminate.
    + destruct (Qle_bool 0 _) eqn:E2; [exact Havg|].
      exfalso. assert (Hz : Qle_bool 0 (100 - (if 0 <? s then inject_Z w / inject_Z s else 0) * 2)
                            = true).
      { apply Qle_bool_iff. eapply Qle_trans; [|exact Havg]. discriminate. }
      congruence.
  - intros ->. reflexivity.
Qed.

(** ** Keywords: the tokens *)

Lemma string_of_rev_all (f : ascii -> bool) (acc : list ascii) :
  forall tail,
    forallb f acc = true -> forallb_string f tail = true ->
    forallb_string f (string_of_rev acc tail) = true.
Proof.
  induction acc as [|c acc IH]; intros tail Hacc Ht; [exact Ht|].
  cbn [forallb] in Hacc. apply andb_prop in Hacc as [Hc Hacc].
  cbn [string_of_rev]. apply IH; [exact Hacc|]. cbn [forallb_string]. now rewrite Hc.
Qed.

(** The pieces of a split hold the characters of the text that are not
    separators. *)
Lemma split_runs_all (sep f : ascii -> bool) (s : string) :
  forall in_run cur,
    forallb f cur = true ->
    forallb_string (fun c => sep c || f c) s = true ->
    forallb (forallb_string f) (split_runs sep in_run cur s) = true.
Proof.
  induction s as [|c s IH]; intros in_run cur Hcur Hs.
  - cbn [split_runs forallb]. now rewrite string_of_rev_all.
  - cbn [forallb_string] in Hs. apply andb_prop in Hs as [Hc Hs].
    cbn [split_runs]. destruct (sep c) eqn:E.
    + destruct in_run; [now apply IH|].
      cbn [forallb]. rewrite string_of_rev_all by easy. now apply IH.
    + apply IH; [|exact Hs]. cbn [forallb]. cbn [orb] in Hc. now rewrite Hc.
Qed.

Lemma lower_word_char (c : ascii) :
  is_word_char c || is_space c = true -> between 65 90 c = false ->
  is_space c || keyword_char c = true.
Proof.
  unfold is_word_char, keyword_char. intros H Hl. rewrite Hl in H.
  destruct (is_space c); [reflexivity|]. cbn [orb]. rewrite orb_false_r in H.
  destruct (is_digit c); [reflexivity|]. exact H.
Qed.

Lemma normalize_chars (s : string) :
  forallb_string (fun c => is_space c || keyword_char c) (normalize s) = true.
Proof.
  unfold normalize, toLowerCase. induction s as [|c s IH]; [reflexivity|].
  cbn [map_string filter_string].
  destruct (is_word_char (lower_char c) || is_space (lower_char c)) eqn:E; [|exact IH].
  cbn [forallb_string]. rewrite IH, andb_true_r.
  apply lower_word_char; [exact E | apply lower_char_lower].
Qed.

Lemma substring_append (n : nat) (s t : string) :
  (n <= String.length s)%nat -> String.substring 0 n (s ++ t) = String.substring 0 n s.
Proof.
  revert n. induction s as [|c s IH]; intros n Hn.
  - cbn [String.length] in Hn. assert (n = 0%nat) as -> by lia. now destruct t.
  - destruct n as [|n]; [reflexivity|].
    change (String c s ++ t) with (String c (s ++ t)). cbn [String.substring].
    rewrite IH; [reflexivity|]. cbn [String.length] in Hn. lia.
Qed.

(** X13. Every word the keyword analysis counts is longer than 3 characters
    and made of lower-case letters, digits and underscores only; and the
    text after the first 5000 characters has no influence on the result. *)
Theorem keywords_are_tokens (text : string) :
  Forall (fun w => 3 < strlen w /\ forallb_string keyword_char w = true)
    (keyword_words text) /\
  keyword_words (String.substring 0 5000 text) = keyword_words text /\
  (forall suffix, (5000 <= String.length text)%nat ->
     analyzeKeywords (text ++ suffix) = analyzeKeywords text).
Proof.
  split; [|split].
  - unfold keyword_words. apply Forall_forall. intros w Hw.
    apply filter_In in Hw as [Hw Hlen]. apply Z.ltb_lt in Hlen. split; [exact Hlen|].
    fold (normalize (String.substring 0 5000 text)) in Hw.
    pose proof (split_runs_all is_space keyword_char
                  (normalize (String.substring 0 5000 text)) false [] eq_refl
                  (normalize_chars _)) as H.
    rewrite forallb_forall in H. now apply H.
  - unfold keyword_words.
    assert (H : String.substring 0 5000 (String.substring 0 5000 text)
                = String.substring 0 5000 text).
    { generalize 5000%nat. intros n. revert n.
      induction text as [|c s IH]; intros n; [now destruct n|].
      destruct n as [|n]; [reflexivity|]. cbn [String.substring]. now rewrite IH. }
    now rewrite H.
  - intros suffix Hlen. unfold analyzeKeywords, keyword_words.
    now rewrite substring_append.
Qed.

(** ** Plain objects: the keys *)

Lemma sublist_In {A : Type} (l1 l2 : list A) (x : A) :
  sublist l1 l2 -> In x l1 -> In x l2.
Proof.
  induction 1 as [|y l1 l2 _ IH|y l1 l2 _ IH]; intros Hx.
  - exact Hx.
  - destruct Hx as [<-|Hx]; [now left | right; now apply IH].
  - right. now apply IH.
Qed.

Lemma sublist_NoDup {A : Type} (l1 l2 : list A) :
  sublist l1 l2 -> NoDup l2 -> NoDup l1.
Proof.
  induction 1 as [|y l1 l2 Hs IH|y l1 l2 _ IH]; intros Hn.
  - constructor.
  - inversion Hn as [|? ? Hy Hn']; subst. constructor; [|now apply IH].
    intros Hin. apply Hy. eapply sublist_In; eassumption.
  - inversion Hn; subst. now apply IH.
Qed.

Lemma set_named_keys {V : Type} (k : string) (v : V) (l : list (string * V)) :
  map fst (set_named k v l) = map fst l \/
  (~ In k (map fst l) /\ map fst (set_named k v l) = (map fst l ++ [k])%list).
Proof.
  destruct (in_dec string_dec k (map fst l)) as [Hin|Hout].
  - left. now apply set_named_present.
  - right. split; [exact Hout|]. rewrite set_named_fresh by exact Hout.
    now rewrite map_app.
Qed.

Lemma keys_split {V : Type} (o : JSObject V) :
  keys o = (map N_to_string (map fst (indexed o)) ++ map fst (named o))%list.
Proof.
  unfold keys, Object_entries. rewrite map_app, !map_map. reflexivity.
Qed.

Lemma well_keyed_empty {V : Type} : well_keyed (@empty_object V).
Proof. constructor; cbn; try constructor; intros ? []. Qed.

Lemma well_keyed_set_own {V : Type} (k : string) (v : V) (o : JSObject V) :
  well_keyed o -> well_keyed (set_own k v o).
Proof.
  intros [Hs Hc Hn Hp]. unfold set_own.
  destruct (array_index k) as [i|] eqn:E; constructor; cbn [indexed named];
    try assumption.
  - now apply set_indexed_sorted.
  - intros j Hj. apply set_indexed_In in Hj as [->|Hj]; [|now apply Hc].
    eapply array_index_to_string. exact E.
  - destruct (set_named_keys k v (named o)) as [->|[Hout ->]]; [exact Hn|].
    apply NoDup_app; [exact Hn | repeat constructor; intros [] |].
    intros a Ha [<-|[]]. contradiction.
  - intros k' Hk'.
    destruct (set_named_keys k v (named o)) as [Heq|[Hout Heq]]; rewrite Heq in Hk'.
    + now apply Hp.
    + apply in_app_or in Hk' as [Hk'|[<-|[]]]; [now apply Hp | exact E].
Qed.

Lemma well_keyed_assign {V : Type} (k : string) (v : V) (o : JSObject V) :
  well_keyed o -> well_keyed (assign k v o).
Proof.
  intros H. unfold assign. destruct (k =? "__proto__")%string; [exact H|].
  now apply well_keyed_set_own.
Qed.

Lemma keys_set_own {V : Type} (k k' : string) (v : V) (o : JSObject V) :
  In k' (keys (set_own k v o)) -> k' = k \/ In k' (keys o).
Proof.
  rewrite !keys_split. unfold set_own.
  destruct (array_index k) as [i|] eqn:E; cbn [indexed named]; intros H;
    apply in_app_or in H as [H|H].
  - apply in_map_iff in H as (j & <- & Hj).
    apply set_indexed_In in Hj as [->|Hj].
    + left. now apply array_index_canonical.
    + right. apply in_or_app. left. now apply in_map.
  - right. apply in_or_app. now right.
  - right. apply in_or_app. now left.
  - destruct (set_named_keys k v (named o)) as [Heq|[_ Heq]]; rewrite Heq in H.
    + right. apply in_or_app. now right.
    + apply in_app_or in H as [H|[<-|[]]]; [|now left].
      right. apply in_or_app. now right.
Qed.

Lemma keys_assign {V : Type} (k k' : string) (v : V) (o : JSObject V) :
  In k' (keys (assign k v o)) -> k' = k \/ In k' (keys o).
Proof.
  unfold assign. destruct (k =? "__proto__")%string; [now right|]. apply keys_set_own.
Qed.

Lemma well_keyed_NoDup {V : Type} (o : JSObject V) : well_keyed o -> NoDup (keys o).
Proof.
  intros [Hs Hc Hn Hp]. rewrite keys_split. apply NoDup_app.
  - apply NoDup_map_NoDup_ForallPairs.
    + intros i j Hi Hj Heq. apply Hc in Hi, Hj. rewrite Heq in Hi. congruence.
    + eapply StronglySorted_NoDup; [|exact Hs]. intros a. apply N.lt_irrefl.
  - exact Hn.
  - intros k Hk Hk'. apply in_map_iff in Hk as (i & <- & Hi).
    apply Hc in Hi. apply Hp in Hk'. congruence.
Qed.

Lemma assoc_app {K V : Type} (eqb : K -> K -> bool) (k : K) (l1 l2 : list (K * V)) :
  assoc eqb k (l1 ++ l2) =
  match assoc eqb k l1 with Some v => Some v | None => assoc eqb k l2 end.
Proof.
  induction l1 as [|[k' v] l1 IH]; [reflexivity|].
  cbn [app assoc]. destruct (eqb k' k); [reflexivity | exact IH].
Qed.

Lemma assoc_absent {K V : Type} (eqb : K -> K -> bool) (k : K) (l : list (K * V)) :
  (forall a, In a (map fst l) -> eqb a k = false) -> assoc eqb k l = None.
Proof.
  induction l as [|[k' v] l IH]; intros H; [reflexivity|].
  cbn [assoc]. rewrite (H k') by now left. apply IH. intros a Ha. apply H. now right.
Qed.

(** Reading a key off the entries is reading the own property. *)
Lemma entries_get_own {V : Type} (k : string) (o : JSObject V) :
  well_keyed o -> assoc String.eqb k (Object_entries o) = get_own k o.
Proof.
  intros [Hs Hc Hn Hp]. unfold Object_entries, get_own. rewrite assoc_app.
  destruct (array_index k) as [i|] eqn:E.
  - assert (Hidx : assoc String.eqb k
                     (map (fun iv => (N_to_string (fst iv), snd iv)) (indexed o))
                   = assoc N.eqb i (indexed o)).
    { revert Hc. generalize (indexed o). intros l.
      induction l as [|[j v] l IH]; intros Hc; [reflexivity|].
      cbn [map assoc fst snd].
      rewrite IH by (intros a Ha; apply Hc; now right).
      destruct (N.eqb_spec j i) as [->|Hne].
      - rewrite (array_index_canonical k i E). now rewrite String.eqb_refl.
      - destruct (String.eqb_spec (N_to_string j) k) as [Heq|]; [|reflexivity].
        exfalso. apply Hne. specialize (Hc j (or_introl eq_refl)).
        rewrite Heq in Hc. congruence. }
    rewrite Hidx. destruct (assoc N.eqb i (indexed o)); [reflexivity|].
    apply assoc_absent. intros a Ha. apply String.eqb_neq. intros ->.
    apply Hp in Ha. congruence.
  - rewrite assoc_absent; [reflexivity|].
    intros a Ha. rewrite map_map in Ha. cbn [fst] in Ha.
    apply in_map_iff in Ha as ([j v] & <- & Hj). cbn [fst].
    apply String.eqb_neq. intros Heq.
    assert (Hin : In j (map fst (indexed o))) by (apply in_map_iff; exists (j, v); auto).
    apply Hc in Hin. rewrite Heq in Hin. congruence.
Qed.

Lemma assoc_key {K V : Type} (eqb : K -> K -> bool) (k : K) (l : list (K * V)) :
  (forall a b, eqb a b = true <-> a = b) ->
  In k (map fst l) <-> assoc eqb k l <> None.
Proof.
  intros Heqb. induction l as [|[k' v] l IH]; [cbn; tauto|].
  cbn [map fst In assoc]. destruct (eqb k' k) eqn:E.
  - apply Heqb in E. split; [discriminate | now left].
  - rewrite IH. split; [intros [->|H]; [|exact H] | now right].
    assert (eqb k k = true) by now apply Heqb. congruence.
Qed.

Lemma keys_get_own {V : Type} (k : string) (o : JSObject V) :
  well_keyed o -> In k (keys o) <-> get_own k o <> None.
Proof.
  intros H. rewrite <- (entries_get_own k o H). unfold keys.
  apply assoc_key. intros a b. apply String.eqb_eq.
Qed.

(** ** Keywords: the frequency object, word by word *)

Lemma get_own_empty {V : Type} (k : string) : get_own k (@empty_object V) = None.
Proof. unfold get_own. now destruct (array_index k). Qed.

Lemma get_own_assign_other {V : Type} (k k' : string) (v : V) (o : JSObject V) :
  k <> k' -> get_own k' (assign k v o) = get_own k' o.
Proof.
  intros Hne. unfold assign. destruct (k =? "__proto__")%string; [reflexivity|].
  rewrite get_set_own. apply String.eqb_neq in Hne. now rewrite Hne.
Qed.

Lemma get_own_assign_same {V : Type} (k : string) (v : V) (o : JSObject V) :
  k <> "__proto__" -> get_own k (assign k v o) = Some v.
Proof.
  intros Hne. unfold assign. apply String.eqb_neq in Hne. rewrite Hne.
  now rewrite get_set_own, String.eqb_refl.
Qed.

Lemma append_nonempty (s t : string) : is_empty t = false -> is_empty (s ++ t) = false.
Proof. intros H. destruct s; [exact H | reflexivity]. Qed.

Lemma tracked_step (w x : string) (seen : list string) (o : JSObject CountValue) :
  w <> "__proto__" -> tracked w seen o -> tracked w (seen ++ [x]) (count_step o x).
Proof.
  intros Hw H. unfold tracked in *. unfold count_step.
  rewrite occurrences_app, occurrences_one.
  destruct (String.eqb_spec w x) as [<-|Hne].
  - rewrite get_own_assign_same by exact Hw. unfold next_count.
    destruct (get_own w o) as [[n|s]|].
    + destruct H as (Hp & -> & Hn). repeat split; [exact Hp | lia].
    + destruct H as (Hp & Hs & Hn). rewrite Hs.
      split; [exact Hp|]. split; [now apply append_nonempty | lia].
    + unfold inherits_nothing. destruct (Object_prototype_text w) as [t|].
      * split; [reflexivity|]. split; [now apply append_nonempty | lia].
      * repeat split; lia.
  - rewrite get_own_assign_other by congruence.
    destruct (get_own w o) as [[n|s]|]; [| |lia].
    + destruct H as (Hp & -> & Hn). repeat split; [exact Hp | lia | lia].
    + destruct H as (Hp & Hs & Hn). repeat split; [exact Hp | exact Hs | lia].
Qed.

Lemma tracked_fold (w : string) (rest : list string) :
  w <> "__proto__" ->
  forall seen o, tracked w seen o -> tracked w (seen ++ rest) (fold_left count_step rest o).
Proof.
  intros Hw. induction rest as [|x rest IH]; intros seen o H.
  - now rewrite app_nil_r.
  - cbn [fold_left]. replace (seen ++ x :: rest)%list with ((seen ++ [x]) ++ rest)%list
      by now rewrite <- app_assoc.
    apply IH. now apply tracked_step.
Qed.

Lemma tracked_words (w : string) (words : list string) :
  w <> "__proto__" -> tracked w words (fold_left count_step words empty_object).
Proof.
  intros Hw. apply (tracked_fold w words Hw [] empty_object).
  unfold tracked. now rewrite get_own_empty.
Qed.

Lemma proto_never_own_count (words : list string) :
  forall o, get_own "__proto__" o = None ->
            get_own "__proto__" (fold_left count_step words o) = None.
Proof.
  induction words as [|x words IH]; intros o H; [exact H|].
  cbn [fold_left]. apply IH. unfold count_step.
  destruct (String.eqb_spec x "__proto__") as [->|Hne].
  - unfold assign. now rewrite String.eqb_refl.
  - now rewrite get_own_assign_other.
Qed.

Lemma count_fold_keyed (words : list string) :
  forall o, well_keyed o ->
    well_keyed (fold_left count_step words o) /\
    (forall k, In k (keys (fold_left count_step words o)) -> In k words \/ In k (keys o)).
Proof.
  induction words as [|x words IH]; intros o Ho.
  - split; [exact Ho | now right].
  - cbn [fold_left].
    destruct (IH (count_step o x)) as [Hk Hin]; [now apply well_keyed_assign|].
    split; [exact Hk|]. intros k Hkin. apply Hin in Hkin as [Hkin|Hkin].
    + left. now right.
    + apply keys_assign in Hkin as [->|Hkin]; [left; now left | now right].
Qed.

(** ** Keywords: the density object *)

Section DensityObject.
Variable totalWords : Z.

Lemma density_fold_keyed (entries : list (string * CountValue)) :
  forall acc, well_keyed acc ->
    well_keyed (fold_left (density_step totalWords) entries acc) /\
    (forall k, In k (keys (fold_left (density_step totalWords) entries acc)) ->
               In k (map fst entries) \/ In k (keys acc)).
Proof.
  induction entries as [|e entries IH]; intros acc Hacc.
  - split; [exact Hacc | now right].
  - cbn [fold_left].
    destruct (IH (density_step totalWords acc e)) as [Hk Hin];
      [now apply well_keyed_assign|].
    split; [exact Hk|]. intros k Hkin. apply Hin in Hkin as [Hkin|Hkin].
    + left. now right.
    + apply keys_assign in Hkin as [->|Hkin]; [left; now left | now right].
Qed.

Lemma density_fold_get (k : string) (entries : list (string * CountValue)) :
  k <> "__proto__" -> NoDup (map fst entries) ->
  forall acc,
    get_own k (fold_left (density_step totalWords) entries acc) =
    match assoc String.eqb k entries with
    | Some c => Some (percentage c totalWords)
    | None => get_own k acc
    end.
Proof.
  intros Hk. induction entries as [|[k' c] entries IH]; intros Hnd acc; [reflexivity|].
  cbn [map fst] in Hnd. inversion Hnd as [|? ? Hout Hnd']; subst.
  cbn [fold_left assoc]. rewrite (IH Hnd'). unfold density_step. cbn [fst snd].
  destruct (String.eqb_spec k' k) as [->|Hne].
  - rewrite assoc_absent.
    + now apply get_own_assign_same.
    + intros a Ha. apply String.eqb_neq. intros ->. contradiction.
  - destruct (assoc String.eqb k entries); [reflexivity|].
    now apply get_own_assign_other.
Qed.

Lemma density_fold_proto (entries : list (string * CountValue)) :
  forall acc, get_own "__proto__" acc = None ->
    get_own "__proto__" (fold_left (density_step totalWords) entries acc) = None.
Proof.
  induction entries as [|[k c] entries IH]; intros acc H; [exact H|].
  cbn [fold_left]. apply IH. unfold density_step. cbn [fst snd].
  destruct (String.eqb_spec k "__proto__") as [->|Hne].
  - unfold assign. now rewrite String.eqb_refl.
  - now rewrite get_own_assign_other.
Qed.
End DensityObject.

Lemma occurrences_le (w : string) (l : list string) : occurrences w l <= len l.
Proof. unfold occurrences, count, len. apply inj_le. apply filter_length_le. Qed.

Lemma keyword_inherited (text w : string) :
  In w (keyword_words text) -> inherits_nothing w = false ->
  w = "constructor" \/ w = "__proto__".
Proof.
  intros Hin Hinh.
  pose proof (keyword_words_lower text) as Hl. rewrite forallb_forall in Hl.
  specialize (Hl w Hin).
  destruct (inherited_name w) eqn:E.
  - unfold inherited_name in E. apply orb_prop in E as [E|E]; apply String.eqb_eq in E; auto.
  - rewrite (lower_inherits w Hl E) in Hinh. discriminate.
Qed.

(** X14. The density of every word, for every text: a word that does not
    occur has no entry; a word that occurs has its percentage of the counted
    words, except [constructor], whose entry is [NaN], and [__proto__],
    which has no entry although it is counted in the total. *)
Theorem density_per_word (text w : string) :
  let words := keyword_words text in
  get_own w (density (analyzeKeywords text)) =
  if 0 <? occurrences w words
  then if (w =? "__proto__")%string then None
       else if (w =? "constructor")%string then Some NaN
       else Some (Finite (share words w))
  else None.
Proof.
  intros words. unfold analyzeKeywords. fold words. cbn [density].
  set (wordCount := fold_left count_step words empty_object).
  destruct (count_fold_keyed words empty_object well_keyed_empty) as [Hkeyed _].
  fold wordCount in Hkeyed.
  destruct (String.eqb_spec w "__proto__") as [->|Hw].
  - rewrite density_fold_proto by apply get_own_empty. now destruct (0 <? _).
  - rewrite density_fold_get; [|exact Hw | now apply well_keyed_NoDup].
    rewrite (entries_get_own w wordCount Hkeyed), get_own_empty.
    pose proof (tracked_words w words Hw) as Ht. unfold tracked in Ht. fold wordCount in Ht.
    destruct (get_own w wordCount) as [[n|s]|].
    + destruct Ht as (Hp & -> & Hn).
      destruct (Z.ltb_spec 0 (occurrences w words)) as [_|]; [|lia].
      assert (Hc : (w =? "constructor")%string = false).
      { apply String.eqb_neq. intros ->. discriminate Hp. }
      rewrite Hc. unfold percentage, divide, times100, share.
      pose proof (occurrences_le w words).
      destruct (Z.eqb_spec (len words) 0); [lia | reflexivity].
    + destruct Ht as (Hp & _ & Hn).
      destruct (Z.ltb_spec 0 (occurrences w words)) as [_|]; [|lia].
      assert (Hin : In w words) by now apply occurrences_In.
      destruct (keyword_inherited text w Hin Hp) as [->| ->]; [reflexivity | contradiction].
    + rewrite Ht. reflexivity.
Qed.

(** ** Keywords: the three lists *)

Lemma NoDup_app_disjoint {A : Type} (l1 l2 : list A) (x : A) :
  NoDup (l1 ++ l2) -> In x l1 -> ~ In x l2.
Proof.
  induction l1 as [|y l1 IH]; intros Hn Hx; [destruct Hx|].
  cbn [app] in Hn. inversion Hn as [|? ? Hy Hn']; subst.
  destruct Hx as [->|Hx]; [|now apply IH].
  intros H2. apply Hy. apply in_or_app. now right.
Qed.

Lemma density_keys (text : string) :
  well_keyed (density (analyzeKeywords text)) /\
  forall k, In k (keys (density (analyzeKeywords text))) -> In k (keyword_words text).
Proof.
  unfold analyzeKeywords. cbn [density].
  set (words := keyword_words text).
  destruct (count_fold_keyed words empty_object well_keyed_empty) as [Hkeyed Hin].
  destruct (density_fold_keyed (len words)
              (Object_entries (fold_left count_step words empty_object))
              empty_object well_keyed_empty) as [Hd Hdin].
  split; [exact Hd|]. intros k Hk.
  apply Hdin in Hk as [Hk|[]]. apply Hin in Hk as [Hk|[]]. exact Hk.
Qed.

Lemma suggestions_sublist (text : string) :
  exists l,
    Permutation l (keys (density (analyzeKeywords text))) /\
    suggestions (analyzeKeywords text) = firstn 15 l.
Proof.
  unfold analyzeKeywords. cbn [density suggestions]. unfold slice.
  rewrite skipn_O. cbn [Nat.sub]. rewrite <- firstn_map.
  eexists. split; [|reflexivity].
  unfold keys. apply Permutation_map. apply sort_perm.
Qed.

(** X15. For every text the suggestions are distinct, at most 15, each a
    counted word with a density entry; [primary] is the first 3 of them and
    [primary] followed by [secondary] the first 10, so no word is in both;
    and when the density has at most 15 keys the suggestions are all of
    them. *)
Theorem keyword_lists (text : string) :
  let r := analyzeKeywords text in
  NoDup (suggestions r) /\
  (length (suggestions r) <= 15)%nat /\
  primary r = firstn 3 (suggestions r) /\
  (primary r ++ secondary r)%list = firstn 10 (suggestions r) /\
  (forall w, In w (primary r) -> ~ In w (secondary r)) /\
  Forall (fun w => In w (keyword_words text) /\ get_own w (density r) <> None)
    (suggestions r) /\
  ((length (keys (density r)) <= 15)%nat -> Permutation (suggestions r) (keys (density r))).
Proof.
  intros r.
  destruct (density_keys text) as [Hkeyed Hwords]. fold r in Hkeyed, Hwords.
  destruct (suggestions_sublist text) as (l & Hperm & Hsug). fold r in Hperm, Hsug.
  assert (Hnd : NoDup (suggestions r)).
  { rewrite Hsug. eapply sublist_NoDup; [apply sublist_take|].
    eapply Permutation_NoDup; [symmetry; exact Hperm|]. now apply well_keyed_NoDup. }
  assert (Hsplit : (primary r ++ secondary r)%list = firstn 10 (suggestions r)).
  { unfold r, analyzeKeywords. cbn [primary secondary suggestions]. unfold slice.
    rewrite skipn_O. cbn [Nat.sub]. apply (take_take_drop _ 3 7). }
  split; [exact Hnd|].
  split; [rewrite Hsug; apply firstn_le_length|].
  split; [unfold r, analyzeKeywords; cbn [primary suggestions]; unfold slice;
          now rewrite skipn_O|].
  split; [exact Hsplit|].
  split.
  { intros w. apply NoDup_app_disjoint. rewrite Hsplit.
    eapply sublist_NoDup; [apply sublist_take | exact Hnd]. }
  split.
  { apply Forall_forall. intros w Hw. rewrite Hsug in Hw.
    assert (Hk : In w (keys (density r))).
    { eapply Permutation_in; [exact Hperm|]. eapply sublist_In; [apply sublist_take | exact Hw]. }
    split; [now apply Hwords | now apply keys_get_own]. }
  intros Hlen. rewrite Hsug. rewrite firstn_all2; [exact Hperm|].
  now rewrite (Permutation_length Hperm).
Qed.

(** ** Keywords: the percentages add up, as far as they are rounded *)

Lemma Zsum_add {A : Type} (a b : A -> Z) (l : list A) :
  Zsum (map (fun k => a k + b k) l) = Zsum (map a l) + Zsum (map b l).
Proof.
  unfold Zsum. induction l as [|x l IH]; [reflexivity|]. cbn [map fold_right]. lia.
Qed.

Lemma Zsum_indicator_absent (x : string) (l : list string) :
  ~ In x l -> Zsum (map (fun k => if (k =? x)%string then 1 else 0) l) = 0.
Proof.
  unfold Zsum. induction l as [|y l IH]; intros Hx; [reflexivity|].
  cbn [map fold_right]. destruct (String.eqb_spec y x) as [->|_].
  - exfalso. apply Hx. now left.
  - rewrite IH; [reflexivity|]. intros H. apply Hx. now right.
Qed.

Lemma Zsum_indicator (x : string) (l : list string) :
  NoDup l -> In x l -> Zsum (map (fun k => if (k =? x)%string then 1 else 0) l) = 1.
Proof.
  induction 1 as [|y l Hy Hn IH]; intros Hx; [destruct Hx|].
  change (Zsum (map (fun k => if (k =? x)%string then 1 else 0) (y :: l)))
    with ((if (y =? x)%string then 1 else 0)
          + Zsum (map (fun k => if (k =? x)%string then 1 else 0) l)).
  destruct (String.eqb_spec y x) as [->|Hne].
  - now rewrite Zsum_indicator_absent.
  - destruct Hx as [->|Hx]; [contradiction|]. now rewrite IH.
Qed.

(** Over the distinct words, the occurrences add up to the number of words. *)
Lemma occurrences_sum (ks : list string) (words : list string) :
  NoDup ks -> (forall w, In w words -> In w ks) ->
  Zsum (map (fun k => occurrences k words) ks) = len words.
Proof.
  intros Hn. induction words as [|x ws IH]; intros Hin.
  - clear Hn Hin. unfold Zsum. induction ks as [|k ks IHk]; [reflexivity|].
    cbn [map fold_right]. rewrite IHk. reflexivity.
  - rewrite (map_ext _ (fun k => (if (k =? x)%string then 1 else 0) + occurrences k ws)).
    + rewrite Zsum_add, Zsum_indicator, IH, len_cons; [reflexivity | | exact Hn |].
      * intros w Hw. apply Hin. now right.
      * apply Hin. now left.
    + intros k. unfold occurrences. apply count_cons.
Qed.

Lemma rounded_percentage_bounds (rnd : Q -> Q) (eps : Q) (count totalWords : Z) :
  (0 <= eps)%Q -> (eps <= 1)%Q -> rounds_within eps rnd ->
  0 <= count -> 0 < totalWords ->
  (100 * (1 - eps) * (1 - eps) * (inject_Z count / inject_Z totalWords)
   <= rounded_percentage rnd count totalWords)%Q /\
  (rounded_percentage rnd count totalWords
   <= 100 * (1 + eps) * (1 + eps) * (inject_Z count / inject_Z totalWords))%Q.
Proof.
  intros He0 He1 Hr Hc Ht. unfold rounded_percentage.
  set (x := (inject_Z count / inject_Z totalWords)%Q).
  assert (Hx : (0 <= x)%Q).
  { unfold x. apply Qle_shift_div_l.
    - change 0%Q with (inject_Z 0). now rewrite <- Zlt_Qlt.
    - rewrite Qmult_0_l. change 0%Q with (inject_Z 0). now rewrite <- Zle_Qle. }
  destruct (Hr x Hx) as [H1 H2].
  assert (Hrx : (0 <= rnd x)%Q) by nra.
  assert (Hy : (0 <= rnd x * 100)%Q) by lra.
  destruct (Hr (rnd x * 100)%Q Hy) as [H3 H4].
  split; nra.
Qed.

Lemma Qsum_scaled_bounds {A : Type} (f x : A -> Q) (a b : Q) (l : list A) :
  (forall w, In w l -> (a * x w <= f w)%Q /\ (f w <= b * x w)%Q) ->
  (a * Qsum (map x l) <= Qsum (map f l))%Q /\ (Qsum (map f l) <= b * Qsum (map x l))%Q.
Proof.
  unfold Qsum. induction l as [|w l IH]; intros H.
  - cbn [map fold_right]. split; lra.
  - cbn [map fold_right]. destruct (H w (or_introl eq_refl)) as [H1 H2].
    destruct IH as [I1 I2]; [intros v Hv; apply H; now right|].
    split; lra.
Qed.

Lemma fraction_sum (words ks : list string) :
  (Qsum (map (fun k => inject_Z (occurrences k words) / inject_Z (len words)) ks)
   == inject_Z (Zsum (map (fun k => occurrences k words) ks)) / inject_Z (len words))%Q.
Proof.
  unfold Qsum, Zsum. induction ks as [|k ks IH].
  - cbn [map fold_right]. unfold Qdiv. now rewrite Qmult_0_l.
  - cbn [map fold_right]. rewrite IH, inject_Z_plus. unfold Qdiv. ring.
Qed.

Lemma density_keys_counted (words : list string) :
  forallb inherits_nothing words = true -> words <> [] ->
  keys (fold_left (density_step (len words))
          (Object_entries (fold_left count_step words empty_object)) empty_object)
  = key_order (fold_left count_step words empty_object).
Proof.
  intros Hp Hne. unfold keys. rewrite (density_entries words Hp Hne), map_map.
  apply map_id.
Qed.

(** X16. When the text has a counted word and none of them is
    [constructor] or [__proto__], every density is the exact
    [(count / totalWords) * 100] of its word here, and the counts of the
    density's keys add up to the number of counted words.  The source stores
    each density as the double that the quotient and the product come to,
    both rounded: for every rounding with a relative error of [eps] at most,
    the stored densities add up to 100 within the factors [(1 - eps)^2] and
    [(1 + eps)^2], and not to 100 exactly. *)
Theorem density_sums_to_100 (text : string) (rnd : Q -> Q) (eps : Q) :
  let words := keyword_words text in
  existsb inherited_name words = false ->
  words <> [] ->
  (0 <= eps)%Q -> (eps <= 1)%Q -> rounds_within eps rnd ->
  let counted_words := keys (density (analyzeKeywords text)) in
  let stored :=
    Qsum (map (fun w => rounded_percentage rnd (occurrences w words) (len words))
            counted_words) in
  Forall (fun w => get_own w (density (analyzeKeywords text))
                   = Some (Finite (inject_Z (occurrences w words)
                                   / inject_Z (len words) * 100)))
    counted_words /\
  Zsum (map (fun w => occurrences w words) counted_words) = len words /\
  (100 * (1 - eps) * (1 - eps) <= stored)%Q /\
  (stored <= 100 * (1 + eps) * (1 + eps))%Q.
Proof.
  intros words Hplain Hne He0 He1 Hr counted_words stored.
  pose proof (keyword_words_plain text Hplain) as Hp. fold words in Hp.
  assert (Hk : counted_words = key_order (fold_left count_step words empty_object)).
  { unfold counted_words, analyzeKeywords. fold words. cbn [density].
    now apply density_keys_counted. }
  assert (Hsum : Zsum (map (fun w => occurrences w words) counted_words) = len words).
  { rewrite Hk. apply occurrences_sum.
    - eapply StronglySorted_NoDup; [|apply (key_order_sorted words Hp)].
      apply key_before_irrefl.
    - intros w Hw. now apply (key_order_words words Hp). }
  split.
  { apply Forall_forall. intros w Hw. rewrite Hk in Hw.
    apply (key_order_words words Hp) in Hw. apply occurrences_In in Hw.
    unfold analyzeKeywords. fold words. cbn [density].
    rewrite (density_lookup words Hp Hne).
    destruct (Z.ltb_spec 0 (occurrences w words)); [reflexivity | lia]. }
  split; [exact Hsum|].
  assert (Hlen : 0 < len words).
  { destruct words as [|w ws]; [now contradiction Hne|].
    rewrite len_cons. pose proof (len_nonneg ws). lia. }
  destruct (Qsum_scaled_bounds
              (fun w => rounded_percentage rnd (occurrences w words) (len words))
              (fun w => inject_Z (occurrences w words) / inject_Z (len words))%Q
              (100 * (1 - eps) * (1 - eps))%Q (100 * (1 + eps) * (1 + eps))%Q
              counted_words) as [Hlo Hhi].
  { intros w _. apply rounded_percentage_bounds; try assumption.
    apply occurrences_nonneg. }
  fold stored in Hlo, Hhi.
  assert (Hone : (Qsum (map (fun w => inject_Z (occurrences w words) / inject_Z (len words))
                          counted_words) == 1)%Q).
  { rewrite fraction_sum, Hsum. field.
    change 0%Q with (inject_Z 0). rewrite inject_Z_injective. lia. }
  rewrite Hone in Hlo, Hhi. split; lra.
Qed.

(** The text of the keywords example, in an arithmetic that chops one part
    in 1024 off every result. *)
Lemma density_sums_to_100_witness :
  existsb inherited_name (keyword_words keywords_text) = false /\
  keyword_words keywords_text <> [] /\
  (0 <= 1 # 1024)%Q /\ ((1 # 1024) <= 1)%Q /\
  rounds_within (1 # 1024) (fun x => x * (1023 # 1024))%Q /\
  let words := keyword_words keywords_text in
  let counted_words := keys (density (analyzeKeywords keywords_text)) in
  let stored :=
    Qsum (map (fun w => rounded_percentage (fun x => x * (1023 # 1024))%Q
                          (occurrences w words) (len words))
            counted_words) in
  Forall (fun w => get_own w (density (analyzeKeywords keywords_text))
                   = Some (Finite (inject_Z (occurrences w words)
                                   / inject_Z (len words) * 100)))
    counted_words /\
  Zsum (map (fun w => occurrences w words) counted_words) = len words /\
  (100 * (1 - (1 # 1024)) * (1 - (1 # 1024)) <= stored)%Q /\
  (stored <= 100 * (1 + (1 # 1024)) * (1 + (1 # 1024)))%Q.
Proof.
  assert (Hr : rounds_within (1 # 1024) (fun x => x * (1023 # 1024))%Q).
  { intros x Hx. split; lra. }
  split; [reflexivity|]. split; [vm_compute; discriminate|].
  split; [discriminate|]. split; [discriminate|]. split; [exact Hr|].
  apply (density_sums_to_100 keywords_text (fun x => x * (1023 # 1024))%Q (1 # 1024));
    [reflexivity | vm_compute; discriminate | discriminate | discriminate | exact Hr].
Defined.

(** ** Recommendations: one message per rule *)

Lemma rule_messages_distinct (issues : TechnicalIssues) (scores : DetailedScores.t)
    (content : ContentAnalysis) (images : ImagesAnalysis) (links : LinksAnalysis) :
  NoDup (map snd (recommendation_rules issues scores content images links)).
Proof.
  unfold recommendation_rules. cbn [map snd].
  generalize (Z_to_string (withoutAlt images) ++ " imágenes"). intros tail.
  assert (Halt : exists rest,
            "🖼️ Agregar texto alt a " ++ tail
            = String "240"%char (String "159"%char (String "150"%char rest)))
    by (eexists; reflexivity).
  destruct Halt as [rest ->].
  repeat (constructor; [cbn [In]; intros H;
    repeat (destruct H as [H|H]; [discriminate H|]); exact H|]).
  constructor.
Qed.

Lemma rule_fires (rules : list (bool * string)) (c : bool) (m : string) :
  NoDup (map snd rules) -> In (c, m) rules ->
  (In m (map snd (List.filter fst rules)) <-> c = true).
Proof.
  intros Hn Hin. split.
  - intros Hm. apply in_map_iff in Hm as ([c' m'] & Heq & Hf). cbn [snd] in Heq. subst m'.
    apply filter_In in Hf as [Hin' Hc']. cbn [fst] in Hc'. subst c'.
    destruct c; [reflexivity|]. exfalso.
    induction rules as [|[c0 m0] rules IH]; [destruct Hin|].
    cbn [map snd] in Hn. inversion Hn as [|? ? Hout Hn']; subst.
    destruct Hin as [Heq|Hin]; destruct Hin' as [Heq'|Hin'].
    + congruence.
    + injection Heq as -> ->. apply Hout. apply in_map_iff. now exists (true, m).
    + injection Heq' as -> ->. apply Hout. apply in_map_iff. now exists (false, m).
    + now apply IH.
  - intros ->. apply in_map_iff. exists (true, m). split; [reflexivity|].
    apply filter_In. split; [exact Hin | reflexivity].
Qed.

Lemma NoDup_map_filter {A B : Type} (f : A -> B) (p : A -> bool) (l : list A) :
  NoDup (map f l) -> NoDup (map f (List.filter p l)).
Proof.
  induction l as [|x l IH]; intros Hn; [constructor|].
  cbn [map] in Hn. inversion Hn as [|? ? Hout Hn']; subst.
  cbn [List.filter]. destruct (p x); [|now apply IH].
  cbn [map]. constructor; [|now apply IH].
  intros Hin. apply Hout. apply in_map_iff in Hin as (y & Hy & Hf).
  apply filter_In in Hf as [Hf _]. apply in_map_iff. now exists y.
Qed.

(** X19. The recommendations are the messages of the rules whose condition
    holds: each message at most once, a message being present exactly when
    its rule's condition holds, in the order of the rules; there are at most
    16, none exactly when no condition holds; and the keywords argument is
    never read. *)
Theorem recommendations_follow_rules (issues : TechnicalIssues) (scores : DetailedScores.t)
    (keywords : KeywordsAnalysis) (content : ContentAnalysis) (images : ImagesAnalysis)
    (links : LinksAnalysis) :
  let recs :=
    generateComprehensiveRecommendations issues scores keywords content images links in
  let rules := recommendation_rules issues scores content images links in
  recs = map snd (List.filter fst rules) /\
  NoDup recs /\
  (forall c m, In (c, m) rules -> (In m recs <-> c = true)) /\
  (forall l1 l2 l3 a b,
     rules = (l1 ++ (true, a) :: l2 ++ (true, b) :: l3)%list -> precedes a b recs) /\
  (recs = [] <-> existsb fst rules = false) /\
  (length recs <= 16)%nat /\
  (forall keywords',
     generateComprehensiveRecommendations issues scores keywords' content images links = recs).
Proof.
  intros recs rules.
  assert (Hr : recs = map snd (List.filter fst rules)) by apply recommendations_rules.
  pose proof (rule_messages_distinct issues scores content images links) as Hn.
  fold rules in Hn.
  split; [exact Hr|]. rewrite Hr.
  split; [now apply NoDup_map_filter|].
  split; [intros c m; now apply rule_fires|].
  split; [intros l1 l2 l3 a b; apply filtered_precedes|].
  split; [split|].
  - intros H. destruct (existsb fst rules) eqn:E; [|reflexivity].
    apply existsb_exists in E as ([c s] & Hin & Hc). cbn [fst] in Hc. subst c.
    assert (Hin' : In s (map snd (List.filter fst rules))).
    { apply in_map_iff. exists (true, s). split; [reflexivity|].
      apply filter_In. split; [exact Hin | reflexivity]. }
    rewrite H in Hin'. destruct Hin'.
  - intros H. destruct (List.filter fst rules) as [|[c s] rest] eqn:E; [reflexivity|].
    assert (Hin : In (c, s) (List.filter fst rules)) by (rewrite E; now left).
    apply filter_In in Hin as [Hin Hc].
    assert (existsb fst rules = true) by (apply existsb_exists; eauto).
    congruence.
  - split.
    + rewrite length_map. etransitivity; [apply filter_length_le|]. reflexivity.
    + intros keywords'. apply recommendations_rules.
Qed.

(** ** The scores of a report and the recommendations they drive *)

(** X18. In a report the technical score is at least 30 (a missing title
    cannot also be too long), the content score at least 20, the performance
    score within [80, 99], the accessibility score at least 10, the social
    score at least 35 and the overall score within [35, 100]; the technical,
    content, accessibility and social scores are multiples of 5. *)
Theorem report_score_floor (JSON_parse : string -> option JSON)
    (URL_hostname : string -> option string) (doc : Document) (url : string) (g : Rng) :
  match parseDocument JSON_parse URL_hostname doc url g with
  | Normal r _ =>
      let s := SEOAnalysis.scores r in
      30 <= DetailedScores.technical s /\ 20 <= DetailedScores.content s /\
      80 <= DetailedScores.performance s <= 99 /\ 10 <= DetailedScores.accessibility s /\
      35 <= DetailedScores.social s /\
      35 <= SEOAnalysis.score r <= 100 /\
      DetailedScores.technical s mod 5 = 0 /\ DetailedScores.content s mod 5 = 0 /\
      DetailedScores.accessibility s mod 5 = 0 /\ DetailedScores.social s mod 5 = 0
  | Thrown _ _ => URL_hostname url = None
  end.
Proof.
  pose proof (parseDocument_outcome JSON_parse URL_hostname doc url g) as Ho.
  destruct (parseDocument JSON_parse URL_hostname doc url g) as [r g'|e g'] eqn:H; [|exact Ho].
  destruct Ho as (Hrange & Hscore & _).
  destruct (report_score_facts _ _ _ _ _ _ _ H) as [(Ht & Hc & Hp & Ha & Hs) Hfive].
  cbv zeta. repeat split; try tauto.
  - rewrite Hscore. unfold overall_score. rewrite Math_round_fifth.
    apply Z.div_le_lower_bound; [lia|]. lia.
  - rewrite Hscore. unfold overall_score. rewrite Math_round_fifth.
    destruct Hrange as (H1 & H2 & _ & H4 & H5). unfold in_score_range in *.
    apply Z.lt_succ_r. apply Z.div_lt_upper_bound; lia.
Qed.

Lemma calculateDetailedScores_social title metaDescription headings images issues content
    links mobile accessibility socialMedia (g : Rng) :
  exists s g',
    calculateDetailedScores title metaDescription headings images issues content
      links mobile accessibility socialMedia g = Normal s g' /\
    (DetailedScores.social s <? 70) = (2 <=? missing_social socialMedia).
Proof.
  unfold calculateDetailedScores, bind, Math_random, ret. cbv beta iota zeta.
  eexists _, _. split; [reflexivity|].
  cbn [DetailedScores.social]. unfold deduct, missing_social.
  destruct (hasOpenGraph socialMedia); destruct (hasTwitterCard socialMedia);
    destruct (hasGoogleAnalytics socialMedia); reflexivity.
Qed.

(** X20. In a report the recommendation to improve the loading speed never
    appears, because the performance score is never below 70; the social
    recommendation appears exactly when at least two of Open Graph, Twitter
    Card and Google Analytics are missing; and the recommendation naming the
    number of images without alt text appears exactly when the issue
    [imagesMissingAlt] is flagged. *)
Theorem report_recommendations (JSON_parse : string -> option JSON)
    (URL_hostname : string -> option string) (doc : Document) (url : string) (g : Rng) :
  match parseDocument JSON_parse URL_hostname doc url g with
  | Normal r _ =>
      let recs := SEOAnalysis.recommendations r in
      ~ In performance_message recs /\
      (In social_message recs <-> 2 <= missing_social (SEOAnalysis.socialMedia r)) /\
      (In (alt_message (withoutAlt (SEOAnalysis.images r))) recs <->
       imagesMissingAlt (SEOAnalysis.technicalIssues r) = true)
  | Thrown _ _ => URL_hostname url = None
  end.
Proof.
  pose proof (parseDocument_outcome JSON_parse URL_hostname doc url g) as Ho.
  destruct (parseDocument JSON_parse URL_hostname doc url g) as [r g'|e g'] eqn:H; [|exact Ho].
  destruct (report_score_facts _ _ _ _ _ _ _ H) as [(_ & _ & Hp & _ & _) _].
  destruct (parseDocument_assembled _ _ _ _ _ _ _ H) as [Has _].
  cbv zeta. rewrite (as_recommendations _ _ _ _ Has), recommendations_rules.
  set (rules := recommendation_rules (SEOAnalysis.technicalIssues r) (SEOAnalysis.scores r)
                  (SEOAnalysis.content r) (SEOAnalysis.images r) (SEOAnalysis.links r)).
  pose proof (rule_messages_distinct (SEOAnalysis.technicalIssues r) (SEOAnalysis.scores r)
                (SEOAnalysis.content r) (SEOAnalysis.images r) (SEOAnalysis.links r)) as Hn.
  fold rules in Hn.
  split; [|split].
  - rewrite (rule_fires rules (DetailedScores.performance (SEOAnalysis.scores r) <? 70)
               performance_message Hn).
    + intros Hc. apply Z.ltb_lt in Hc. lia.
    + unfold rules, recommendation_rules. cbn [In]. do 13 right. now left.
  - rewrite (rule_fires rules (DetailedScores.social (SEOAnalysis.scores r) <? 70)
               social_message Hn).
    + destruct (as_scores _ _ _ _ Has) as (gs & gs' & Hs).
      match type of Hs with
      | calculateDetailedScores ?a ?b ?c ?d ?e ?f ?h ?i ?j ?k ?g2 = _ =>
          destruct (calculateDetailedScores_social a b c d e f h i j k g2)
            as (s' & g2' & Hs' & Hsoc)
      end.
      rewrite Hs in Hs'. injection Hs' as <- _. rewrite Hsoc. apply Z.leb_le.
    + unfold rules, recommendation_rules. cbn [In]. do 14 right. now left.
  - rewrite (rule_fires rules (0 <? withoutAlt (SEOAnalysis.images r))
               (alt_message (withoutAlt (SEOAnalysis.images r))) Hn).
    + rewrite (as_issues _ _ _ _ Has). reflexivity.
    + unfold rules, recommendation_rules. cbn [In]. do 9 right. now left.
Qed.
